(** * nested_property: path-addressed access and Mongo-style matching

    A shallow embedding of [src/nested_property/__init__.py] and the
    properties of it that the specification states.

    Scope of the embedding.
    - Documents are JSON-like Python objects: [None], [bool], [int], [str],
      [list] and [dict] with string keys.  Floats, tuples and instances of
      user classes are outside the embedding; on the objects that are inside
      it, [isinstance(obj, (list, tuple))] is "is a list" and
      [isinstance(obj, dict) or hasattr(obj, '__dict__')] is "is a dict".
    - A [dict] is an association list in insertion order (the order of
      [items()]); keys are unique in every dict Python can build.
    - A [str] is a sequence of characters with code points below 256, one
      [ascii] per character; [str.isdigit] and [int] are modelled on all of
      them.  Characters beyond are outside the embedding.
    - An exception is a result: the functions that only read return a
      [result], the functions that write run in a state monad whose store
      keeps what was written before a raise.
    - The mutators work in place.  The store holds the caller's structure as
      one tree and the containers allocated during a call as further trees;
      a Python variable bound to a container is a reference (a tree and a
      path in it), so that a write through the variable lands in the tree
      the container belongs to and nowhere else.  Every container has one
      owner: a value handed to a mutator is entered into the tree as its
      contents, and a root in which one container is stored under two paths
      is outside the embedding.  The one call that would build such a root,
      [set] or [push] with a list of paths and a value that is a list or a
      dict, is [OutOfModel].
    - The optional arguments of the source are explicit arguments here;
      [None] for [index_prefix] is [None], for [query], [value], [index] and
      [default] it is [VNone].

    The definitions follow the source function by function and keep its
    names; the line numbers in the comments are those of the source file. *)

From Stdlib Require Import ZArith List String Ascii Bool Lia.
Import ListNotations.
Open Scope string_scope.
Open Scope Z_scope.
Open Scope list_scope.

(** ** Python exceptions and results *)

Inductive exc : Type :=
| TypeError
| AttributeError
| ValueError
| IndexError
| OutOfModel.  (* behaviour the embedding does not describe; see [hasattr], [set] *)

Inductive result (A : Type) : Type :=
| Ok (a : A)
| Raise (e : exc).
Arguments Ok {A} a.
Arguments Raise {A} e.

Definition rbind {A B} (r : result A) (f : A -> result B) : result B :=
  match r with
  | Ok a => f a
  | Raise e => Raise e
  end.

(** ** Values *)

Set Warnings "-register-all".

Inductive value : Type :=
| VNone
| VBool (b : bool)
| VInt (z : Z)
| VStr (s : string)
| VList (xs : list value)
| VDict (kvs : list (string * value)).

(** A key as [_parse_key] returns it: a [str] or an [int]. *)
Inductive key_t : Type :=
| KStr (s : string)
| KInt (z : Z).

Definition is_none (v : value) : bool :=
  match v with VNone => true | _ => false end.

(** ** Strings *)

Definition is_digit (c : ascii) : bool :=
  let n := nat_of_ascii c in (48 <=? n)%nat && (n <=? 57)%nat.

Definition digit_val (c : ascii) : Z := Z.of_nat (nat_of_ascii c) - 48.

Fixpoint all_chars (p : ascii -> bool) (s : string) : bool :=
  match s with
  | EmptyString => true
  | String c s' => p c && all_chars p s'
  end.

(** [c.isdigit()] on one character: the decimal digits, and the superscript
    digits one, two and three (code points 185, 178 and 179), which are
    digits that [int] does not read. *)
Definition is_digit_char (c : ascii) : bool :=
  let n := nat_of_ascii c in
  is_digit c || (n =? 178)%nat || (n =? 179)%nat || (n =? 185)%nat.

(** [s.isdigit()]: at least one character, all of them digits. *)
Definition isdigit (s : string) : bool :=
  match s with
  | EmptyString => false
  | _ => all_chars is_digit_char s
  end.

(** [s.split(".")]. *)
Fixpoint split (sep : ascii) (s : string) : list string :=
  match s with
  | EmptyString => [EmptyString]
  | String c s' =>
      if Ascii.eqb c sep then EmptyString :: split sep s'
      else match split sep s' with
           | [] => [String c EmptyString]
           | h :: t => String c h :: t
           end
  end.

(** [needle in hay] on two strings. *)
Fixpoint contains (needle hay : string) : bool :=
  String.prefix needle hay ||
  match hay with
  | EmptyString => false
  | String _ hay' => contains needle hay'
  end.

Fixpoint drop (n : nat) (s : string) : string :=
  match n, s with
  | O, _ => s
  | S n', String _ s' => drop n' s'
  | S _, EmptyString => EmptyString
  end.

Fixpoint chars (s : string) : list string :=
  match s with
  | EmptyString => []
  | String c s' => String c EmptyString :: chars s'
  end.

(** [int(s)]: surrounding white space, an optional sign, then decimal digits
    in which single underscores may separate digits, and no more digits
    than the interpreter's limit, which is 4300 unless it is configured.
    The white space of [int] is the ASCII white space, the next-line
    character (133) and the no-break space (160). *)
Definition is_space (c : ascii) : bool :=
  let n := nat_of_ascii c in
  ((9 <=? n)%nat && (n <=? 13)%nat) || (n =? 32)%nat
  || (n =? 133)%nat || (n =? 160)%nat.

Fixpoint lstrip (s : string) : string :=
  match s with
  | String c s' => if is_space c then lstrip s' else s
  | EmptyString => s
  end.

Fixpoint rev_string (acc s : string) : string :=
  match s with
  | EmptyString => acc
  | String c s' => rev_string (String c acc) s'
  end.

Definition strip (s : string) : string :=
  rev_string EmptyString (lstrip (rev_string EmptyString (lstrip s))).

Fixpoint parse_digits (acc : Z) (after_digit : bool) (s : string) : option Z :=
  match s with
  | EmptyString => if after_digit then Some acc else None
  | String c s' =>
      if is_digit c then parse_digits (10 * acc + digit_val c) true s'
      else if Ascii.eqb c "_" && after_digit then parse_digits acc false s'
      else None
  end.

Definition max_str_digits : Z := 4300.

Fixpoint count_digits (s : string) : Z :=
  match s with
  | EmptyString => 0
  | String c s' => (if is_digit c then 1 else 0) + count_digits s'
  end.

Definition int (s : string) : result Z :=
  let body (neg : bool) (t : string) :=
    match parse_digits 0 false t with
    | Some z =>
        if count_digits t <=? max_str_digits then Ok (if neg then - z else z)
        else Raise ValueError
    | None => Raise ValueError
    end in
  match strip s with
  | String "+" t => body false t
  | String "-" t => body true t
  | t => body false t
  end.

(** ** Comparison of values *)

Fixpoint assoc (k : string) (d : list (string * value)) : option value :=
  match d with
  | [] => None
  | (k', v) :: d' => if String.eqb k k' then Some v else assoc k d'
  end.

Definition as_int (v : value) : option Z :=
  match v with
  | VInt z => Some z
  | VBool b => Some (Z.b2z b)
  | _ => None
  end.

(** [a == b].  A [bool] is an [int]; two dicts are equal when they hold the
    same keys with equal values, in any order. *)
Fixpoint py_eq (a b : value) {struct a} : bool :=
  match a, b with
  | VNone, VNone => true
  | VBool x, VBool y => Bool.eqb x y
  | VBool x, VInt y => Z.b2z x =? y
  | VInt x, VBool y => x =? Z.b2z y
  | VInt x, VInt y => x =? y
  | VStr x, VStr y => String.eqb x y
  | VList xs, VList ys =>
      (fix go (xs ys : list value) : bool :=
         match xs, ys with
         | [], [] => true
         | x :: xs', y :: ys' => py_eq x y && go xs' ys'
         | _, _ => false
         end) xs ys
  | VDict d1, VDict d2 =>
      (List.length d1 =? List.length d2)%nat &&
      (fix go (d : list (string * value)) : bool :=
         match d with
         | [] => true
         | (k, x) :: d' =>
             match assoc k d2 with
             | Some y => py_eq x y
             | None => false
             end && go d'
         end) d1
  | _, _ => false
  end.

Definition py_ne (a b : value) : bool := negb (py_eq a b).

(** The ordering behind [<], [<=], [>] and [>=]: numbers by value, strings
    and lists lexicographically (a list is ordered by its first pair of
    unequal elements), anything else is a [TypeError]. *)
Fixpoint py_cmp (a b : value) {struct a} : result comparison :=
  match a, b with
  | VList xs, VList ys =>
      (fix go (xs ys : list value) : result comparison :=
         match xs, ys with
         | [], [] => Ok Eq
         | [], _ :: _ => Ok Lt
         | _ :: _, [] => Ok Gt
         | x :: xs', y :: ys' => if py_eq x y then go xs' ys' else py_cmp x y
         end) xs ys
  | VStr x, VStr y => Ok (String.compare x y)
  | _, _ =>
      match as_int a, as_int b with
      | Some x, Some y => Ok (x ?= y)
      | _, _ => Raise TypeError
      end
  end.

Definition py_lt (a b : value) : result bool :=
  rbind (py_cmp a b) (fun c => Ok match c with Lt => true | _ => false end).
Definition py_le (a b : value) : result bool :=
  rbind (py_cmp a b) (fun c => Ok match c with Gt => false | _ => true end).
Definition py_gt (a b : value) : result bool :=
  rbind (py_cmp a b) (fun c => Ok match c with Gt => true | _ => false end).
Definition py_ge (a b : value) : result bool :=
  rbind (py_cmp a b) (fun c => Ok match c with Lt => false | _ => true end).

(** [len(v)]. *)
Definition len (v : value) : result Z :=
  match v with
  | VStr s => Ok (Z.of_nat (String.length s))
  | VList xs => Ok (Z.of_nat (List.length xs))
  | VDict d => Ok (Z.of_nat (List.length d))
  | _ => Raise TypeError
  end.

(** [x in c]: membership in a list, key of a dict (an unhashable [x] is a
    [TypeError]), substring of a string. *)
Definition py_in (x c : value) : result bool :=
  match c with
  | VList xs => Ok (existsb (py_eq x) xs)
  | VDict d =>
      match x with
      | VList _ | VDict _ => Raise TypeError
      | VStr k => Ok (match assoc k d with Some _ => true | None => false end)
      | _ => Ok false
      end
  | VStr s =>
      match x with
      | VStr n => Ok (contains n s)
      | _ => Raise TypeError
      end
  | _ => Raise TypeError
  end.

(** What [for x in v] iterates over. *)
Definition iter (v : value) : result (list value) :=
  match v with
  | VList xs => Ok xs
  | VDict d => Ok (map (fun kv => VStr (fst kv)) d)
  | VStr s => Ok (map VStr (chars s))
  | _ => Raise TypeError
  end.

(** ** The store

    [root] is the structure the caller passes in; [locals] are the
    containers a call allocates ([obj = []], [obj = {}]) and that no tree
    holds.  A reference names a container by the tree it lives in and the
    path to it; [RNone] is the [None] object. *)

Inductive step : Type :=
| SKey (k : string)
| SIdx (i : nat).

Inductive base : Type :=
| Root
| Local (n : nat).

Inductive ref : Type :=
| RNone
| RAt (b : base) (p : list step).

Record store : Type := mkStore { root : value; locals : list value }.

Definition init (r : value) : store := mkStore r [].

Definition here : ref := RAt Root [].

Fixpoint set_assoc (k : string) (v : value) (d : list (string * value))
  : list (string * value) :=
  match d with
  | [] => [(k, v)]
  | (k', x) :: d' =>
      if String.eqb k k' then (k', v) :: d' else (k', x) :: set_assoc k v d'
  end.

Fixpoint del_assoc (k : string) (d : list (string * value))
  : list (string * value) :=
  match d with
  | [] => []
  | (k', x) :: d' =>
      if String.eqb k k' then del_assoc k d' else (k', x) :: del_assoc k d'
  end.

Fixpoint set_nth {A} (i : nat) (a : A) (l : list A) : list A :=
  match l, i with
  | [], _ => []
  | _ :: l', O => a :: l'
  | x :: l', S i' => x :: set_nth i' a l'
  end.

Fixpoint del_nth {A} (i : nat) (l : list A) : list A :=
  match l, i with
  | [], _ => []
  | _ :: l', O => l'
  | x :: l', S i' => x :: del_nth i' l'
  end.

Definition child (v : value) (s : step) : option value :=
  match s, v with
  | SKey k, VDict d => assoc k d
  | SIdx i, VList xs => nth_error xs i
  | _, _ => None
  end.

Fixpoint lookup_path (v : value) (p : list step) : option value :=
  match p with
  | [] => Some v
  | s :: p' =>
      match child v s with
      | Some c => lookup_path c p'
      | None => None
      end
  end.

Fixpoint update_path (v : value) (p : list step) (new : value) : value :=
  match p with
  | [] => new
  | s :: p' =>
      match s, v with
      | SKey k, VDict d =>
          match assoc k d with
          | Some c => VDict (set_assoc k (update_path c p' new) d)
          | None => v
          end
      | SIdx i, VList xs =>
          match nth_error xs i with
          | Some c => VList (set_nth i (update_path c p' new) xs)
          | None => v
          end
      | _, _ => v
      end
  end.

(** ** The monad of the mutators: a store that survives a raise *)

Definition M (A : Type) : Type := store -> result A * store.

Definition ret {A} (a : A) : M A := fun st => (Ok a, st).

Definition raise {A} (e : exc) : M A := fun st => (Raise e, st).

Definition bind {A B} (m : M A) (f : A -> M B) : M B :=
  fun st =>
    match m st with
    | (Ok a, st') => f a st'
    | (Raise e, st') => (Raise e, st')
    end.

Definition lift {A} (r : result A) : M A := fun st => (r, st).

(** [try: m  except (IndexError, TypeError): h]. *)
Definition try_except {A} (m : M A) (h : M A) : M A :=
  fun st =>
    match m st with
    | (Raise IndexError, st') => h st'
    | (Raise TypeError, st') => h st'
    | r => r
    end.

Declare Scope py_scope.
Delimit Scope py_scope with py.
Notation "x <- m ;; k" := (bind m (fun x => k))
  (at level 61, m at next level, right associativity) : py_scope.
Notation "m ;; k" := (bind m (fun _ => k))
  (at level 61, right associativity) : py_scope.
Notation "' p <- m ;; k" := (bind m (fun x => match x with p => k end))
  (at level 61, p pattern, m at next level, right associativity) : py_scope.
Open Scope py_scope.

Definition load (r : ref) : M value :=
  fun st =>
    match r with
    | RNone => (Ok VNone, st)
    | RAt b p =>
        let tree := match b with
                    | Root => Some (root st)
                    | Local n => nth_error (locals st) n
                    end in
        match tree with
        | Some t =>
            match lookup_path t p with
            | Some v => (Ok v, st)
            | None => (Raise OutOfModel, st)
            end
        | None => (Raise OutOfModel, st)
        end
    end.

(** Replace the contents of the container [r] names. *)
Definition save (r : ref) (v : value) : M unit :=
  fun st =>
    match r with
    | RNone => (Raise OutOfModel, st)
    | RAt Root p => (Ok tt, mkStore (update_path (root st) p v) (locals st))
    | RAt (Local n) p =>
        match nth_error (locals st) n with
        | Some t =>
            (Ok tt, mkStore (root st) (set_nth n (update_path t p v) (locals st)))
        | None => (Raise OutOfModel, st)
        end
    end.

(** Bind a variable to a container no tree holds. *)
Definition alloc (v : value) : M ref :=
  fun st =>
    (Ok (RAt (Local (List.length (locals st))) []),
     mkStore (root st) (locals st ++ [v])).

Definition sub (r : ref) (s : step) : ref :=
  match r with
  | RNone => RNone
  | RAt b p => RAt b (p ++ [s])
  end.

(** ** Built-in operations on objects *)

(** [hasattr(obj, name)] on a built-in object that is not a dict.  A name
    that is not a string is a [TypeError].  Which names the built-in types
    define is not part of the embedding: the accessors below are never
    called with a string key on such an object (every such call is behind
    an [isinstance(obj, dict)] or [is_dict_object] test). *)
Definition hasattr (obj : value) (name : key_t) : result bool :=
  match name with
  | KInt _ => Raise TypeError
  | KStr _ => Raise OutOfModel
  end.

(** [setattr(obj, name, val)] on a built-in object that is not a dict: these
    objects have no attribute that can be written. *)
Definition setattr (obj : value) (name : key_t) (val : value) : result unit :=
  match name with
  | KInt _ => Raise TypeError
  | KStr n => if String.eqb n "__class__" then Raise TypeError
              else Raise AttributeError
  end.

Definition isinstance_dict (v : value) : bool :=
  match v with VDict _ => true | _ => false end.

Definition isinstance_list (v : value) : bool :=
  match v with VList _ => true | _ => false end.

(** A test on the object a variable is bound to. *)
Definition test (f : value -> bool) (obj : ref) : M bool :=
  v <- load obj ;;
  ret (f v).

(** [obj.clear()] on a dict or a list. *)
Definition clear (obj : ref) : M unit :=
  v <- load obj ;;
  match v with
  | VDict _ => save obj (VDict [])
  | VList _ => save obj (VList [])
  | _ => raise AttributeError
  end.

(** [obj.append(val)] on a list. *)
Definition append (obj : ref) (val : value) : M unit :=
  v <- load obj ;;
  match v with
  | VList xs => save obj (VList (xs ++ [val]))
  | _ => raise AttributeError
  end.

(** [while k >= len(obj): obj.append(fill)] on a list: the loop adds
    [k + 1 - len(obj)] elements when that is positive, none otherwise.
    Comparing a [str] with the length is a [TypeError]. *)
Definition grow (obj : ref) (k : key_t) (fill : value) : M unit :=
  v <- load obj ;;
  match v, k with
  | VList xs, KInt z =>
      save obj (VList (xs ++ repeat fill (Z.to_nat (z + 1 - Z.of_nat (List.length xs)))))
  | _, _ => raise TypeError
  end.

(** The position a list index denotes: negative indices count from the
    end. *)
Definition position (n : nat) (z : Z) : result nat :=
  if (0 <=? z) && (z <? Z.of_nat n) then Ok (Z.to_nat z)
  else if (- Z.of_nat n <=? z) && (z <? 0) then Ok (Z.to_nat (z + Z.of_nat n))
  else Raise IndexError.

(** [obj[k]] on a list. *)
Definition getitem (obj : ref) (k : key_t) : M ref :=
  v <- load obj ;;
  match v, k with
  | VList xs, KInt z =>
      i <- lift (position (List.length xs) z) ;;
      ret (sub obj (SIdx i))
  | VList _, KStr _ => raise TypeError
  | _, _ => raise OutOfModel
  end.

(** [obj[k] = val] on a dict with a string key or on a list. *)
Definition setitem (obj : ref) (k : key_t) (val : value) : M unit :=
  v <- load obj ;;
  match v, k with
  | VDict d, KStr s => save obj (VDict (set_assoc s val d))
  | VList xs, KInt z =>
      i <- lift (position (List.length xs) z) ;;
      save obj (VList (set_nth i val xs))
  | VList _, KStr _ => raise TypeError
  | _, _ => raise OutOfModel
  end.

(** [obj.pop(k)] on a list. *)
Definition list_pop (obj : ref) (k : key_t) : M unit :=
  v <- load obj ;;
  match v, k with
  | VList xs, KInt z =>
      i <- lift (position (List.length xs) z) ;;
      save obj (VList (del_nth i xs))
  | VList _, KStr _ => raise TypeError
  | _, _ => raise OutOfModel
  end.

(** [obj.pop(k, None)] on a dict. *)
Definition dict_pop (obj : ref) (k : key_t) : M unit :=
  v <- load obj ;;
  match v, k with
  | VDict d, KStr s => save obj (VDict (del_assoc s d))
  | VDict _, KInt _ => ret tt
  | _, _ => raise OutOfModel
  end.

(** [0 <= k < len(obj)]. *)
Definition in_range (k : key_t) (obj : value) : result bool :=
  match k with
  | KInt z => rbind (len obj) (fun n => Ok ((0 <=? z) && (z <? n)))
  | KStr _ => Raise TypeError
  end.

(** ** The value accessor (source lines 6-31) *)

Definition get_value (obj : ref) (k : key_t) (default : ref) : M ref :=
  v <- load obj ;;
  match v with
  | VDict d =>
      ret match k with
          | KStr s => match assoc s d with
                      | Some _ => sub obj (SKey s)
                      | None => default
                      end
          | KInt _ => default
          end
  | _ =>
      h <- lift (hasattr v k) ;;
      if h then raise OutOfModel else ret default
  end.

Definition set_value (obj : ref) (k : key_t) (val : value) : M unit :=
  v <- load obj ;;
  match v with
  | VDict _ => setitem obj k val
  | _ => lift (setattr v k val)
  end.

Definition has_key (obj : ref) (k : key_t) : M bool :=
  v <- load obj ;;
  match v with
  | VDict d =>
      ret match k with
          | KStr s => match assoc s d with Some _ => true | None => false end
          | KInt _ => false
          end
  | _ => lift (hasattr v k)
  end.

Definition is_list_object (obj : value) : bool := isinstance_list obj.

(** [isinstance(obj, dict) or hasattr(obj, '__dict__')]: no built-in object
    other than a dict has a [__dict__]. *)
Definition is_dict_object (obj : value) : bool := isinstance_dict obj.

(** [is_dict_object(dict)], the test of source line 173, asks about the
    type [dict] itself: a type has a [__dict__], so the answer is [True]
    whatever [current] is. *)
Definition is_dict_object_of_type_dict : bool := true.

(** ** The path resolver (source lines 81-89) *)

Definition _parse_key (key : string) (index_prefix : option string)
  : result (bool * key_t) :=
  match index_prefix with
  | Some prefix =>
      if String.prefix prefix key
      then rbind (int (drop (String.length prefix) key))
                 (fun z => Ok (true, KInt z))
      else Ok (false, KStr key)
  | None =>
      if isdigit key then rbind (int key) (fun z => Ok (true, KInt z))
      else Ok (false, KStr key)
  end.

(** ** Traversal (source lines 91-119) *)

Definition when (b : bool) (m : M unit) : M unit := if b then m else ret tt.

(** One turn of the loop of [_traverse]: [None] is the [return None] of the
    body, [Some obj] the object the next turn starts from. *)
Definition _traverse_turn (obj : ref) (key : string) (create_missing : bool)
    (index_prefix : option string) : M (option ref) :=
  '(is_index, k) <- lift (_parse_key key index_prefix) ;;
  if is_index then
    l <- test is_list_object obj ;;
    o <- (if negb l then
            if create_missing then
              d <- test isinstance_dict obj ;;
              when d (clear obj) ;;
              fresh <- alloc (VList []) ;;
              ret (Some fresh)
            else ret None
          else ret (Some obj)) ;;
    match o with
    | None => ret None
    | Some obj =>
        when create_missing (grow obj k (VDict [])) ;;
        try_except (r <- get_value obj k RNone ;; ret (Some r)) (ret None)
    end
  else
    d <- test is_dict_object obj ;;
    o <- (if negb d then
            if create_missing then
              l <- test isinstance_list obj ;;
              when l (clear obj) ;;
              fresh <- alloc (VDict []) ;;
              ret (Some fresh)
            else ret None
          else ret (Some obj)) ;;
    match o with
    | None => ret None
    | Some obj =>
        h <- (if create_missing then has_key obj k else ret true) ;;
        when (create_missing && negb h) (set_value obj k (VDict [])) ;;
        r <- get_value obj k RNone ;;
        ret (Some r)
    end.

Fixpoint _traverse (obj : ref) (keys : list string) (create_missing : bool)
    (index_prefix : option string) : M ref :=
  match keys with
  | [] => ret obj
  | key :: keys' =>
      o <- _traverse_turn obj key create_missing index_prefix ;;
      match o with
      | None => ret RNone
      | Some obj =>
          n <- test is_none obj ;;
          if n then ret RNone
          else _traverse obj keys' create_missing index_prefix
      end
  end.

(** [get(document, key)] as the matchers call it (source lines 48, 77 and
    282): a single path, every optional argument at its default, on a
    document held as a value.  [get_doc_is_get] below relates it to [get]. *)
Definition get_doc (document : value) (key : string) : result value :=
  fst ((r <- _traverse here (split "." key) false None ;; load r) (init document)).

(** ** The matcher of the traversal side (source lines 33-79) *)

(** The loops of the matchers run a check on every element and leave with
    [False] at the first check that fails; [all_of] is such a loop, and
    [all(f(x) for x in xs)] as well: it stops at the first element that
    decides, and so does [any_of], which is [any(f(x) for x in xs)]. *)
Section Loops.

Context {A : Type}.
Variable f : A -> result bool.

Fixpoint all_of (xs : list A) : result bool :=
  match xs with
  | [] => Ok true
  | x :: xs' => rbind (f x) (fun b => if b then all_of xs' else Ok false)
  end.

Fixpoint any_of (xs : list A) : result bool :=
  match xs with
  | [] => Ok false
  | x :: xs' => rbind (f x) (fun b => if b then Ok true else any_of xs')
  end.

End Loops.

Definition known_ops : list string :=
  ["$eq"; "$ne"; "$gt"; "$gte"; "$lt"; "$lte"; "$in"; "$nin"].

Definition op_in_known (op : string) : bool := existsb (String.eqb op) known_ops.

(** [doc_value is not None and doc_value OP v]. *)
Definition not_none_and (doc_value : value) (cmp : result bool) : result bool :=
  if is_none doc_value then Ok false else cmp.

(** One turn of the loop over an operator mapping (lines 49-75): [Ok false]
    is the [return False] of the body and [Ok true] the end of the turn.
    [self] is [_match], called on the mapping under [$len]. *)
Definition op_check (self : value -> value -> result bool)
    (doc_value : value) (op : string) (v : value) : result bool :=
  if String.eqb op "$eq" then Ok (py_eq doc_value v)
  else if String.eqb op "$ne" then Ok (py_ne doc_value v)
  else if String.eqb op "$gt" then not_none_and doc_value (py_gt doc_value v)
  else if String.eqb op "$gte" then not_none_and doc_value (py_ge doc_value v)
  else if String.eqb op "$lt" then not_none_and doc_value (py_lt doc_value v)
  else if String.eqb op "$lte" then not_none_and doc_value (py_le doc_value v)
  else if String.eqb op "$in" then py_in doc_value v
  else if String.eqb op "$nin" then rbind (py_in doc_value v) (fun b => Ok (negb b))
  else if String.eqb op "$len" then
    rbind (len doc_value) (fun _len =>
    match v with
    | VDict _ => self (VDict [("$len", VInt _len)]) v
    | _ => Ok (py_eq (VInt _len) v)
    end)
  else if op_in_known op then Ok true
  else Raise ValueError.

(** [_match(document, s)] for an [s] that is no dict, as the elements of a
    string or the keys of a dict are. *)
Definition _match_no_dict : result bool := Ok false.

(** One turn of the loop over the query is the check of one key (lines
    38-78), again with [Ok false] for [return False]. *)
Fixpoint _match (document : value) (query : value) {struct query} : result bool :=
  match query with
  | VDict items =>
      all_of (fun '(key, val) =>
        if String.eqb key "$and" then
          match val with
          | VList qs => all_of (fun q => _match document q) qs
          | _ => rbind (iter val) (all_of (fun _ => _match_no_dict))
          end
        else if String.eqb key "$or" then
          match val with
          | VList qs => any_of (fun q => _match document q) qs
          | _ => rbind (iter val) (any_of (fun _ => _match_no_dict))
          end
        else if String.eqb key "$not" then
          rbind (_match document val) (fun b => Ok (negb b))
        else
          match val with
          | VDict ops =>
              rbind (get_doc document key) (fun doc_value =>
              all_of (fun '(op, v) => op_check _match doc_value op v) ops)
          | _ =>
              rbind (get_doc document key) (fun doc_value =>
              Ok (negb (py_ne doc_value val)))
          end) items
  | _ => _match_no_dict
  end.

(** ** The path-level API (source lines 121-275) *)

(** A path argument: one dotted string, or a list of path arguments. *)
Inductive path : Type :=
| PStr (s : string)
| PList (ps : list path).

Definition but_last (keys : list string) : list string := removelast keys.
Definition last_of (keys : list string) : string := last keys "".

(** [list(item for item in result if is_dict_object(item) and
    _match(item, query))]. *)
Fixpoint filter_match (items : list value) (query : value) : result (list value) :=
  match items with
  | [] => Ok []
  | item :: rest =>
      rbind (if is_dict_object item then _match item query else Ok false) (fun b =>
      rbind (filter_match rest query) (fun l =>
      Ok (if b then item :: l else l)))
  end.

(** [get] (lines 121-137).  It returns the contents of the object found. *)
Fixpoint get (obj : ref) (p : path) (default : value)
    (index_prefix : option string) (query : value) {struct p} : M value :=
  match p with
  | PList ps =>
      res <- (fix each (ps : list path) : M (list value) :=
                match ps with
                | [] => ret []
                | p :: ps' =>
                    v <- get obj p default index_prefix query ;;
                    vs <- each ps' ;;
                    ret (v :: vs)
                end) ps ;;
      ret (VList res)
  | PStr s =>
      let keys := split "." s in
      r <- _traverse obj keys false index_prefix ;;
      result <- load r ;;
      result <- (if negb (is_none result) && negb (is_none query) then
                   match result with
                   | VList items =>
                       l <- lift (filter_match items query) ;;
                       ret (VList l)
                   | _ => ret result
                   end
                 else ret result) ;;
      ret (if is_none result then default else result)
  end.

(** One turn of the loop of [set] over [keys[:-1]] (lines 148-162). *)
Definition set_turn (current : ref) (key : string)
    (index_prefix : option string) : M ref :=
  '(is_index, k) <- lift (_parse_key key index_prefix) ;;
  if is_index then
    l <- test is_list_object current ;;
    current <- (if negb l then
                  d <- test isinstance_dict current ;;
                  when d (clear current) ;;
                  alloc (VList [])
                else ret current) ;;
    grow current k (VDict []) ;;
    get_value current k RNone
  else
    d <- test is_dict_object current ;;
    current <- (if negb d then
                  l <- test isinstance_list current ;;
                  when l (clear current) ;;
                  alloc (VDict [])
                else ret current) ;;
    h <- has_key current k ;;
    renew <- (if negb h then ret true
              else
                c <- get_value current k RNone ;;
                cd <- test is_dict_object c ;;
                if cd then ret false
                else
                  c <- get_value current k RNone ;;
                  cl <- test is_list_object c ;;
                  ret (negb cl)) ;;
    when renew (set_value current k (VDict [])) ;;
    get_value current k RNone.

Fixpoint set_loop (current : ref) (keys : list string)
    (index_prefix : option string) : M ref :=
  match keys with
  | [] => ret current
  | key :: keys' =>
      current <- set_turn current key index_prefix ;;
      set_loop current keys' index_prefix
  end.

(** [set] on one path (lines 145-176). *)
Definition set_one (obj : ref) (s : string) (val : value)
    (index_prefix : option string) : M unit :=
  let keys := split "." s in
  current <- set_loop obj (but_last keys) index_prefix ;;
  '(last_is_index, last_key) <- lift (_parse_key (last_of keys) index_prefix) ;;
  if last_is_index then
    l <- test is_list_object current ;;
    current <- (if negb l then
                  d <- test isinstance_dict current ;;
                  when d (clear current) ;;
                  alloc (VList [])
                else ret current) ;;
    grow current last_key VNone ;;
    set_value current last_key val
  else
    current <- (if negb is_dict_object_of_type_dict then
                  l <- test isinstance_list current ;;
                  when l (clear current) ;;
                  alloc (VDict [])
                else ret current) ;;
    set_value current last_key val.

(** [set] (lines 139-176).  For a list of paths the same value is written
    under each path; a value that is a container would then be one object
    stored at several places, which the store does not hold. *)
Definition is_container (v : value) : bool :=
  isinstance_list v || isinstance_dict v.

Fixpoint set (obj : ref) (p : path) (val : value)
    (index_prefix : option string) {struct p} : M unit :=
  match p with
  | PList ps =>
      if is_container val then raise OutOfModel
      else
        (fix each (ps : list path) : M unit :=
           match ps with
           | [] => ret tt
           | p :: ps' => set obj p val index_prefix ;; each ps'
           end) ps
  | PStr s => set_one obj s val index_prefix
  end.

(** [delete] on one path (lines 185-195).  A list and a dict both have a
    [pop], so the [hasattr(parent, 'pop')] tests of lines 191 and 194 hold
    where they are reached. *)
Definition delete_one (obj : ref) (s : string)
    (index_prefix : option string) : M unit :=
  let keys := split "." s in
  parent <- _traverse obj (but_last keys) false index_prefix ;;
  pv <- load parent ;;
  if is_none pv then ret tt
  else
    '(last_is_index, last_key) <- lift (_parse_key (last_of keys) index_prefix) ;;
    c <- (if last_is_index && is_list_object pv
          then lift (in_range last_key pv) else ret false) ;;
    if c then list_pop parent last_key
    else if negb last_is_index && is_dict_object pv then dict_pop parent last_key
    else ret tt.

Fixpoint delete (obj : ref) (p : path) (index_prefix : option string)
    {struct p} : M unit :=
  match p with
  | PList ps =>
      (fix each (ps : list path) : M unit :=
         match ps with
         | [] => ret tt
         | p :: ps' => delete obj p index_prefix ;; each ps'
         end) ps
  | PStr s => delete_one obj s index_prefix
  end.

Definition unset (obj : ref) (p : path) (index_prefix : option string) : M unit :=
  delete obj p index_prefix.

(** [push] on one path (lines 207-212).  A list has an [append], so the
    test of line 209 holds. *)
Definition push_one (obj : ref) (s : string) (val : value)
    (index_prefix : option string) : M unit :=
  target <- _traverse obj (split "." s) true index_prefix ;;
  l <- test is_list_object target ;;
  if l then append target val
  else set obj (PStr s) (VList [val]) index_prefix.

Fixpoint push (obj : ref) (p : path) (val : value)
    (index_prefix : option string) {struct p} : M unit :=
  match p with
  | PList ps =>
      if is_container val then raise OutOfModel
      else
        (fix each (ps : list path) : M unit :=
           match ps with
           | [] => ret tt
           | p :: ps' => push obj p val index_prefix ;; each ps'
           end) ps
  | PStr s => push_one obj s val index_prefix
  end.

(** The indices [idx] of the loop of lines 241-245, counted from [idx]. *)
Fixpoint q_indexes (idx : Z) (docs : list value) (query : value) : result (list Z) :=
  match docs with
  | [] => Ok []
  | doc :: rest =>
      rbind (if negb (is_dict_object doc) then Ok false else _match doc query) (fun b =>
      rbind (q_indexes (idx + 1) rest query) (fun l =>
      Ok (if b then idx :: l else l)))
  end.

(** [for idx in ...: target_list.pop(idx)] (lines 246-247). *)
Fixpoint pop_each (target_list : ref) (idxs : list Z) : M unit :=
  match idxs with
  | [] => ret tt
  | idx :: idxs' => list_pop target_list (KInt idx) ;; pop_each target_list idxs'
  end.

(** Lines 221-234 of [pull]: the parent, the last key and the list to pull
    from; [None] stands for the two [return]s, where the parent or the list
    is [None].  On a dict, [last_key in parent] is what [has_key] tests. *)
Definition pull_target (obj : ref) (s : string) (index_prefix : option string)
  : M (option (ref * key_t * ref)) :=
  let keys := split "." s in
  parent <- _traverse obj (but_last keys) false index_prefix ;;
  pv <- load parent ;;
  if is_none pv then ret None
  else
    '(last_is_index, last_key) <- lift (_parse_key (last_of keys) index_prefix) ;;
    c1 <- (if last_is_index && is_list_object pv then
             r <- lift (in_range last_key pv) ;;
             if r then
               t <- get_value parent last_key RNone ;;
               test is_list_object t
             else ret false
           else ret false) ;;
    target_list <-
      (if c1 then get_value parent last_key RNone
       else
         c2 <- (if negb last_is_index && is_dict_object pv then
                  i <- has_key parent last_key ;;
                  if i then
                    t <- get_value parent last_key RNone ;;
                    test is_list_object t
                  else ret false
                else ret false) ;;
         if c2 then get_value parent last_key RNone else ret RNone) ;;
    n <- test is_none target_list ;;
    if n then ret None else ret (Some (parent, last_key, target_list)).

(** Lines 236-249 of [pull]: the removal, from a [target_list] that is a
    list. *)
Definition pull_from (parent : ref) (last_key : key_t) (target_list : ref)
    (val : value) (index : value) : M unit :=
  tv <- load target_list ;;
  match tv with
  | VList items =>
      match (match as_int index with
             | Some z =>
                 if (0 <=? z) && (z <? Z.of_nat (List.length items))
                 then Some z else None
             | None => None
             end) with
      | Some z => list_pop target_list (KInt z)
      | None =>
          if negb (is_none val) then
            if is_dict_object val then
              idxs <- lift (q_indexes 0 items val) ;;
              pop_each target_list (rev idxs)
            else
              setitem parent last_key (VList (filter (fun v => py_ne v val) items))
          else ret tt
      end
  | _ => raise OutOfModel
  end.

Definition pull_one (obj : ref) (s : string) (val : value) (index : value)
    (index_prefix : option string) : M unit :=
  t <- pull_target obj s index_prefix ;;
  match t with
  | None => ret tt
  | Some (parent, last_key, target_list) =>
      pull_from parent last_key target_list val index
  end.

Fixpoint pull (obj : ref) (p : path) (val : value) (index : value)
    (index_prefix : option string) {struct p} : M unit :=
  match p with
  | PList ps =>
      (fix each (ps : list path) : M unit :=
         match ps with
         | [] => ret tt
         | p :: ps' => pull obj p val index index_prefix ;; each ps'
         end) ps
  | PStr s => pull_one obj s val index index_prefix
  end.

(** The loop of [has] (lines 262-275). *)
Fixpoint has_loop (current : ref) (keys : list string)
    (index_prefix : option string) : M bool :=
  match keys with
  | [] => ret true
  | key :: keys' =>
      '(is_index, k) <- lift (_parse_key key index_prefix) ;;
      if is_index then
        l <- test is_list_object current ;;
        if negb l then ret false
        else
          o <- try_except (r <- getitem current k ;; ret (Some r)) (ret None) ;;
          match o with
          | None => ret false
          | Some current => has_loop current keys' index_prefix
          end
      else
        d <- test is_dict_object current ;;
        h <- (if d then has_key current k else ret false) ;;
        if negb d || negb h then ret false
        else
          current <- get_value current k RNone ;;
          has_loop current keys' index_prefix
  end.

(** [has] returns a [bool], or the list of them for a list of paths. *)
Fixpoint has (obj : ref) (p : path) (index_prefix : option string)
    {struct p} : M value :=
  match p with
  | PList ps =>
      res <- (fix each (ps : list path) : M (list value) :=
                match ps with
                | [] => ret []
                | p :: ps' =>
                    v <- has obj p index_prefix ;;
                    vs <- each ps' ;;
                    ret (v :: vs)
                end) ps ;;
      ret (VList res)
  | PStr s =>
      b <- has_loop obj (split "." s) index_prefix ;;
      ret (VBool b)
  end.

(** ** The matcher of the collection queries (source lines 277-346)

    [re_search pattern text flags] stands for [re.search]: it says whether
    the pattern matches somewhere in the text, or raises. *)

Definition IGNORECASE : Z := 2.
Definition MULTILINE : Z := 8.

Section Collection.

Variable re_search : value -> string -> Z -> result bool.

(** The flags that [$options] selects (lines 287-291). *)
Definition regex_flags (condition : list (string * value)) : result Z :=
  match assoc "$options" condition with
  | None => Ok 0
  | Some options =>
      rbind (py_in (VStr "i") options) (fun i =>
      rbind (py_in (VStr "m") options) (fun m =>
      let flags := if i then Z.lor 0 IGNORECASE else 0 in
      Ok (if m then Z.lor flags MULTILINE else flags)))
  end.

(** One turn of the loop over a condition mapping (lines 285-317). *)
Definition cond_check (val : value) (condition : value)
    (cond : list (string * value)) (op : string) (op_val : value) : result bool :=
  if String.eqb op "$regex" then
    rbind (regex_flags cond) (fun flags =>
    match val with
    | VStr text => re_search op_val text flags
    | _ => Ok false
    end)
  else if String.eqb op "$lt" then py_lt val op_val
  else if String.eqb op "$lte" then py_le val op_val
  else if String.eqb op "$gt" then py_gt val op_val
  else if String.eqb op "$gte" then py_ge val op_val
  else if String.eqb op "$in" then py_in val op_val
  else if String.eqb op "$nin" then rbind (py_in val op_val) (fun b => Ok (negb b))
  else if String.eqb op "$options" then Ok true
  else Ok (py_eq val condition).

Definition match_condition (item : value) (key : string) (condition : value)
  : result bool :=
  rbind (get_doc item key) (fun val =>
  match condition with
  | VDict cond =>
      all_of (fun '(op, op_val) => cond_check val condition cond op op_val) cond
  | _ => Ok (py_eq val condition)
  end).

(** [match_item] on a query that is no dict: the tests ['$and' in query]
    and ['$or' in query] are membership or substring tests; where one holds,
    [query['$and']] is a [TypeError] on a list or a string, and where none
    does, [query.items()] is an [AttributeError]. *)
Definition match_item_no_dict (query : value) : result bool :=
  rbind (py_in (VStr "$and") query) (fun a =>
  if a then Raise TypeError
  else rbind (py_in (VStr "$or") query) (fun o =>
       if o then Raise TypeError else Raise AttributeError)).

(** [at_key name f items] below is [Some (f (query[name]))] when
    [name in query], for the dict [query] whose items are [items]. *)
Fixpoint match_item (item : value) (query : value) {struct query} : result bool :=
  match query with
  | VDict items =>
      let all_subs (subs : value) : result bool :=
        match subs with
        | VList qs => all_of (fun q => match_item item q) qs
        | _ => rbind (iter subs) (all_of match_item_no_dict)
        end in
      let any_subs (subs : value) : result bool :=
        match subs with
        | VList qs => any_of (fun q => match_item item q) qs
        | _ => rbind (iter subs) (any_of match_item_no_dict)
        end in
      let at_key (name : string) (f : value -> result bool) :=
        fix at_key (its : list (string * value)) : option (result bool) :=
          match its with
          | [] => None
          | (k, v) :: its' => if String.eqb name k then Some (f v) else at_key its'
          end in
      match at_key "$and" all_subs items with
      | Some r => r
      | None =>
          match at_key "$or" any_subs items with
          | Some r => r
          | None =>
              all_of (fun '(k, v) => match_condition item k v) items
          end
      end
  | _ => match_item_no_dict query
  end.

(** [find_first] returns the item found, or [None]. *)
Fixpoint find_first (items : list value) (query : value) : result (option value) :=
  match items with
  | [] => Ok None
  | item :: rest =>
      rbind (match_item item query) (fun b =>
      if b then Ok (Some item) else find_first rest query)
  end.

Fixpoint find_all (items : list value) (query : value) : result (list value) :=
  match items with
  | [] => Ok []
  | item :: rest =>
      rbind (match_item item query) (fun b =>
      rbind (find_all rest query) (fun l =>
      Ok (if b then item :: l else l)))
  end.

End Collection.

(** ** What the read-only walks compute

    The segments that [_parse_key] reads without raising under the default
    [index_prefix]: all but the segments that [isdigit] takes for digits
    and [int] refuses. *)
Definition parses (key : string) : bool :=
  match _parse_key key None with
  | Ok _ => true
  | Raise _ => false
  end.

(** The step a path segment stands for under the default [index_prefix]. *)
Definition step_of (key : string) : step :=
  match _parse_key key None with
  | Ok (true, KInt z) => SIdx (Z.to_nat z)
  | _ => SKey key
  end.

(** The steps that [_traverse] takes without [create_missing]: [None] when
    it returns [None], which it does at the first index segment, at a field
    of something that is no dict, at a missing field and at a field that
    holds [None]. *)
Fixpoint trav (cur : value) (keys : list string) : option (list step) :=
  match keys with
  | [] => Some []
  | key :: keys' =>
      if isdigit key then None
      else match cur with
           | VDict d =>
               match assoc key d with
               | Some c =>
                   if is_none c then None
                   else option_map (cons (SKey key)) (trav c keys')
               | None => None
               end
           | _ => None
           end
  end.

Definition ref_of (p : list step) (o : option (list step)) : ref :=
  match o with
  | Some q => RAt Root (p ++ q)
  | None => RNone
  end.

Definition is_some {A} (o : option A) : bool :=
  match o with Some _ => true | None => false end.

(** What [get(document, key)] finds, [None] when the walk gives up. *)
Definition value_at (cur : value) (keys : list string) : value :=
  match trav cur keys with
  | Some q => match lookup_path cur q with
              | Some v => v
              | None => VNone
              end
  | None => VNone
  end.

(** The names [_match] reads as operators, the keys it reads as
    combinators, and the names [match_condition] reads as operators. *)
Definition recognised (op : string) : bool :=
  op_in_known op || String.eqb op "$len".

Definition combinator (key : string) : bool :=
  String.eqb key "$and" || String.eqb key "$or" || String.eqb key "$not".

Definition collection_op (op : string) : bool :=
  existsb (String.eqb op)
    ["$regex"; "$lt"; "$lte"; "$gt"; "$gte"; "$in"; "$nin"; "$options"].

Definition is_field (key : string) : bool := negb (isdigit key).

Definition ordered_op (op : string) : bool :=
  existsb (String.eqb op) ["$gt"; "$gte"; "$lt"; "$lte"].

(** What [delete] leaves of [r] for the path whose segments are [keys],
    under the default [index_prefix]: the parent is the object the read-only
    traversal reaches along all segments but the last, and the last segment
    is removed from it when it is a field of a dict or a position of a
    list. *)
Definition deleted (r : value) (keys : list string) : value :=
  match trav r (but_last keys) with
  | Some q =>
      match lookup_path r q, _parse_key (last_of keys) None with
      | Some (VDict d), Ok (false, KStr k) =>
          update_path r q (VDict (del_assoc k d))
      | Some (VList xs), Ok (true, KInt z) =>
          if z <? Z.of_nat (List.length xs)
          then update_path r q (VList (del_nth (Z.to_nat z) xs))
          else r
      | _, _ => r
      end
  | None => r
  end.

(** A path of fields runs along dicts in [cur]: [cur] is a dict, and each
    field on the way holds a dict, or something that is no container (which
    [set] replaces by an empty dict), or is missing; none holds a list. *)
Fixpoint dicts_along (cur : value) (keys : list string) {struct keys} : bool :=
  match cur with
  | VDict d =>
      match keys with
      | [] => true
      | k :: keys' =>
          match assoc k d with
          | Some (VList _) => false
          | Some (VDict d') => dicts_along (VDict d') keys'
          | _ => true
          end
      end
  | _ => false
  end.

(** A path of fields runs along dicts in [cur] and does not end at a
    list: every field on the way but the last holds a dict, up to a field
    that is missing, if there is one. *)
Fixpoint pushable (cur : value) (keys : list string) {struct keys} : bool :=
  match keys with
  | [] => negb (isinstance_list cur)
  | k :: keys' =>
      match cur with
      | VDict d =>
          match assoc k d with
          | Some c => pushable c keys'
          | None => true
          end
      | _ => false
      end
  end.

(** The items a query selects in the loops of [get] and [pull]: the dicts
    on which [_match] returns [True]. *)
Definition selects (query item : value) : bool :=
  is_dict_object item &&
  match _match item query with
  | Ok true => true
  | _ => false
  end.

(** ** Variables and the objects they are bound to

    The tree a reference lives in, and what it is to say that the variable
    [r] is bound to a container of the store whose contents are [v]. *)
Definition tree (b : base) (st : store) : option value :=
  match b with
  | Root => Some (root st)
  | Local n => nth_error (locals st) n
  end.

Definition holds (r : ref) (v : value) (st : store) : Prop :=
  match r with
  | RNone => False
  | RAt b p => exists t, tree b st = Some t /\ lookup_path t p = Some v
  end.

(** A computation that leaves every store as it finds it, whether it
    returns or raises. *)
Definition read_only {A} (m : M A) : Prop := forall st, snd (m st) = st.

(** A path has an index segment, under the default [index_prefix]. *)
Definition has_index (keys : list string) : bool := existsb isdigit keys.

(** What [set] leaves of [cur] for the path of fields [keys] followed by
    the field [last], where the path runs along dicts: each field on the way
    keeps the dict it holds or becomes an empty dict, and the last field
    holds the value. *)
Fixpoint put (cur : value) (keys : list string) (last : string) (w : value)
  : value :=
  match cur with
  | VDict d =>
      match keys with
      | [] => VDict (set_assoc last w d)
      | k :: keys' =>
          let c := match assoc k d with
                   | Some (VDict d') => VDict d'
                   | _ => VDict []
                   end in
          VDict (set_assoc k (put c keys' last w) d)
      end
  | _ => cur
  end.

(** Two paths part ways: they differ at a segment that both have. *)
Fixpoint diverge (p q : list string) : bool :=
  match p, q with
  | a :: p', b :: q' => if String.eqb a b then diverge p' q' else true
  | _, _ => false
  end.

(** The queries both matchers read alike: no key is a combinator, and a
    condition is a literal or a mapping whose operators are [$in], [$nin]
    or, where the document holds a value that is not [None] at the field,
    the four order operators. *)
Definition shared_op (doc_value : value) (op : string) : bool :=
  String.eqb op "$in" || String.eqb op "$nin"
  || (ordered_op op && negb (is_none doc_value)).

Definition shared_query (document : value) (items : list (string * value)) : bool :=
  forallb (fun '(key, val) =>
             negb (combinator key) &&
             match val with
             | VDict ops =>
                 forallb (fun '(op, _) =>
                            shared_op (value_at document (split "." key)) op) ops
             | _ => true
             end) items.

(** The queries of [shared_query], and above them the queries that have
    the one key [$and] or the one key [$or], over a list of such queries. *)
Fixpoint shared (document : value) (q : value) {struct q} : bool :=
  match q with
  | VDict items =>
      match items with
      | [(k, VList qs)] =>
          if String.eqb k "$and" || String.eqb k "$or"
          then forallb (shared document) qs
          else shared_query document items
      | _ => shared_query document items
      end
  | _ => false
  end.

(** ** Running a call

    [run m r] performs [m] on the structure [r] and gives what the call
    returned or raised together with the structure as the call left it. *)
Definition run {A} (m : M A) (r : value) : result A * value :=
  let (a, st) := m (init r) in (a, root st).

(** A stand-in for [re.search] in closed examples: no pattern matches. *)
Definition re_never : value -> string -> Z -> result bool :=
  fun _ _ _ => Ok false.

(** * Properties *)
(** ** Facts about strings and [_parse_key] *)

Section StringFacts.

Lemma is_digit_not_space (c : ascii) :
  is_digit c = true -> is_space c = false.
Proof.
  unfold is_digit, is_space.
  generalize (nat_of_ascii c); intros n H.
  apply andb_true_iff in H as [H1 H2].
  apply Nat.leb_le in H1. apply Nat.leb_le in H2.
  repeat (apply orb_false_iff; split).
  - apply andb_false_iff; right. apply Nat.leb_gt. lia.
  - apply Nat.eqb_neq. lia.
  - apply Nat.eqb_neq. lia.
  - apply Nat.eqb_neq. lia.
Qed.

Lemma is_digit_char_not_space (c : ascii) :
  is_digit_char c = true -> is_space c = false.
Proof.
  unfold is_digit_char. intros H.
  repeat (apply orb_true_iff in H; destruct H as [H | H]).
  - now apply is_digit_not_space.
  - apply Nat.eqb_eq in H. unfold is_space. now rewrite H.
  - apply Nat.eqb_eq in H. unfold is_space. now rewrite H.
  - apply Nat.eqb_eq in H. unfold is_space. now rewrite H.
Qed.

Lemma is_digit_is_digit_char (c : ascii) :
  is_digit c = true -> is_digit_char c = true.
Proof. unfold is_digit_char. now intros ->. Qed.

Lemma all_chars_impl (p q : ascii -> bool) (s : string) :
  (forall c, p c = true -> q c = true) ->
  all_chars p s = true -> all_chars q s = true.
Proof.
  intros Hpq. induction s as [|c s IH]; simpl; [reflexivity|].
  intros H. apply andb_true_iff in H as [Hc Hs].
  now rewrite (Hpq c Hc), (IH Hs).
Qed.

Lemma lstrip_digits (s : string) :
  all_chars is_digit_char s = true -> lstrip s = s.
Proof.
  destruct s as [|c s]; simpl; [reflexivity|].
  intros H. apply andb_true_iff in H as [H _].
  now rewrite (is_digit_char_not_space c H).
Qed.

Lemma append_empty_r (s : string) : (s ++ "")%string = s.
Proof. induction s; simpl; congruence. Qed.

Lemma rev_string_twice (s a b : string) :
  rev_string a (rev_string b s) = rev_string (s ++ a)%string b.
Proof.
  revert a b; induction s as [|c s IH]; intros a b; simpl; [reflexivity|].
  now rewrite IH.
Qed.

Lemma all_chars_rev (p : ascii -> bool) (s acc : string) :
  all_chars p (rev_string acc s) = all_chars p acc && all_chars p s.
Proof.
  revert acc; induction s as [|c s IH]; intros acc; simpl.
  - now rewrite andb_true_r.
  - rewrite IH. simpl. destruct (p c), (all_chars p acc); reflexivity.
Qed.

Lemma strip_digits (s : string) :
  all_chars is_digit_char s = true -> strip s = s.
Proof.
  intros H. unfold strip.
  rewrite (lstrip_digits s H).
  rewrite lstrip_digits by (rewrite all_chars_rev; simpl; exact H).
  rewrite rev_string_twice. simpl. apply append_empty_r.
Qed.

Lemma parse_digits_total (s : string) :
  forall acc b,
    all_chars is_digit s = true -> 0 <= acc ->
    s <> EmptyString \/ b = true ->
    exists z, parse_digits acc b s = Some z /\ 0 <= z.
Proof.
  induction s as [|c s IH]; intros acc b Hd Hacc Hne; cbn [parse_digits].
  - destruct Hne as [Hne | ->]; [congruence|]. eauto.
  - simpl in Hd. apply andb_true_iff in Hd as [Hc Hs].
    rewrite Hc. apply IH; auto.
    unfold digit_val. unfold is_digit in Hc.
    apply andb_true_iff in Hc as [Hc _]. apply Nat.leb_le in Hc. lia.
Qed.

(** A superscript digit stops [int]. *)
Lemma parse_digits_superscript (s : string) :
  forall acc b,
    all_chars is_digit_char s = true -> all_chars is_digit s = false ->
    parse_digits acc b s = None.
Proof.
  induction s as [|c s IH]; intros acc b Hd Hn; [discriminate|].
  cbn [parse_digits all_chars] in *.
  apply andb_true_iff in Hd as [Hc Hs].
  destruct (is_digit c) eqn:E.
  - simpl in Hn. now apply IH.
  - replace (Ascii.eqb c "_") with false; [reflexivity|].
    symmetry. apply Ascii.eqb_neq. intros ->. discriminate.
Qed.

(** On a string that [isdigit] accepts, [int] reads no white space and no
    sign: it returns when the digits are decimal and within the limit. *)
Lemma int_isdigit (s : string) :
  isdigit s = true ->
  int s = match parse_digits 0 false s with
          | Some z => if count_digits s <=? max_str_digits then Ok z
                      else Raise ValueError
          | None => Raise ValueError
          end.
Proof.
  intros H. unfold int.
  assert (Hall : all_chars is_digit_char s = true) by (destruct s; [discriminate | exact H]).
  rewrite (strip_digits s Hall).
  destruct s as [|c t]; [discriminate|].
  assert (Hc : is_digit_char c = true) by (simpl in Hall; now apply andb_true_iff in Hall).
  destruct c as [[] [] [] [] [] [] [] []]; try discriminate Hc; reflexivity.
Qed.

Lemma int_value_error (s : string) (e : exc) : int s = Raise e -> e = ValueError.
Proof.
  unfold int.
  destruct (strip s) as [|c t];
    [|destruct c as [[] [] [] [] [] [] [] []]]; cbv beta iota zeta; intros H;
    (destruct (parse_digits 0 false _) in H;
     [destruct (count_digits _ <=? max_str_digits) in H|]; congruence).
Qed.

(** What [parses] says: a segment parses unless [isdigit] accepts it and it
    has a superscript digit or more digits than the limit. *)
Lemma parses_spec (key : string) :
  parses key
  = negb (isdigit key)
    || (all_chars is_digit key && (count_digits key <=? max_str_digits)).
Proof.
  unfold parses, _parse_key. destruct (isdigit key) eqn:Hd; [|reflexivity].
  rewrite (int_isdigit key Hd). cbn [negb orb].
  assert (Hall : all_chars is_digit_char key = true)
    by (destruct key; [discriminate | exact Hd]).
  destruct (all_chars is_digit key) eqn:Hdec.
  - destruct (parse_digits_total key 0 false Hdec) as (z & -> & _);
      [lia | left; destruct key; [discriminate | congruence] |].
    now destruct (count_digits key <=? max_str_digits).
  - now rewrite (parse_digits_superscript key 0 false Hall Hdec).
Qed.

(** Under the default [index_prefix], on a segment that parses: a key of
    digits is an index that is not negative, any other key is a field. *)
Lemma parse_key_default (key : string) :
  parses key = true ->
  (isdigit key = false /\ _parse_key key None = Ok (false, KStr key))
  \/ (exists z, isdigit key = true /\ 0 <= z /\ _parse_key key None = Ok (true, KInt z)).
Proof.
  intros Hp. rewrite parses_spec in Hp.
  unfold _parse_key. destruct (isdigit key) eqn:Hd; [|left; auto].
  right. cbn [negb orb] in Hp. apply andb_true_iff in Hp as [Hdec Hlim].
  rewrite (int_isdigit key Hd), Hlim.
  destruct (parse_digits_total key 0 false Hdec) as (z & -> & Hz);
    [lia | left; destruct key; [discriminate | congruence] |].
  simpl. eauto.
Qed.

(** On a segment that does not parse, [_parse_key] raises [ValueError]. *)
Lemma parse_key_raises (key : string) :
  parses key = false -> _parse_key key None = Raise ValueError.
Proof.
  unfold parses, _parse_key. destruct (isdigit key); [|discriminate].
  destruct (int key) as [z|e] eqn:E; [discriminate|].
  now rewrite (int_value_error key e E).
Qed.

End StringFacts.


(** ** Facts about the store and the read-only walks *)

Section StoreFacts.

(** Unfold the operations on objects, then the monad under them. *)
Ltac unfold_ops :=
  unfold test, when, get_value, has_key, set_value, getitem, setitem,
    list_pop, dict_pop, clear, append, grow;
  unfold bind, lift, ret, raise, try_except.

Lemma lookup_path_app (v : value) (p q : list step) :
  lookup_path v (p ++ q)
  = match lookup_path v p with
    | Some c => lookup_path c q
    | None => None
    end.
Proof.
  revert v; induction p as [|s p IH]; intros v; simpl; [reflexivity|].
  destruct (child v s); auto.
Qed.

Lemma load_root (p : list step) (st : store) (v : value) :
  lookup_path (root st) p = Some v -> load (RAt Root p) st = (Ok v, st).
Proof. intros H. unfold load. now rewrite H. Qed.

Lemma load_child (p : list step) (s : step) (st : store) (cur c : value) :
  lookup_path (root st) p = Some cur -> child cur s = Some c ->
  lookup_path (root st) (p ++ [s]) = Some c.
Proof.
  intros H1 H2. rewrite lookup_path_app, H1. simpl. now rewrite H2.
Qed.

(** One turn of the read-only traversal at a field. *)
Lemma traverse_turn_field (p : list step) (key : string) (st : store) (cur : value) :
  lookup_path (root st) p = Some cur ->
  _parse_key key None = Ok (false, KStr key) ->
  _traverse_turn (RAt Root p) key false None st
  = (Ok match cur with
        | VDict d => Some match assoc key d with
                          | Some _ => RAt Root (p ++ [SKey key])
                          | None => RNone
                          end
        | _ => None
        end, st).
Proof.
  intros Hcur Hk.
  unfold _traverse_turn. unfold_ops.
  rewrite Hk. rewrite (load_root p st cur Hcur).
  destruct cur; simpl; try reflexivity; repeat (rewrite Hcur; simpl); reflexivity.
Qed.

(** One turn of the read-only traversal at an index: [None], whatever the
    object is. *)
Lemma traverse_turn_index (p : list step) (key : string) (z : Z) (st : store) (cur : value) :
  lookup_path (root st) p = Some cur ->
  _parse_key key None = Ok (true, KInt z) ->
  _traverse_turn (RAt Root p) key false None st = (Ok None, st).
Proof.
  intros Hcur Hk.
  unfold _traverse_turn. unfold_ops.
  rewrite Hk. rewrite (load_root p st cur Hcur).
  destruct cur; simpl; try reflexivity; repeat (rewrite Hcur; simpl); reflexivity.
Qed.

(** A segment that does not parse stops every traversal with a
    [ValueError], before anything is read or written. *)
Lemma traverse_turn_unparsed (obj : ref) (key : string) (create_missing : bool)
    (st : store) :
  parses key = false ->
  _traverse_turn obj key create_missing None st = (Raise ValueError, st).
Proof.
  intros Hk. unfold _traverse_turn, bind, lift.
  now rewrite (parse_key_raises key Hk).
Qed.

(** The read-only traversal changes nothing; it returns what [trav] says,
    unless it comes to a segment that does not parse, where it raises. *)
Lemma traverse_read_only_any (keys : list string) :
  forall (p : list step) (st : store) (cur : value),
    lookup_path (root st) p = Some cur ->
    _traverse (RAt Root p) keys false None st = (Ok (ref_of p (trav cur keys)), st)
    \/ (_traverse (RAt Root p) keys false None st = (Raise ValueError, st)
        /\ trav cur keys = None /\ forallb parses keys = false).
Proof.
  induction keys as [|key keys IH]; intros p st cur Hcur.
  - left. simpl. unfold ret. now rewrite app_nil_r.
  - cbn [_traverse trav forallb]. unfold bind at 1 3.
    destruct (parses key) eqn:Hp.
    2: { right. rewrite (traverse_turn_unparsed _ key false st Hp).
         unfold parses, _parse_key in Hp.
         destruct (isdigit key); [auto | discriminate]. }
    destruct (parse_key_default key Hp) as [[Hd Hk] | (z & Hd & Hz & Hk)]; rewrite Hd.
    + rewrite (traverse_turn_field p key st cur Hcur Hk).
      destruct cur; try (left; reflexivity).
      destruct (assoc key kvs) as [c|] eqn:Hc; [|left; reflexivity].
      assert (Hc' : lookup_path (root st) (p ++ [SKey key]) = Some c)
        by (apply (load_child p (SKey key) st (VDict kvs) c Hcur); exact Hc).
      unfold_ops. rewrite (load_root _ st c Hc').
      destruct (is_none c); [left; reflexivity|].
      destruct (IH _ st c Hc') as [-> | (-> & -> & ->)].
      * left. destruct (trav c keys); simpl; [|reflexivity].
        now rewrite <- app_assoc.
      * right. auto.
    + left. rewrite (traverse_turn_index p key z st cur Hcur Hk). reflexivity.
Qed.

Lemma traverse_read_only (keys : list string) :
  forall (p : list step) (st : store) (cur : value),
    lookup_path (root st) p = Some cur ->
    forallb parses keys = true ->
    _traverse (RAt Root p) keys false None st = (Ok (ref_of p (trav cur keys)), st).
Proof.
  intros p st cur Hcur Hp.
  destruct (traverse_read_only_any keys p st cur Hcur) as [H | (_ & _ & H)];
    [exact H | congruence].
Qed.

Lemma parse_key_not_digits (key : string) :
  isdigit key = false -> _parse_key key None = Ok (false, KStr key).
Proof. intros H. unfold _parse_key. now rewrite H. Qed.

Lemma trav_steps (keys : list string) :
  forall (cur : value) (q : list step),
    trav cur keys = Some q ->
    q = map SKey keys /\ map step_of keys = map SKey keys
    /\ exists v, lookup_path cur q = Some v /\ (keys <> [] -> is_none v = false).
Proof.
  induction keys as [|key keys IH]; intros cur q H; simpl in H.
  - injection H as <-. repeat split. exists cur. split; [reflexivity | congruence].
  - destruct (isdigit key) eqn:Hd; [discriminate|].
    destruct cur; try discriminate.
    destruct (assoc key kvs) as [c|] eqn:Hc; [|discriminate].
    destruct (is_none c) eqn:Hn; [discriminate|].
    destruct (trav c keys) as [q'|] eqn:Hq; [|discriminate].
    injection H as <-.
    destruct (IH c q' Hq) as (-> & Hsteps & v & Hv & Hnone).
    assert (Hstep : step_of key = SKey key).
    { unfold step_of. now rewrite (parse_key_not_digits key Hd). }
    repeat split.
    + simpl. now rewrite Hstep, Hsteps.
    + exists v. simpl. rewrite Hc. split; [exact Hv|].
      intros _. destruct keys; [|apply Hnone; discriminate].
      simpl in Hv. injection Hv as <-. exact Hn.
Qed.

(** The read-only walk of [has]: every segment must resolve, an index in a
    list and a field in a dict. *)
Lemma has_loop_spec (keys : list string) :
  forall (p : list step) (st : store) (cur : value),
    lookup_path (root st) p = Some cur ->
    forallb parses keys = true ->
    has_loop (RAt Root p) keys None st
    = (Ok (is_some (lookup_path cur (map step_of keys))), st).
Proof.
  induction keys as [|key keys IH]; intros p st cur Hcur Hparse.
  - reflexivity.
  - cbn [forallb] in Hparse. apply andb_true_iff in Hparse as [Hp Hparse].
    cbn [has_loop map lookup_path]. unfold step_of, bind at 1, lift.
    destruct (parse_key_default key Hp) as [[Hd Hk] | (z & Hd & Hz & Hk)]; rewrite Hk.
    + unfold_ops.
      rewrite (load_root p st cur Hcur).
      destruct cur; simpl; try reflexivity.
      repeat (rewrite Hcur; simpl).
      destruct (assoc key kvs) as [c|] eqn:Hc; simpl; [|reflexivity].
      repeat (rewrite Hcur; simpl). rewrite ?Hc.
      apply IH; [|exact Hparse].
      apply (load_child p (SKey key) st (VDict kvs) c Hcur). exact Hc.
    + unfold_ops.
      rewrite (load_root p st cur Hcur).
      destruct cur; simpl; try reflexivity.
      repeat (rewrite Hcur; simpl). unfold position.
      destruct (nth_error xs (Z.to_nat z)) as [c|] eqn:Hc.
      * assert (Hlt : (Z.to_nat z < List.length xs)%nat)
          by (apply nth_error_Some; congruence).
        replace ((0 <=? z) && (z <? Z.of_nat (List.length xs))) with true
          by (symmetry; apply andb_true_iff; split; [apply Z.leb_le | apply Z.ltb_lt]; lia).
        apply IH; [|exact Hparse].
        apply (load_child p (SIdx (Z.to_nat z)) st (VList xs) c Hcur). exact Hc.
      * apply nth_error_None in Hc.
        replace ((0 <=? z) && (z <? Z.of_nat (List.length xs))) with false
          by (symmetry; apply andb_false_iff; right; apply Z.ltb_ge; lia).
        replace ((- Z.of_nat (List.length xs) <=? z) && (z <? 0)) with false
          by (symmetry; apply andb_false_iff; right; apply Z.ltb_ge; lia).
        reflexivity.
Qed.

End StoreFacts.
(** ** Paths of fields *)

Section FieldPaths.

Lemma split_not_nil (sep : ascii) (s : string) : split sep s <> [].
Proof.
  destruct s as [|c s]; simpl; [discriminate|].
  destruct (Ascii.eqb c sep); [discriminate|].
  destruct (split sep s); discriminate.
Qed.

Lemma keys_but_last (keys : list string) :
  keys <> [] -> keys = but_last keys ++ [last_of keys].
Proof. intros H. apply app_removelast_last. exact H. Qed.

Lemma map_last_key (keys : list string) :
  keys <> [] ->
  map SKey (but_last keys) ++ [SKey (last_of keys)] = map SKey keys.
Proof.
  intros H. rewrite (keys_but_last keys H) at 3. now rewrite map_app.
Qed.

Lemma parse_key_field (key : string) :
  is_field key = true -> _parse_key key None = Ok (false, KStr key).
Proof.
  unfold is_field. intros H. apply negb_true_iff in H.
  unfold _parse_key. now rewrite H.
Qed.

Lemma field_parses (key : string) : is_field key = true -> parses key = true.
Proof. intros H. unfold parses. now rewrite (parse_key_field key H). Qed.

Lemma fields_parse (keys : list string) :
  forallb is_field keys = true -> forallb parses keys = true.
Proof.
  induction keys as [|k keys IH]; simpl; [reflexivity|].
  intros H. apply andb_true_iff in H as [Hk H].
  now rewrite (field_parses k Hk), (IH H).
Qed.

Lemma forallb_but_last (f : string -> bool) (keys : list string) :
  forallb f keys = true ->
  forallb f (but_last keys) = true /\ (keys <> [] -> f (last_of keys) = true).
Proof.
  intros H. destruct keys as [|k keys]; [split; [reflexivity | congruence]|].
  assert (Hne : k :: keys <> []) by discriminate.
  rewrite (keys_but_last _ Hne), forallb_app in H.
  apply andb_true_iff in H as [Hp Hl]. simpl in Hl. rewrite andb_true_r in Hl.
  auto.
Qed.

(** Along fields that hold containers, the read-only traversal walks the
    whole path. *)
Lemma trav_fields (keys : list string) :
  forall (cur v : value),
    forallb is_field keys = true ->
    lookup_path cur (map SKey keys) = Some v ->
    is_none v = false ->
    trav cur keys = Some (map SKey keys).
Proof.
  induction keys as [|key keys IH]; intros cur v Hf Hv Hn; [reflexivity|].
  simpl in Hf. apply andb_true_iff in Hf as [Hk Hf].
  unfold is_field in Hk. apply negb_true_iff in Hk.
  cbn [trav map lookup_path child] in *. rewrite Hk.
  destruct cur; try discriminate.
  destruct (assoc key kvs) as [c|] eqn:Hc; [|discriminate].
  assert (Hcn : is_none c = false).
  { destruct keys as [|k keys]; simpl in Hv.
    - injection Hv as <-. exact Hn.
    - destruct c; try discriminate. reflexivity. }
  rewrite Hcn, (IH c v Hf Hv Hn). reflexivity.
Qed.

Lemma update_path_field (pp : list step) :
  forall (r : value) (d : list (string * value)) (k : string) (c new : value),
    lookup_path r pp = Some (VDict d) ->
    assoc k d = Some c ->
    update_path r pp (VDict (set_assoc k new d)) = update_path r (pp ++ [SKey k]) new.
Proof.
  induction pp as [|s pp IH]; intros r d k c new Hr Hk; simpl in *.
  - injection Hr as ->. now rewrite Hk.
  - destruct s, r; simpl in Hr; try discriminate.
    + destruct (assoc k0 kvs) as [c'|]; [|discriminate].
      now rewrite (IH c' d k c new Hr Hk).
    + destruct (nth_error xs i) as [c'|]; [|discriminate].
      now rewrite (IH c' d k c new Hr Hk).
Qed.

Lemma assoc_del_assoc (k : string) (d : list (string * value)) :
  assoc k (del_assoc k d) = None.
Proof.
  induction d as [|[k' x] d IH]; simpl; [reflexivity|].
  destruct (String.eqb k k') eqn:E; [exact IH|].
  simpl. now rewrite E.
Qed.

Lemma del_assoc_absent (k : string) (d : list (string * value)) :
  assoc k d = None -> del_assoc k d = d.
Proof.
  induction d as [|[k' x] d IH]; simpl; [reflexivity|].
  destruct (String.eqb k k'); [discriminate|].
  intros H. now rewrite (IH H).
Qed.

Lemma set_assoc_same (k : string) (c : value) (d : list (string * value)) :
  assoc k d = Some c -> set_assoc k c d = d.
Proof.
  induction d as [|[k' x] d IH]; simpl; [discriminate|].
  destruct (String.eqb k k').
  - now intros [= ->].
  - intros H. now rewrite (IH H).
Qed.

Lemma assoc_set_assoc (k : string) (v : value) (d : list (string * value)) :
  assoc k (set_assoc k v d) = Some v.
Proof.
  induction d as [|[k' x] d IH]; simpl.
  - now rewrite String.eqb_refl.
  - destruct (String.eqb k k') eqn:E; simpl; now rewrite E.
Qed.

Lemma set_nth_same {A} (i : nat) (c : A) (xs : list A) :
  nth_error xs i = Some c -> set_nth i c xs = xs.
Proof.
  revert i; induction xs as [|x xs IH]; intros [|i]; simpl; try discriminate.
  - now intros [= ->].
  - intros H. now rewrite (IH i H).
Qed.

Lemma nth_error_set_nth {A} (i : nat) (c v : A) (xs : list A) :
  nth_error xs i = Some c -> nth_error (set_nth i v xs) i = Some v.
Proof.
  revert i; induction xs as [|x xs IH]; intros [|i]; simpl; try discriminate; auto.
Qed.

Lemma update_path_same (q : list step) :
  forall (r v : value), lookup_path r q = Some v -> update_path r q v = r.
Proof.
  induction q as [|s q IH]; intros r v H; simpl in *.
  - now injection H as ->.
  - destruct s, r; simpl in H; try discriminate.
    + destruct (assoc k kvs) as [c|] eqn:Hc; [|discriminate].
      now rewrite (IH c v H), (set_assoc_same k c kvs Hc).
    + destruct (nth_error xs i) as [c|] eqn:Hc; [|discriminate].
      now rewrite (IH c v H), (set_nth_same i c xs Hc).
Qed.

Lemma lookup_update_path (q : list step) :
  forall (r old new : value),
    lookup_path r q = Some old -> lookup_path (update_path r q new) q = Some new.
Proof.
  induction q as [|s q IH]; intros r old new H; simpl in *; [reflexivity|].
  destruct s, r; simpl in H; try discriminate.
  - destruct (assoc k kvs) as [c|] eqn:Hc; [|discriminate].
    simpl. rewrite assoc_set_assoc. eauto.
  - destruct (nth_error xs i) as [c|] eqn:Hc; [|discriminate].
    simpl. rewrite (nth_error_set_nth i c _ xs Hc). eauto.
Qed.

Lemma steps_of_fields (keys : list string) :
  forallb is_field keys = true -> map step_of keys = map SKey keys.
Proof.
  induction keys as [|k keys IH]; simpl; [reflexivity|].
  intros H. apply andb_true_iff in H as [Hk H].
  unfold step_of at 1. now rewrite (parse_key_field k Hk), (IH H).
Qed.

End FieldPaths.

(** ** Reading: [get], [get_doc] and [has] *)

Section Reading.

(** [get(document, key)] returns what [value_at] says, unless it comes to
    a segment that does not parse. *)
Lemma get_doc_any (document : value) (key : string) :
  get_doc document key = Ok (value_at document (split "." key))
  \/ (get_doc document key = Raise ValueError
      /\ forallb parses (split "." key) = false).
Proof.
  unfold get_doc, value_at, bind, here.
  destruct (traverse_read_only_any (split "." key) [] (init document) document eq_refl)
    as [-> | (-> & _ & Hp)]; [left | right; auto].
  destruct (trav document (split "." key)) as [q|] eqn:Hq; simpl; [|reflexivity].
  destruct (trav_steps _ _ _ Hq) as (_ & _ & v & Hv & _).
  unfold load. simpl. now rewrite Hv.
Qed.

Lemma get_doc_spec (document : value) (key : string) :
  forallb parses (split "." key) = true ->
  get_doc document key = Ok (value_at document (split "." key)).
Proof.
  intros Hp. destruct (get_doc_any document key) as [H | [_ H]]; [exact H | congruence].
Qed.

Lemma get_doc_ok (document : value) (key : string) (v : value) :
  get_doc document key = Ok v -> v = value_at document (split "." key).
Proof.
  intros H. destruct (get_doc_any document key) as [H' | [H' _]]; congruence.
Qed.

(** [get_doc] is [get] with the defaults. *)
Lemma get_doc_is_get (document : value) (key : string) :
  run (get here (PStr key) VNone None VNone) document
  = (get_doc document key, document).
Proof.
  unfold get_doc, run. cbn [get]. unfold bind, here.
  destruct (traverse_read_only_any (split "." key) [] (init document) document eq_refl)
    as [-> | (-> & _ & _)]; [|reflexivity].
  destruct (trav document (split "." key)) as [q|] eqn:Hq; simpl; [|reflexivity].
  destruct (trav_steps _ _ _ Hq) as (_ & _ & v & Hv & _).
  unfold load. simpl. rewrite Hv. simpl. unfold ret.
  destruct v; reflexivity.
Qed.

(** [get] without a query, from any store: on a path whose segments parse
    it does not raise and changes nothing. *)
Lemma get_in (st : store) (s : string) (default : value) :
  forallb parses (split "." s) = true ->
  get here (PStr s) default None VNone st
  = (Ok (if is_none (value_at (root st) (split "." s)) then default
         else value_at (root st) (split "." s)), st).
Proof.
  intros Hp. unfold value_at. cbn [get]. unfold bind, here.
  rewrite (traverse_read_only _ [] st (root st) eq_refl Hp).
  destruct (trav (root st) (split "." s)) as [q|] eqn:Hq; simpl; [|reflexivity].
  destruct (trav_steps _ _ _ Hq) as (_ & _ & v & Hv & _).
  rewrite Hv. simpl. unfold ret. now rewrite andb_false_r.
Qed.

Lemma get_spec (r : value) (s : string) (default : value) :
  forallb parses (split "." s) = true ->
  run (get here (PStr s) default None VNone) r
  = (Ok (if is_none (value_at r (split "." s)) then default
         else value_at r (split "." s)), r).
Proof. intros Hp. unfold run. now rewrite (get_in (init r) s default Hp). Qed.

(** Where [get] returns something that is not [None], the traversal has
    walked the whole path, along fields. *)
Lemma get_found (r r' : value) (s : string) (v : value) :
  run (get here (PStr s) VNone None VNone) r = (Ok v, r') ->
  is_none v = false ->
  trav r (split "." s) = Some (map SKey (split "." s))
  /\ lookup_path r (map SKey (split "." s)) = Some v.
Proof.
  intros Hget Hn. rewrite get_doc_is_get in Hget.
  injection Hget as Hdoc _.
  apply get_doc_ok in Hdoc. unfold value_at in Hdoc.
  destruct (trav r (split "." s)) as [q|] eqn:Hq; [|subst v; discriminate].
  destruct (trav_steps _ _ _ Hq) as (-> & _ & x & Hx & _).
  rewrite Hx in Hdoc. subst x. auto.
Qed.

Lemma value_at_fields (r : value) (keys : list string) (v : value) :
  forallb is_field keys = true ->
  lookup_path r (map SKey keys) = Some v ->
  value_at r keys = v.
Proof.
  intros Hf Hv. unfold value_at.
  destruct (is_none v) eqn:Hn.
  - destruct v; try discriminate.
    destruct (trav r keys) as [q|] eqn:Hq; [|reflexivity].
    destruct (trav_steps _ _ _ Hq) as (-> & _). now rewrite Hv.
  - now rewrite (trav_fields keys r v Hf Hv Hn), Hv.
Qed.

(** [has], from any store: on a path whose segments parse it says whether
    every segment resolves. *)
Lemma has_in (st : store) (s : string) :
  forallb parses (split "." s) = true ->
  has here (PStr s) None st
  = (Ok (VBool (is_some (lookup_path (root st) (map step_of (split "." s))))), st).
Proof.
  intros Hp. cbn [has]. unfold bind, here.
  rewrite (has_loop_spec _ [] st (root st) eq_refl Hp). reflexivity.
Qed.

Lemma has_spec (r : value) (s : string) :
  forallb parses (split "." s) = true ->
  run (has here (PStr s) None) r
  = (Ok (VBool (is_some (lookup_path r (map step_of (split "." s))))), r).
Proof. intros Hp. unfold run. now rewrite (has_in (init r) s Hp). Qed.

(** C10.  On a path whose segments parse under the default [index_prefix]:
    when the path resolves to a place that holds [None] (a key that is
    present with the value [None], or a list element that is [None]), [get]
    returns the default, with or without a query, and [has] returns [True];
    when the path is absent (a segment does not resolve), [get] returns the
    default as well, and [has] returns [False].  Both leave the root as it
    is. *)
Theorem C10_stored_none_is_absent_for_get_not_for_has :
  forall (r : value) (s : string) (default query : value),
    forallb parses (split "." s) = true ->
    (lookup_path r (map step_of (split "." s)) = Some VNone ->
     run (get here (PStr s) default None query) r = (Ok default, r)
     /\ run (has here (PStr s) None) r = (Ok (VBool true), r))
    /\ (lookup_path r (map step_of (split "." s)) = None ->
        run (get here (PStr s) default None query) r = (Ok default, r)
        /\ run (has here (PStr s) None) r = (Ok (VBool false), r)).
Proof.
  intros r s default query Hp.
  assert (Hget : forall x, lookup_path r (map step_of (split "." s)) = x ->
                           (x = Some VNone \/ x = None) ->
                           run (get here (PStr s) default None query) r = (Ok default, r)).
  { intros x H Hx. unfold run. cbn [get]. unfold bind, here.
    rewrite (traverse_read_only _ [] (init r) r eq_refl Hp).
    assert (Hload : load (ref_of [] (trav r (split "." s))) (init r)
                    = (Ok VNone, init r)).
    { destruct (trav r (split "." s)) as [q|] eqn:Hq; [|reflexivity].
      destruct (trav_steps _ _ _ Hq) as (-> & Hsteps & v & Hv & _).
      rewrite Hsteps in H. unfold load. simpl. rewrite Hv.
      destruct Hx as [-> | ->]; congruence. }
    rewrite Hload. reflexivity. }
  split; intros H; (split; [apply (Hget _ H); auto|]);
    rewrite (has_spec r s Hp), H; reflexivity.
Qed.

Lemma C10_witness :
  let r := VDict [("a", VDict [("b", VNone)]); ("l", VList [VInt 1; VNone])] in
  (run (get here (PStr "a.b") (VInt 7) None VNone) r = (Ok (VInt 7), r)
   /\ run (has here (PStr "a.b") None) r = (Ok (VBool true), r))
  /\ (run (get here (PStr "l.1") (VInt 7) None VNone) r = (Ok (VInt 7), r)
      /\ run (has here (PStr "l.1") None) r = (Ok (VBool true), r))
  /\ (run (get here (PStr "a.c") (VInt 7) None VNone) r = (Ok (VInt 7), r)
      /\ run (has here (PStr "a.c") None) r = (Ok (VBool false), r)).
Proof.
  split; [|split].
  - apply (C10_stored_none_is_absent_for_get_not_for_has _ "a.b"); reflexivity.
  - apply (C10_stored_none_is_absent_for_get_not_for_has _ "l.1"); reflexivity.
  - apply (C10_stored_none_is_absent_for_get_not_for_has _ "a.c"); reflexivity.
Defined.

(** [filter_match], when it returns, returns the dicts among the items
    that match, in their order. *)
Lemma filter_match_is_filter (items : list value) (query : value) :
  forall found,
    filter_match items query = Ok found ->
    found = filter (selects query) items.
Proof.
  unfold selects.
  induction items as [|item items IH]; intros found H; simpl in *.
  - now injection H as <-.
  - destruct (is_dict_object item); simpl in *.
    + destruct (_match item query) as [b|]; simpl in *; [|discriminate].
      destruct (filter_match items query) as [l|]; simpl in *; [|discriminate].
      injection H as <-. destruct b; simpl; now rewrite <- (IH l eq_refl).
    + destruct (filter_match items query) as [l|]; simpl in *; [|discriminate].
      injection H as <-. now apply IH.
Qed.

End Reading.

(** X5.  On a path whose segments parse under the default [index_prefix]
    (no segment of digits has a superscript digit or more digits than
    [int] reads), [has] does not raise and changes nothing; it returns
    [True] exactly when every segment of the path resolves, a field to a
    key of a dict and an index to a position of a list. *)
Theorem has_resolves :
  forall (r : value) (s : string),
    forallb parses (split "." s) = true ->
    run (has here (PStr s) None) r
    = (Ok (VBool (is_some (lookup_path r (map step_of (split "." s))))), r).
Proof. exact has_spec. Qed.

Lemma has_resolves_witness :
  let r := VDict [("a", VList [VInt 1; VDict [("b", VNone)]])] in
  run (has here (PStr "a.1.b") None) r = (Ok (VBool true), r)
  /\ run (has here (PStr "a.2") None) r = (Ok (VBool false), r).
Proof.
  split.
  - apply (has_resolves (VDict [("a", VList [VInt 1; VDict [("b", VNone)]])]) "a.1.b").
    reflexivity.
  - apply (has_resolves (VDict [("a", VList [VInt 1; VDict [("b", VNone)]])]) "a.2").
    reflexivity.
Defined.

(** X6.  On a path whose segments parse under the default [index_prefix],
    [get] without a query does not raise and changes nothing; it returns
    what the read-only traversal finds, and the default when that is
    [None]. *)
Theorem get_never_raises :
  forall (r : value) (s : string) (default : value),
    forallb parses (split "." s) = true ->
    run (get here (PStr s) default None VNone) r
    = (Ok (if is_none (value_at r (split "." s)) then default
           else value_at r (split "." s)), r).
Proof. exact get_spec. Qed.

Lemma get_never_raises_witness :
  let r := VDict [("a", VDict [("b", VInt 3)])] in
  run (get here (PStr "a.b") (VInt 0) None VNone) r = (Ok (VInt 3), r)
  /\ run (get here (PStr "a.x.7") (VInt 0) None VNone) r = (Ok (VInt 0), r).
Proof.
  split.
  - apply (get_never_raises (VDict [("a", VDict [("b", VInt 3)])]) "a.b"). reflexivity.
  - apply (get_never_raises (VDict [("a", VDict [("b", VInt 3)])]) "a.x.7"). reflexivity.
Defined.

(** X7.  [get] with a query, on a path of fields that resolves to a list:
    when the matcher raises on no item, the result is the list of the items
    that are dicts and match the query, in their order, and the root is as
    it was. *)
Theorem get_with_query_filters :
  forall (r : value) (s : string) (items found : list value) (default query : value),
    forallb is_field (split "." s) = true ->
    lookup_path r (map SKey (split "." s)) = Some (VList items) ->
    is_none query = false ->
    filter_match items query = Ok found ->
    run (get here (PStr s) default None query) r = (Ok (VList found), r)
    /\ found = filter (selects query) items.
Proof.
  intros r s items found default query Hf Hl Hq Hfound.
  split; [|now apply filter_match_is_filter].
  unfold run. cbn [get]. unfold bind, here.
  rewrite (traverse_read_only _ [] (init r) r eq_refl (fields_parse _ Hf)).
  rewrite (trav_fields _ r (VList items) Hf Hl eq_refl).
  cbn [ref_of app]. unfold load. cbn [root init]. rewrite Hl.
  cbn [is_none negb andb]. rewrite Hq. cbn [negb]. unfold lift.
  now rewrite Hfound.
Qed.

Lemma get_with_query_filters_witness :
  let r := VDict [("items", VList [VDict [("k", VInt 1)]; VInt 5; VDict [("k", VInt 2)]])] in
  let query := VDict [("k", VDict [("$gt", VInt 1)])] in
  run (get here (PStr "items") VNone None query) r = (Ok (VList [VDict [("k", VInt 2)]]), r)
  /\ [VDict [("k", VInt 2)]]
     = filter (selects query) [VDict [("k", VInt 1)]; VInt 5; VDict [("k", VInt 2)]].
Proof.
  apply (get_with_query_filters _ "items"
           [VDict [("k", VInt 1)]; VInt 5; VDict [("k", VInt 2)]]); reflexivity.
Defined.


(** ** [set] and [get] on paths of fields *)

Section SetGet.

Lemma dicts_along_empty (keys : list string) : dicts_along (VDict []) keys = true.
Proof. destruct keys; reflexivity. Qed.

(** One turn of the loop of [set] at a field of a dict [d]: the field is
    made an empty dict unless it holds a container, and the variable moves
    to it. *)
Lemma set_turn_field (p : list step) (k : string) (st : store) (d : list (string * value)) :
  lookup_path (root st) p = Some (VDict d) ->
  is_field k = true ->
  let keep := match assoc k d with
              | Some (VDict _) | Some (VList _) => true
              | _ => false
              end in
  set_turn (RAt Root p) k None st
  = (Ok (RAt Root (p ++ [SKey k])),
     if keep then st
     else mkStore (update_path (root st) p (VDict (set_assoc k (VDict []) d)))
                  (locals st)).
Proof.
  intros Hp Hk keep. subst keep.
  unfold set_turn. unfold bind at 1, lift. rewrite (parse_key_field k Hk).
  unfold test, has_key, get_value, set_value, setitem, save, when, bind, ret.
  assert (Hc : forall c, assoc k d = Some c ->
                         lookup_path (root st) (p ++ [SKey k]) = Some c).
  { intros c Hc. rewrite lookup_path_app, Hp. simpl. now rewrite Hc. }
  destruct (assoc k d) as [c|] eqn:Hkd.
  - specialize (Hc c eq_refl).
    repeat (progress (simpl; rewrite ?Hp, ?Hkd, ?Hc)).
    destruct c; repeat (progress (simpl; rewrite ?Hp, ?Hkd, ?Hc));
      try rewrite (lookup_update_path p _ _ _ Hp); simpl;
      rewrite ?assoc_set_assoc; reflexivity.
  - repeat (progress (simpl; rewrite ?Hp, ?Hkd)).
    rewrite (lookup_update_path p _ _ _ Hp). simpl.
    now rewrite assoc_set_assoc.
Qed.

Lemma set_loop_fields (keys : list string) :
  forall (p : list step) (st : store) (d : list (string * value)),
    lookup_path (root st) p = Some (VDict d) ->
    forallb is_field keys = true ->
    dicts_along (VDict d) keys = true ->
    exists st' d',
      set_loop (RAt Root p) keys None st = (Ok (RAt Root (p ++ map SKey keys)), st')
      /\ lookup_path (root st') (p ++ map SKey keys) = Some (VDict d').
Proof.
  induction keys as [|k keys IH]; intros p st d Hp Hf Hd.
  - exists st, d. simpl. rewrite app_nil_r. auto.
  - simpl in Hf. apply andb_true_iff in Hf as [Hk Hf].
    cbn [set_loop map]. unfold bind.
    rewrite (set_turn_field p k st d Hp Hk).
    replace (p ++ SKey k :: map SKey keys) with ((p ++ [SKey k]) ++ map SKey keys)
      by now rewrite <- app_assoc.
    cbn [dicts_along] in Hd.
    destruct (assoc k d) as [c|] eqn:Hkd.
    + destruct c; try discriminate;
        try (apply (IH _ _ []); [|exact Hf | apply dicts_along_empty];
             cbn [root]; rewrite lookup_path_app, (lookup_update_path p _ _ _ Hp);
             simpl; now rewrite assoc_set_assoc).
      apply (IH _ _ kvs); [|exact Hf | exact Hd].
      rewrite lookup_path_app, Hp. simpl. now rewrite Hkd.
    + apply (IH _ _ []); [|exact Hf | apply dicts_along_empty].
      cbn [root]. rewrite lookup_path_app, (lookup_update_path p _ _ _ Hp).
      simpl. now rewrite assoc_set_assoc.
Qed.

(** On a path of fields that runs along dicts, [set] does not raise, and the
    path then resolves to the value. *)
Lemma set_fields_in (st : store) (s : string) (v : value) :
  forallb is_field (split "." s) = true ->
  dicts_along (root st) (but_last (split "." s)) = true ->
  exists st',
    set here (PStr s) v None st = (Ok tt, st')
    /\ lookup_path (root st') (map SKey (split "." s)) = Some v.
Proof.
  intros Hf Hd. cbn [set]. unfold set_one.
  set (keys := split "." s) in *.
  assert (Hkeys : keys = but_last keys ++ [last_of keys])
    by (apply keys_but_last, split_not_nil).
  set (pk := but_last keys) in *. set (lk := last_of keys) in *.
  rewrite Hkeys in Hf |- *.
  rewrite forallb_app in Hf. apply andb_true_iff in Hf as [Hfp Hfl].
  simpl in Hfl. rewrite andb_true_r in Hfl.
  destruct (root st) as [| | | | |d] eqn:Hr; try (destruct pk; discriminate).
  assert (Hr' : lookup_path (root st) [] = Some (VDict d)) by (simpl; now rewrite Hr).
  destruct (set_loop_fields pk [] st d Hr' Hfp Hd) as (st' & d' & Hloop & Hcur).
  unfold bind at 1, here. rewrite Hloop. cbn [app] in *.
  unfold bind at 1, lift. rewrite (parse_key_field lk Hfl).
  unfold is_dict_object_of_type_dict. cbn [negb].
  unfold set_value, setitem, save, bind, ret.
  repeat (progress (simpl; rewrite ?Hcur)).
  eexists; split; [reflexivity|].
  cbn [root]. rewrite map_app, lookup_path_app, (lookup_update_path _ _ _ _ Hcur).
  simpl. now rewrite assoc_set_assoc.
Qed.

Lemma set_fields (r : value) (s : string) (v : value) :
  forallb is_field (split "." s) = true ->
  dicts_along r (but_last (split "." s)) = true ->
  exists r',
    run (set here (PStr s) v None) r = (Ok tt, r')
    /\ lookup_path r' (map SKey (split "." s)) = Some v.
Proof.
  intros Hf Hd.
  destruct (set_fields_in (init r) s v Hf Hd) as (st' & Hset & Hv).
  exists (root st'). unfold run. now rewrite Hset.
Qed.

End SetGet.

(** X1.  Round trip on fields.  For a root that is a dict and a path of
    fields that meets no list on its way, [set] does not raise and [get]
    then returns the value that was set. *)
Theorem set_then_get_on_fields :
  forall (r : value) (s : string) (v : value),
    forallb is_field (split "." s) = true ->
    dicts_along r (but_last (split "." s)) = true ->
    exists r',
      run (set here (PStr s) v None) r = (Ok tt, r')
      /\ run (get here (PStr s) VNone None VNone) r' = (Ok v, r').
Proof.
  intros r s v Hf Hd.
  destruct (set_fields r s v Hf Hd) as (r' & Hset & Hv).
  exists r'. split; [exact Hset|].
  rewrite (get_spec _ _ _ (fields_parse _ Hf)), (value_at_fields r' _ v Hf Hv).
  now destruct v.
Qed.

Lemma set_then_get_on_fields_witness :
  exists r',
    run (set here (PStr "a.b.c") (VInt 5) None) (VDict [("a", VInt 1)]) = (Ok tt, r')
    /\ run (get here (PStr "a.b.c") VNone None VNone) r' = (Ok (VInt 5), r').
Proof.
  apply (set_then_get_on_fields (VDict [("a", VInt 1)]) "a.b.c" (VInt 5)); reflexivity.
Defined.

(** C1.  On the empty mapping, [set(root, "a.b.0.c", 5)] does not produce
    [{"a": {"b": [{"c": 5}]}}]: it raises a [TypeError] when it reads the
    element of the list it has just made ([get_value] on a list asks
    [hasattr] for an integer name), and leaves [{"a": {"b": {}}}] behind; the
    list was bound to the local variable only and never entered the tree. *)
Theorem C1_set_through_index_raises :
  run (set here (PStr "a.b.0.c") (VInt 5) None) (VDict [])
  = (Raise TypeError, VDict [("a", VDict [("b", VDict [])])]).
Proof. vm_compute. reflexivity. Qed.

(** C2.  The round trip fails on a path with an index segment: on
    [{"a": [1, 2, 3]}], [set(root, "a.1", 9)] raises a [TypeError] and
    changes nothing, and [get(root, "a.1")] is [None] before and after. *)
Theorem C2_roundtrip_fails_on_index :
  let r := VDict [("a", VList [VInt 1; VInt 2; VInt 3])] in
  run (set here (PStr "a.1") (VInt 9) None) r = (Raise TypeError, r)
  /\ run (get here (PStr "a.1") VNone None VNone) r = (Ok VNone, r).
Proof. vm_compute. split; reflexivity. Qed.


(** ** [push] on paths of fields *)

Section Push.

Lemma pushable_empty (keys : list string) : pushable (VDict []) keys = true.
Proof. destruct keys; reflexivity. Qed.

(** One turn of the creating traversal at a field of a dict [d]: a missing
    field is made an empty dict, and the variable moves to the field. *)
Lemma traverse_create_turn (p : list step) (k : string) (st : store)
    (d : list (string * value)) :
  lookup_path (root st) p = Some (VDict d) ->
  is_field k = true ->
  _traverse_turn (RAt Root p) k true None st
  = (Ok (Some (RAt Root (p ++ [SKey k]))),
     match assoc k d with
     | Some _ => st
     | None => mkStore (update_path (root st) p (VDict (set_assoc k (VDict []) d)))
                       (locals st)
     end).
Proof.
  intros Hp Hk.
  unfold _traverse_turn. unfold bind at 1, lift. rewrite (parse_key_field k Hk).
  unfold test, has_key, get_value, set_value, setitem, save, when, bind, ret.
  destruct (assoc k d) as [c|] eqn:Hkd.
  - repeat (progress (simpl; rewrite ?Hp, ?Hkd)). reflexivity.
  - repeat (progress (simpl; rewrite ?Hp, ?Hkd)).
    rewrite (lookup_update_path p _ _ _ Hp). simpl.
    now rewrite assoc_set_assoc.
Qed.

(** Where the path is present, the creating traversal creates nothing. *)
Lemma traverse_create_present (keys : list string) :
  forall (p : list step) (st : store) (tv : value),
    forallb is_field keys = true ->
    lookup_path (root st) (p ++ map SKey keys) = Some tv ->
    is_none tv = false ->
    _traverse (RAt Root p) keys true None st = (Ok (RAt Root (p ++ map SKey keys)), st).
Proof.
  induction keys as [|k keys IH]; intros p st tv Hf Htv Hn.
  - simpl. now rewrite app_nil_r.
  - simpl in Hf. apply andb_true_iff in Hf as [Hk Hf].
    cbn [map] in *.
    replace (p ++ SKey k :: map SKey keys) with ((p ++ [SKey k]) ++ map SKey keys) in *
      by now rewrite <- app_assoc.
    assert (Hpre := Htv). rewrite lookup_path_app in Hpre.
    destruct (lookup_path (root st) (p ++ [SKey k])) as [c|] eqn:Hc; [|discriminate].
    assert (Hcn : is_none c = false).
    { destruct keys as [|k' keys]; simpl in Hpre.
      - injection Hpre as <-. exact Hn.
      - destruct c; try discriminate. reflexivity. }
    assert (Hp := Hc). rewrite lookup_path_app in Hp.
    destruct (lookup_path (root st) p) as [cur|] eqn:Hcur; [|discriminate].
    simpl in Hp. destruct cur as [| | | | |d]; try discriminate.
    destruct (assoc k d) as [c'|] eqn:Hkd; [|discriminate].
    cbn [_traverse]. unfold bind at 1.
    rewrite (traverse_create_turn p k st d Hcur Hk), Hkd.
    unfold test; unfold bind, ret; cbn beta iota zeta. rewrite (load_root _ _ _ Hc), Hcn.
    apply (IH _ st tv Hf Htv Hn).
Qed.

(** Where the path runs along dicts and does not end at a list, the
    creating traversal stays in the tree, makes the missing fields and stops
    at something that is no list; the fields before the last then hold
    dicts. *)
Lemma traverse_create_pushable (keys : list string) :
  forall (p : list step) (st : store) (d : list (string * value)),
    keys <> [] ->
    lookup_path (root st) p = Some (VDict d) ->
    forallb is_field keys = true ->
    pushable (VDict d) keys = true ->
    exists st' t tv d',
      _traverse (RAt Root p) keys true None st = (Ok t, st')
      /\ load t st' = (Ok tv, st')
      /\ isinstance_list tv = false
      /\ lookup_path (root st') p = Some (VDict d')
      /\ dicts_along (VDict d') (but_last keys) = true.
Proof.
  induction keys as [|k keys IH]; intros p st d Hne Hp Hf Hpush; [congruence|].
  simpl in Hf. apply andb_true_iff in Hf as [Hk Hf].
  set (st1 := match assoc k d with
              | Some _ => st
              | None => mkStore (update_path (root st) p (VDict (set_assoc k (VDict []) d)))
                                (locals st)
              end).
  set (c1 := match assoc k d with Some c => c | None => VDict [] end).
  set (d1 := match assoc k d with Some _ => d | None => set_assoc k (VDict []) d end).
  assert (Hp1 : lookup_path (root st1) p = Some (VDict d1)).
  { subst st1 d1. destruct (assoc k d); [exact Hp|].
    cbn [root]. apply (lookup_update_path p _ _ _ Hp). }
  assert (Hkd1 : assoc k d1 = Some c1).
  { subst d1 c1. destruct (assoc k d) eqn:E; [exact E | apply assoc_set_assoc]. }
  assert (Hc1 : lookup_path (root st1) (p ++ [SKey k]) = Some c1).
  { rewrite lookup_path_app, Hp1. simpl. now rewrite Hkd1. }
  assert (Hpush1 : pushable c1 keys = true).
  { subst c1. cbn [pushable] in Hpush.
    destruct (assoc k d); [exact Hpush | apply pushable_empty]. }
  assert (Hstep : _traverse (RAt Root p) (k :: keys) true None st
                  = if is_none c1 then (Ok RNone, st1)
                    else _traverse (RAt Root (p ++ [SKey k])) keys true None st1).
  { cbn [_traverse]. unfold bind at 1.
    pose proof (traverse_create_turn p k st d Hp Hk) as Hturn.
    fold st1 in Hturn. rewrite Hturn.
    unfold test; unfold bind, ret; cbn beta iota zeta.
    rewrite (load_root (p ++ [SKey k]) st1 c1 Hc1). now destruct (is_none c1). }
  rewrite Hstep. clear Hstep.
  destruct (is_none c1) eqn:Hn.
  - (* the field holds None: the traversal returns None *)
    destruct c1; try discriminate.
    destruct keys as [|k' keys]; [|discriminate].
    exists st1, RNone, VNone, d1. repeat split; auto.
  - destruct keys as [|k' keys].
    + (* the last field *)
      exists st1, (RAt Root (p ++ [SKey k])), c1, d1.
      simpl in Hpush1. apply negb_true_iff in Hpush1.
      repeat split; auto. apply (load_root (p ++ [SKey k]) st1 c1 Hc1).
    + assert (Hdict : exists dc, c1 = VDict dc).
      { simpl in Hpush1. destruct c1; try discriminate. eauto. }
      destruct Hdict as [dc Hdc]. rewrite Hdc in *.
      destruct (IH (p ++ [SKey k]) st1 dc ltac:(discriminate) Hc1 Hf Hpush1)
        as (st' & t & tv & d' & Htrav & Hload & Hlist & Hp' & Hd').
      assert (Hup := Hp'). rewrite lookup_path_app in Hup.
      destruct (lookup_path (root st') p) as [x|] eqn:Hx; [|discriminate].
      simpl in Hup. destruct x as [| | | | |dx]; try discriminate.
      destruct (assoc k dx) as [cx|] eqn:Hkx; [|discriminate].
      injection Hup as ->.
      exists st', t, tv, dx. repeat split; auto.
      change (but_last (k :: k' :: keys)) with (k :: but_last (k' :: keys)).
      cbn [dicts_along]. now rewrite Hkx.
Qed.

End Push.

(** X2.  [push], twice.  For a root and a path of fields that runs along
    dicts of the root and is absent, or present with something that is no
    list, [push] leaves the one-element list [[v]] at the path, and a second
    [push] appends to it. *)
Theorem push_twice_on_fields :
  forall (r : value) (s : string) (v v2 : value),
    forallb is_field (split "." s) = true ->
    pushable r (split "." s) = true ->
    exists r1 r2,
      run (push here (PStr s) v None) r = (Ok tt, r1)
      /\ run (get here (PStr s) VNone None VNone) r1 = (Ok (VList [v]), r1)
      /\ run (push here (PStr s) v2 None) r1 = (Ok tt, r2)
      /\ run (get here (PStr s) VNone None VNone) r2 = (Ok (VList [v; v2]), r2).
Proof.
  intros r s v v2 Hf Hpush.
  set (keys := split "." s) in *.
  assert (Hne : keys <> []) by apply split_not_nil.
  destruct r as [| | | | |d]; try (destruct keys; [congruence | discriminate]).
  destruct (traverse_create_pushable keys [] (init (VDict d)) d Hne eq_refl Hf Hpush)
    as (st' & t & tv & d' & Htrav & Hload & Hlist & Hroot & Hd').
  simpl in Hroot. injection Hroot as Hroot.
  assert (Hkeys : keys = but_last keys ++ [last_of keys]) by now apply keys_but_last.
  assert (Hfp : forallb is_field (but_last keys) = true).
  { rewrite Hkeys, forallb_app in Hf. now apply andb_true_iff in Hf as [Hf _]. }
  destruct (set_fields_in st' s (VList [v]) Hf) as (st1 & Hset & Hv1).
  { fold keys. now rewrite Hroot. }
  fold keys in Hv1.
  (* the second push finds the list *)
  assert (Htrav2 : _traverse here keys true None (init (root st1))
                   = (Ok (RAt Root (map SKey keys)), init (root st1)))
    by (apply (traverse_create_present keys [] (init (root st1)) (VList [v]) Hf Hv1 eq_refl)).
  exists (root st1), (update_path (root st1) (map SKey keys) (VList [v; v2])).
  repeat split.
  - unfold run. cbn [push]. unfold push_one, test; unfold bind, ret. fold keys.
    unfold here. rewrite Htrav, Hload.
    unfold is_list_object. rewrite Hlist. fold here. now rewrite Hset.
  - rewrite (get_spec _ s _ (fields_parse _ Hf)). fold keys.
    now rewrite (value_at_fields _ keys _ Hf Hv1).
  - unfold run. cbn [push]. unfold push_one, test; unfold bind, ret. fold keys.
    rewrite Htrav2. unfold append, save, bind. cbn [app].
    repeat (progress (simpl; rewrite ?Hv1)). reflexivity.
  - rewrite (get_spec _ s _ (fields_parse _ Hf)). fold keys.
    rewrite (value_at_fields _ keys (VList [v; v2]) Hf); [reflexivity|].
    apply (lookup_update_path _ _ _ _ Hv1).
Qed.

Lemma push_twice_on_fields_witness :
  exists r1 r2,
    run (push here (PStr "a.b") (VInt 1) None) (VDict []) = (Ok tt, r1)
    /\ run (get here (PStr "a.b") VNone None VNone) r1 = (Ok (VList [VInt 1]), r1)
    /\ run (push here (PStr "a.b") (VInt 2) None) r1 = (Ok tt, r2)
    /\ run (get here (PStr "a.b") VNone None VNone) r2
       = (Ok (VList [VInt 1; VInt 2]), r2).
Proof.
  apply (push_twice_on_fields (VDict []) "a.b" (VInt 1) (VInt 2)); reflexivity.
Defined.

(** C7.  [push] on the absent path ["a.0"] of the empty mapping raises a
    [TypeError] instead of leaving [[v]] there. *)
Theorem C7_push_through_index_raises :
  run (push here (PStr "a.0") (VInt 1) None) (VDict [])
  = (Raise TypeError, VDict [("a", VDict [])]).
Proof. vm_compute. reflexivity. Qed.

(** ** [delete] *)

Section Delete.

(** [delete], from any store: on a path whose segments parse it does not
    raise, and leaves [deleted]. *)
Lemma delete_in (st : store) (s : string) :
  forallb parses (split "." s) = true ->
  delete here (PStr s) None st
  = (Ok tt, mkStore (deleted (root st) (split "." s)) (locals st)).
Proof.
  intros Hparse.
  assert (Hst : st = mkStore (root st) (locals st)) by now destruct st.
  unfold deleted. cbn [delete]. unfold delete_one.
  set (keys := split "." s) in *.
  destruct (forallb_but_last parses keys Hparse) as [Hpp Hpl].
  specialize (Hpl (split_not_nil _ _)).
  unfold bind at 1, here.
  rewrite (traverse_read_only (but_last keys) [] st (root st) eq_refl Hpp).
  destruct (trav (root st) (but_last keys)) as [q|] eqn:Hq;
    [|simpl; unfold ret; now rewrite <- Hst].
  destruct (trav_steps _ _ _ Hq) as (_ & _ & pv & Hpv & _).
  cbn [ref_of app]. unfold bind at 1, load at 1. rewrite Hpv.
  destruct (is_none pv) eqn:Hn.
  { destruct pv; try discriminate. unfold ret. now rewrite <- Hst. }
  unfold bind at 1, lift.
  destruct (parse_key_default (last_of keys) Hpl) as [[_ Hk] | (z & _ & Hz & Hk)];
    rewrite Hk.
  - destruct pv; try (simpl; unfold ret; now rewrite <- Hst).
    unfold dict_pop, save, bind, ret. simpl. now rewrite Hpv.
  - destruct pv; try (simpl; unfold ret; now rewrite <- Hst).
    unfold list_pop, save, bind, ret, lift, position. simpl.
    replace (0 <=? z) with true by (symmetry; apply Z.leb_le; exact Hz).
    destruct (z <? Z.of_nat (List.length xs)) eqn:Hlt; simpl;
      [|now rewrite <- Hst].
    rewrite Hpv. simpl. now rewrite Hlt.
Qed.

Lemma delete_spec (r : value) (s : string) :
  forallb parses (split "." s) = true ->
  run (delete here (PStr s) None) r = (Ok tt, deleted r (split "." s)).
Proof. intros Hp. unfold run. now rewrite (delete_in (init r) s Hp). Qed.

Lemma length_del_nth {A} (i : nat) (xs : list A) :
  (i < List.length xs)%nat -> S (List.length (del_nth i xs)) = List.length xs.
Proof.
  revert i; induction xs as [|x xs IH]; intros [|i] H; simpl in *; try lia.
  rewrite (IH i); lia.
Qed.

Lemma is_some_nth_error {A} (i : nat) (xs : list A) :
  is_some (nth_error xs i) = (i <? List.length xs)%nat.
Proof.
  destruct (nth_error xs i) eqn:E; simpl; symmetry.
  - apply Nat.ltb_lt. apply nth_error_Some. congruence.
  - apply Nat.ltb_ge. now apply nth_error_None.
Qed.

(** C9, as the code has it.  Under the default [index_prefix], on a path
    whose segments parse: [delete] does not raise; on a path that is absent
    it changes nothing; after [delete] of a path of fields that was present,
    [has] returns [False]; and on a path of fields followed by a position of
    the list found there, [delete] removes the element at the position, the
    later elements move one place down, and [has] then returns [True]
    exactly when the position was not the last of the list. *)
Theorem C9_delete_absent_and_present :
  forall (r : value) (s : string),
    forallb parses (split "." s) = true ->
    (exists r', run (delete here (PStr s) None) r = (Ok tt, r'))
    /\ (lookup_path r (map step_of (split "." s)) = None ->
        run (delete here (PStr s) None) r = (Ok tt, r))
    /\ (forallb is_field (split "." s) = true ->
        lookup_path r (map SKey (split "." s)) <> None ->
        exists r',
          run (delete here (PStr s) None) r = (Ok tt, r')
          /\ run (has here (PStr s) None) r' = (Ok (VBool false), r'))
    /\ (forall (xs : list value) (z : Z),
          forallb is_field (but_last (split "." s)) = true ->
          lookup_path r (map SKey (but_last (split "." s))) = Some (VList xs) ->
          _parse_key (last_of (split "." s)) None = Ok (true, KInt z) ->
          z < Z.of_nat (List.length xs) ->
          let r' := update_path r (map SKey (but_last (split "." s)))
                      (VList (del_nth (Z.to_nat z) xs)) in
          run (delete here (PStr s) None) r = (Ok tt, r')
          /\ run (has here (PStr s) None) r'
             = (Ok (VBool (z + 1 <? Z.of_nat (List.length xs))), r')).
Proof.
  intros r s Hparse. rewrite (delete_spec r s Hparse). split; [eauto|].
  set (keys := split "." s) in *.
  assert (Hkeys : keys = but_last keys ++ [last_of keys])
    by (apply keys_but_last, split_not_nil).
  destruct (forallb_but_last parses keys Hparse) as [Hpp Hpl].
  specialize (Hpl (split_not_nil _ _)).
  unfold deleted.
  set (pk := but_last keys) in *. set (lk := last_of keys) in *.
  split; [|split].
  - intros Habs. f_equal.
    destruct (trav r pk) as [q|] eqn:Hq; [|reflexivity].
    destruct (trav_steps _ _ _ Hq) as (-> & Hsteps & pv & Hpv & _).
    rewrite Hkeys, map_app, Hsteps, lookup_path_app, Hpv in Habs. cbn [map] in Habs.
    rewrite Hpv. unfold step_of in Habs.
    destruct (parse_key_default lk Hpl) as [[_ Hk] | (z & _ & Hz & Hk)];
      rewrite Hk in *; destruct pv; try reflexivity.
    + simpl in Habs. destruct (assoc lk kvs) eqn:Hc; [discriminate|].
      rewrite (del_assoc_absent lk kvs Hc). now apply update_path_same.
    + simpl in Habs. destruct (nth_error xs (Z.to_nat z)) eqn:Hc; [discriminate|].
      apply nth_error_None in Hc.
      replace (z <? Z.of_nat (List.length xs)) with false
        by (symmetry; apply Z.ltb_ge; lia).
      reflexivity.
  - intros Hf Hpres. eexists; split; [reflexivity|].
    rewrite has_spec by exact Hparse. fold keys.
    rewrite (steps_of_fields keys Hf).
    rewrite Hkeys in Hf, Hpres |- *.
    rewrite forallb_app in Hf. apply andb_true_iff in Hf as [Hfp Hfl].
    simpl in Hfl. rewrite andb_true_r in Hfl.
    rewrite map_app, lookup_path_app in Hpres. cbn [map] in Hpres.
    destruct (lookup_path r (map SKey pk)) as [pv|] eqn:Hpv; [|congruence].
    simpl in Hpres. destruct pv as [| | | | |d]; try congruence.
    rewrite (trav_fields pk r (VDict d) Hfp Hpv eq_refl), Hpv.
    rewrite (parse_key_field lk Hfl).
    rewrite map_app, lookup_path_app.
    rewrite (lookup_update_path _ r _ (VDict (del_assoc lk d)) Hpv).
    simpl. now rewrite assoc_del_assoc.
  - intros xs z Hfp Hpv Hk Hlt.
    assert (Hz : 0 <= z).
    { destruct (parse_key_default lk Hpl) as [[_ Hk'] | (z' & _ & Hz' & Hk')];
        congruence. }
    rewrite (trav_fields pk r (VList xs) Hfp Hpv eq_refl), Hpv, Hk.
    replace (z <? Z.of_nat (List.length xs)) with true
      by (symmetry; apply Z.ltb_lt; exact Hlt).
    split; [reflexivity|].
    rewrite has_spec by exact Hparse. fold keys. rewrite Hkeys at 1.
    rewrite map_app, (steps_of_fields pk Hfp), lookup_path_app.
    rewrite (lookup_update_path _ r _ _ Hpv).
    cbn [map]. unfold step_of. fold lk. rewrite Hk. cbn [lookup_path child].
    assert (Hi : (Z.to_nat z < List.length xs)%nat) by lia.
    pose proof (length_del_nth _ xs Hi) as Hlen.
    destruct (nth_error (del_nth (Z.to_nat z) xs) (Z.to_nat z)) as [c|] eqn:Hc;
      cbn [is_some]; do 3 f_equal; symmetry.
    + apply Z.ltb_lt.
      assert (Z.to_nat z < List.length (del_nth (Z.to_nat z) xs))%nat
        by (apply nth_error_Some; congruence).
      lia.
    + apply Z.ltb_ge. apply nth_error_None in Hc. lia.
Qed.

Lemma C9_witness :
  let r := VDict [("a", VDict [("b", VInt 1); ("c", VInt 2)]);
                  ("l", VList [VInt 1; VInt 2])] in
  run (delete here (PStr "a.x.y") None) r = (Ok tt, r)
  /\ (exists r',
        run (delete here (PStr "a.b") None) r = (Ok tt, r')
        /\ run (has here (PStr "a.b") None) r' = (Ok (VBool false), r'))
  /\ (let r' := VDict [("a", VDict [("b", VInt 1); ("c", VInt 2)]);
                       ("l", VList [VInt 2])] in
      run (delete here (PStr "l.0") None) r = (Ok tt, r')
      /\ run (has here (PStr "l.0") None) r' = (Ok (VBool true), r')).
Proof.
  split; [|split].
  - apply (C9_delete_absent_and_present
             (VDict [("a", VDict [("b", VInt 1); ("c", VInt 2)]);
                     ("l", VList [VInt 1; VInt 2])]) "a.x.y"); reflexivity.
  - apply (C9_delete_absent_and_present
             (VDict [("a", VDict [("b", VInt 1); ("c", VInt 2)]);
                     ("l", VList [VInt 1; VInt 2])]) "a.b");
      [reflexivity | reflexivity | discriminate].
  - destruct (C9_delete_absent_and_present
                (VDict [("a", VDict [("b", VInt 1); ("c", VInt 2)]);
                        ("l", VList [VInt 1; VInt 2])]) "l.0" eq_refl)
      as (_ & _ & _ & Hpos).
    apply (Hpos [VInt 1; VInt 2] 0); reflexivity.
Defined.

(** C9, as it is stated, fails where the path ends at a position of a list
    that has later elements: [delete] removes the element, the later ones
    move one place down, and the path is present again. *)
Lemma C9_delete_in_list_shifts :
  let r := VDict [("a", VList [VInt 1; VInt 2])] in
  run (has here (PStr "a.0") None) r = (Ok (VBool true), r)
  /\ run (delete here (PStr "a.0") None ;; has here (PStr "a.0") None) r
     = (Ok (VBool true), VDict [("a", VList [VInt 2])]).
Proof. vm_compute. split; reflexivity. Qed.

(** [delete] through an index segment removes nothing: on
    [{"a": [{"b": 1}]}] the path ["a.0.b"] is present before
    [delete(root, "a.0.b")] and still present after it, because the
    traversal to the parent gives up at the index. *)
Lemma delete_through_index_keeps_path :
  let r := VDict [("a", VList [VDict [("b", VInt 1)]])] in
  run (has here (PStr "a.0.b") None) r = (Ok (VBool true), r)
  /\ run (delete here (PStr "a.0.b") None ;; has here (PStr "a.0.b") None) r
     = (Ok (VBool true), r).
Proof. vm_compute. split; reflexivity. Qed.

End Delete.


(** ** [pull] *)

Section Pull.

(** On a path of fields that resolves to a list, [pull] finds the dict that
    holds the list under the last field, and the list. *)
Lemma pull_target_fields (r : value) (s : string) (items : list value) :
  forallb is_field (split "." s) = true ->
  lookup_path r (map SKey (split "." s)) = Some (VList items) ->
  exists d,
    lookup_path r (map SKey (but_last (split "." s))) = Some (VDict d)
    /\ assoc (last_of (split "." s)) d = Some (VList items)
    /\ pull_target here s None (init r)
       = (Ok (Some (RAt Root (map SKey (but_last (split "." s))),
                    KStr (last_of (split "." s)),
                    RAt Root (map SKey (split "." s)))), init r).
Proof.
  intros Hf Hl. unfold pull_target.
  set (keys := split "." s) in *.
  assert (Hkeys : keys = but_last keys ++ [last_of keys])
    by (apply keys_but_last, split_not_nil).
  set (pk := but_last keys) in *. set (lk := last_of keys) in *.
  rewrite Hkeys in Hf, Hl |- *.
  rewrite forallb_app in Hf. apply andb_true_iff in Hf as [Hfp Hfl].
  simpl in Hfl. rewrite andb_true_r in Hfl.
  assert (Hitems := Hl).
  rewrite map_app, lookup_path_app in Hl. cbn [map] in Hl.
  destruct (lookup_path r (map SKey pk)) as [pv|] eqn:Hpv; [|discriminate].
  simpl in Hl. destruct pv as [| | | | |d]; try discriminate.
  destruct (assoc lk d) as [c|] eqn:Hc; [|discriminate].
  injection Hl as ->.
  exists d. split; [reflexivity|]. split; [exact Hc|].
  assert (Htrav : trav r pk = Some (map SKey pk))
    by (apply (trav_fields pk r (VDict d)); auto).
  rewrite map_app in Hitems |- *. cbn [map] in Hitems |- *.
  unfold bind at 1, here.
  rewrite (traverse_read_only pk [] (init r) r eq_refl (fields_parse _ Hfp)), Htrav.
  unfold bind at 1, lift. cbn [ref_of app]. unfold load at 1. cbn [root init].
  rewrite Hpv. cbn [is_none]. rewrite (parse_key_field lk Hfl).
  unfold has_key, get_value, test, bind, ret.
  repeat (progress (simpl; rewrite ?Hpv, ?Hitems, ?Hc)).
  reflexivity.
Qed.




(** *** Removal by index and by sub-query *)

Lemma del_nth_app {A} (pre : list A) (x : A) (t : list A) :
  del_nth (List.length pre) (pre ++ x :: t) = pre ++ t.
Proof. induction pre as [|y pre IH]; simpl; [reflexivity | now rewrite IH]. Qed.

Lemma set_assoc_twice (k : string) (a b : value) (d : list (string * value)) :
  set_assoc k b (set_assoc k a d) = set_assoc k b d.
Proof.
  induction d as [|[k' x] d IH]; simpl.
  - now rewrite String.eqb_refl.
  - destruct (String.eqb k k') eqn:E; simpl; rewrite E; [reflexivity | now rewrite IH].
Qed.

Lemma set_nth_twice {A} (i : nat) (a b : A) (xs : list A) :
  set_nth i b (set_nth i a xs) = set_nth i b xs.
Proof.
  revert i; induction xs as [|x xs IH]; intros [|i]; simpl; try reflexivity.
  now rewrite IH.
Qed.

Lemma update_path_twice (tp : list step) :
  forall (r old a b : value),
    lookup_path r tp = Some old ->
    update_path (update_path r tp a) tp b = update_path r tp b.
Proof.
  induction tp as [|s tp IH]; intros r old a b H; simpl in *; [reflexivity|].
  destruct s, r; simpl in H; try discriminate.
  - destruct (assoc k kvs) as [c|] eqn:Hc; [|discriminate].
    simpl. rewrite assoc_set_assoc, set_assoc_twice. now rewrite (IH c old a b H).
  - destruct (nth_error xs i) as [c|] eqn:Hc; [|discriminate].
    simpl. rewrite (nth_error_set_nth i c _ xs Hc), set_nth_twice.
    now rewrite (IH c old a b H).
Qed.

(** [target_list.pop(z)] at a position of the list. *)
Lemma list_pop_at (tp : list step) (st : store) (xs : list value) (z : Z) :
  lookup_path (root st) tp = Some (VList xs) ->
  0 <= z < Z.of_nat (List.length xs) ->
  list_pop (RAt Root tp) (KInt z) st
  = (Ok tt, mkStore (update_path (root st) tp (VList (del_nth (Z.to_nat z) xs)))
                    (locals st)).
Proof.
  intros Hl Hz. unfold list_pop, save, bind, lift, position.
  rewrite (load_root _ _ _ Hl).
  replace ((0 <=? z) && (z <? Z.of_nat (List.length xs))) with true
    by (symmetry; apply andb_true_iff; split; [apply Z.leb_le | apply Z.ltb_lt]; lia).
  reflexivity.
Qed.

Lemma pop_each_app (t : ref) (a b : list Z) (st : store) :
  pop_each t (a ++ b) st
  = match pop_each t a st with
    | (Ok _, st') => pop_each t b st'
    | (Raise e, st') => (Raise e, st')
    end.
Proof.
  revert st; induction a as [|z a IH]; intros st; simpl; [reflexivity|].
  unfold bind. destruct (list_pop t (KInt z) st) as [[[]|e] st']; [apply IH | reflexivity].
Qed.

Lemma q_indexes_selects (k : Z) (x : value) (l : list value) (q : value) (idxs : list Z) :
  q_indexes k (x :: l) q = Ok idxs ->
  exists l', q_indexes (k + 1) l q = Ok l'
             /\ idxs = if selects q x then k :: l' else l'.
Proof.
  cbn [q_indexes]. unfold selects. intros H.
  destruct (is_dict_object x); cbn [negb andb] in *.
  - destruct (_match x q) as [b|]; cbn [rbind] in H; [|discriminate].
    destruct (q_indexes (k + 1) l q) as [l'|]; cbn [rbind] in H; [|discriminate].
    injection H as <-. exists l'. now destruct b.
  - cbn [rbind] in H.
    destruct (q_indexes (k + 1) l q) as [l'|]; cbn [rbind] in H; [|discriminate].
    injection H as <-. now exists l'.
Qed.

(** The pops of lines 246-247, from the highest index down, remove the items
    the query selects and no other. *)
Lemma pop_each_selected (tp : list step) (q : value) (items : list value) :
  forall (pre : list value) (st : store) (idxs : list Z),
    q_indexes (Z.of_nat (List.length pre)) items q = Ok idxs ->
    lookup_path (root st) tp = Some (VList (pre ++ items)) ->
    pop_each (RAt Root tp) (rev idxs) st
    = (Ok tt, mkStore (update_path (root st) tp
                         (VList (pre ++ filter (fun d => negb (selects q d)) items)))
                      (locals st)).
Proof.
  induction items as [|x l IH]; intros pre st idxs Hq Hl.
  - simpl in Hq. injection Hq as <-. simpl. unfold ret.
    rewrite (update_path_same tp _ _ Hl). now destruct st.
  - destruct (q_indexes_selects _ x l q idxs Hq) as (l' & Hq' & ->).
    assert (Hl' : lookup_path (root st) tp = Some (VList ((pre ++ [x]) ++ l)))
      by now rewrite <- app_assoc.
    assert (Hk : Z.of_nat (List.length pre) + 1 = Z.of_nat (List.length (pre ++ [x])))
      by (rewrite length_app; simpl; lia).
    rewrite Hk in Hq'.
    specialize (IH (pre ++ [x]) st l' Hq' Hl').
    rewrite <- app_assoc in IH. cbn [app] in IH.
    cbn [filter]. destruct (selects q x); cbn [negb].
    + cbn [rev]. rewrite pop_each_app, IH. cbn [pop_each]. unfold bind.
      rewrite (list_pop_at tp _ (pre ++ x :: filter (fun d => negb (selects q d)) l)).
      * cbn [root locals ret]. rewrite Nat2Z.id, del_nth_app.
        now rewrite (update_path_twice tp _ _ _ _ Hl).
      * cbn [root]. apply (lookup_update_path tp _ _ _ Hl).
      * rewrite length_app. simpl. lia.
    + exact IH.
Qed.

End Pull.

(** X8.  [pull] with an index that is a position of the list removes the
    element at that position and no other, whatever the value is. *)
Theorem pull_by_index :
  forall (r : value) (s : string) (items : list value) (v : value) (i : Z),
    forallb is_field (split "." s) = true ->
    lookup_path r (map SKey (split "." s)) = Some (VList items) ->
    0 <= i < Z.of_nat (List.length items) ->
    run (pull here (PStr s) v (VInt i) None) r
    = (Ok tt, update_path r (map SKey (split "." s))
                (VList (del_nth (Z.to_nat i) items))).
Proof.
  intros r s items v i Hf Hl Hi.
  destruct (pull_target_fields r s items Hf Hl) as (d & Hpv & Hc & Htarget).
  unfold run. cbn [pull]. unfold pull_one, bind at 1. rewrite Htarget.
  unfold pull_from, bind. rewrite (load_root _ (init r) _ Hl). cbn [as_int].
  replace ((0 <=? i) && (i <? Z.of_nat (List.length items))) with true
    by (symmetry; apply andb_true_iff; split; [apply Z.leb_le | apply Z.ltb_lt]; lia).
  now rewrite (list_pop_at _ (init r) items i Hl Hi).
Qed.

Lemma pull_by_index_witness :
  run (pull here (PStr "a.l") VNone (VInt 1) None)
      (VDict [("a", VDict [("l", VList [VInt 7; VInt 8; VInt 9])])])
  = (Ok tt, VDict [("a", VDict [("l", VList [VInt 7; VInt 9])])]).
Proof.
  apply (pull_by_index (VDict [("a", VDict [("l", VList [VInt 7; VInt 8; VInt 9])])])
           "a.l" [VInt 7; VInt 8; VInt 9] VNone 1); [reflexivity | reflexivity | simpl; lia].
Defined.

(** X9.  [pull] with a mapping for the value and no index takes the mapping
    for a query: when the matcher raises on no element, the elements that
    are dicts and match are removed, and the others stay in their order. *)
Theorem pull_by_query :
  forall (r : value) (s : string) (items : list value) (q : value) (idxs : list Z),
    forallb is_field (split "." s) = true ->
    lookup_path r (map SKey (split "." s)) = Some (VList items) ->
    is_dict_object q = true ->
    q_indexes 0 items q = Ok idxs ->
    run (pull here (PStr s) q VNone None) r
    = (Ok tt, update_path r (map SKey (split "." s))
                (VList (filter (fun d => negb (selects q d)) items))).
Proof.
  intros r s items q idxs Hf Hl Hq Hidx.
  destruct (pull_target_fields r s items Hf Hl) as (d & Hpv & Hc & Htarget).
  unfold run. cbn [pull]. unfold pull_one, bind at 1. rewrite Htarget.
  unfold pull_from, bind, lift. rewrite (load_root _ (init r) _ Hl). cbn [as_int].
  rewrite Hq. destruct q; try discriminate. cbn [is_none negb].
  rewrite Hidx.
  now rewrite (pop_each_selected _ _ items [] (init r) idxs Hidx Hl).
Qed.

Lemma pull_by_query_witness :
  run (pull here (PStr "items") (VDict [("k", VDict [("$gt", VInt 1)])]) VNone None)
      (VDict [("items", VList [VDict [("k", VInt 3)]; VDict [("k", VInt 1)];
                               VInt 5; VDict [("k", VInt 2)]])])
  = (Ok tt, VDict [("items", VList [VDict [("k", VInt 1)]; VInt 5])]).
Proof.
  apply (pull_by_query
           (VDict [("items", VList [VDict [("k", VInt 3)]; VDict [("k", VInt 1)];
                                    VInt 5; VDict [("k", VInt 2)]])])
           "items"
           [VDict [("k", VInt 3)]; VDict [("k", VInt 1)]; VInt 5; VDict [("k", VInt 2)]]
           (VDict [("k", VDict [("$gt", VInt 1)])]) [0; 3]); reflexivity.
Defined.
(** ** The collection queries *)

Section CollectionFacts.

Variable re_search : value -> string -> Z -> result bool.

(** C6.  When [find_all] returns, what it returns is the items that match,
    in their order in [items], and [find_first] returns the first of them,
    or [None] when there is none. *)
Theorem C6_find_first_heads_find_all :
  forall (items : list value) (query : value) (found : list value),
    find_all re_search items query = Ok found ->
    found = filter (fun item => match match_item re_search item query with
                                | Ok true => true
                                | _ => false
                                end) items
    /\ find_first re_search items query = Ok (hd_error found).
Proof.
  intros items query.
  induction items as [|item items IH]; intros found H; simpl in *.
  - injection H as <-. split; reflexivity.
  - destruct (match_item re_search item query) as [b|e]; simpl in *; [|discriminate].
    destruct (find_all re_search items query) as [l|e]; simpl in *; [|discriminate].
    injection H as <-.
    destruct (IH l eq_refl) as [Hl Hf].
    destruct b; simpl; split; congruence.
Qed.

End CollectionFacts.

Lemma C6_witness :
  let items := [VDict [("age", VInt 5)]; VDict [("age", VInt 10)]; VDict [("age", VInt 8)]] in
  let query := VDict [("age", VDict [("$gte", VInt 7)])] in
  let found := [VDict [("age", VInt 10)]; VDict [("age", VInt 8)]] in
  found = filter (fun item => match match_item re_never item query with
                              | Ok true => true
                              | _ => false
                              end) items
  /\ find_first re_never items query = Ok (hd_error found).
Proof.
  apply (C6_find_first_heads_find_all re_never). reflexivity.
Defined.

(** ** Unrecognised operators *)

Section Operators.

Lemma all_of_reaches {A} (f : A -> result bool) (pre post : list A) (x : A) :
  all_of f pre = Ok true ->
  all_of f (pre ++ x :: post) = rbind (f x) (fun b => if b then all_of f post else Ok false).
Proof.
  induction pre as [|y pre IH]; simpl; intros H; [reflexivity|].
  destruct (f y) as [[|]|]; simpl in *; try discriminate. auto.
Qed.

Ltac orb_false :=
  repeat match goal with
         | H : _ || _ = false |- _ =>
             apply orb_false_iff in H; destruct H
         end.

Lemma op_check_unknown (self : value -> value -> result bool)
    (doc_value : value) (op : string) (v : value) :
  recognised op = false -> op_check self doc_value op v = Raise ValueError.
Proof.
  intros Hop. unfold recognised, op_in_known in Hop.
  cbn [existsb known_ops] in Hop. orb_false.
  unfold op_check, op_in_known. cbn [existsb known_ops].
  repeat match goal with H : String.eqb _ _ = false |- _ => rewrite H; clear H end.
  reflexivity.
Qed.

(** The traversal-side matcher raises as soon as it reaches an operator it
    does not know: the keys of the query before the field pass, and so do
    the operators before it in the mapping of the field. *)
Lemma match_reaches_unknown_operator
    (document : value) (field op : string) (v : value)
    (qpre rest pre post : list (string * value)) :
  combinator field = false ->
  recognised op = false ->
  _match document (VDict qpre) = Ok true ->
  _match document (VDict [(field, VDict pre)]) = Ok true ->
  _match document (VDict (qpre ++ (field, VDict (pre ++ (op, v) :: post)) :: rest))
  = Raise ValueError.
Proof.
  intros Hf Hop Hq Hpre.
  unfold combinator in Hf. orb_false.
  cbn [_match] in Hq |- *. rewrite (all_of_reaches _ qpre rest _ Hq).
  cbn [_match all_of] in Hpre. cbn beta iota.
  repeat match goal with H : String.eqb field _ = false |- _ => rewrite H in * end.
  destruct (get_doc document field) as [dv|e]; [|simpl in Hpre; discriminate].
  cbn [rbind] in *.
  rewrite (all_of_reaches _ pre post (op, v)).
  - now rewrite op_check_unknown.
  - destruct (all_of _ pre) as [[|]|]; simpl in Hpre; congruence.
Qed.

(** In the collection matcher a name that is no operator of
    [match_condition] is a test of the value against the whole mapping. *)
Lemma cond_check_unknown (re_search : value -> string -> Z -> result bool)
    (val condition : value) (cond : list (string * value)) (op : string) (op_val : value) :
  collection_op op = false ->
  cond_check re_search val condition cond op op_val = Ok (py_eq val condition).
Proof.
  intros Hop. unfold collection_op in Hop. cbn [existsb] in Hop. orb_false.
  unfold cond_check.
  repeat match goal with H : String.eqb _ _ = false |- _ => rewrite H; clear H end.
  reflexivity.
Qed.

Lemma match_item_unknown_operator (re_search : value -> string -> Z -> result bool)
    (item : value) (field op : string) (v val : value) :
  combinator field = false ->
  collection_op op = false ->
  get_doc item field = Ok val ->
  match_item re_search item (VDict [(field, VDict [(op, v)])])
  = Ok (py_eq val (VDict [(op, v)])).
Proof.
  intros Hf Hop Hval. unfold combinator in Hf. orb_false.
  cbn [match_item all_of].
  rewrite (String.eqb_sym "$and" field), (String.eqb_sym "$or" field).
  repeat match goal with H : String.eqb field _ = false |- _ => rewrite H end.
  unfold match_condition. rewrite Hval. cbn [rbind all_of].
  rewrite cond_check_unknown by exact Hop.
  simpl. now destruct (py_eq _ _).
Qed.

(** C3, as the code has it.  [_match], the matcher behind [get] with a query
    and [pull] with a sub-query, raises [ValueError] when it reaches an
    operator name it does not know, which it does when the keys of the query
    before the field and the operators listed before the name in the mapping
    pass; [get] and [pull] raise with it, and change nothing, when the
    document is the first element of the list they work on.
    [match_condition], the matcher behind [find_first] and [find_all], does
    not raise on such a name: it compares the value of the field with the
    whole mapping. *)
Theorem C3_unknown_operator_by_matcher :
  forall (re_search : value -> string -> Z -> result bool)
         (document : value) (field op : string) (v : value)
         (qpre rest pre post : list (string * value)),
    combinator field = false ->
    recognised op = false ->
    collection_op op = false ->
    _match document (VDict qpre) = Ok true ->
    _match document (VDict [(field, VDict pre)]) = Ok true ->
    let query := VDict (qpre ++ (field, VDict (pre ++ (op, v) :: post)) :: rest) in
    let condition := VDict [(op, v)] in
    _match document query = Raise ValueError
    /\ (forall (r : value) (s : string) (docs : list value) (default : value),
          is_dict_object document = true ->
          forallb is_field (split "." s) = true ->
          lookup_path r (map SKey (split "." s)) = Some (VList (document :: docs)) ->
          run (get here (PStr s) default None query) r = (Raise ValueError, r)
          /\ run (pull here (PStr s) query VNone None) r = (Raise ValueError, r))
    /\ exists val,
         get_doc document field = Ok val
         /\ match_item re_search document (VDict [(field, condition)])
            = Ok (py_eq val condition)
         /\ find_first re_search [document] (VDict [(field, condition)])
            = Ok (if py_eq val condition then Some document else None).
Proof.
  intros re_search document field op v qpre rest pre post
         Hf Hop Hcop Hq Hpre query condition.
  assert (Hraise : _match document query = Raise ValueError)
    by (apply match_reaches_unknown_operator; assumption).
  assert (Hget : exists val, get_doc document field = Ok val).
  { pose proof Hpre as Hp. pose proof Hf as Hc.
    unfold combinator in Hc.
    repeat (apply orb_false_iff in Hc; destruct Hc as [Hc ?]).
    cbn [_match all_of] in Hp.
    repeat match goal with H : String.eqb field _ = false |- _ => rewrite H in Hp end.
    destruct (get_doc document field) as [val|]; [eauto | discriminate]. }
  destruct Hget as (val & Hval).
  pose proof (match_item_unknown_operator re_search document field op v val Hf Hcop Hval)
    as Hitem.
  split; [exact Hraise|]. split.
  - intros r s docs default Hd Hfs Hl. split.
    + unfold run. cbn [get]. unfold bind, here.
      rewrite (traverse_read_only _ [] (init r) r eq_refl (fields_parse _ Hfs)).
      rewrite (trav_fields _ r _ Hfs Hl eq_refl).
      cbn [ref_of app]. unfold load. cbn [root init]. rewrite Hl.
      cbn [is_none negb andb filter_match]. unfold lift.
      now rewrite Hd, Hraise.
    + destruct (pull_target_fields r s _ Hfs Hl) as (d & Hpv & Hc & Htarget).
      unfold run. cbn [pull]. unfold pull_one, bind at 1. rewrite Htarget.
      unfold pull_from, bind, lift. rewrite (load_root _ (init r) _ Hl).
      cbn [as_int is_none negb is_dict_object isinstance_dict q_indexes].
      now rewrite Hd, Hraise.
  - exists val. split; [exact Hval|]. split; [exact Hitem|].
    cbn [find_first]. fold condition in Hitem. rewrite Hitem. simpl.
    now destruct (py_eq _ _).
Qed.

End Operators.

Lemma C3_witness :
  let document := VDict [("a", VInt 1); ("b", VStr "x")] in
  let query := VDict [("b", VStr "x"); ("a", VDict [("$eq", VInt 1); ("$foo", VInt 2)])] in
  let condition := VDict [("$foo", VInt 2)] in
  let r := VDict [("items", VList [document])] in
  _match document query = Raise ValueError
  /\ (run (get here (PStr "items") VNone None query) r = (Raise ValueError, r)
      /\ run (pull here (PStr "items") query VNone None) r = (Raise ValueError, r))
  /\ exists val,
       get_doc document "a" = Ok val
       /\ match_item re_never document (VDict [("a", condition)])
          = Ok (py_eq val condition)
       /\ find_first re_never [document] (VDict [("a", condition)])
          = Ok (if py_eq val condition then Some document else None).
Proof.
  destruct (C3_unknown_operator_by_matcher re_never
              (VDict [("a", VInt 1); ("b", VStr "x")]) "a" "$foo" (VInt 2)
              [("b", VStr "x")] [] [("$eq", VInt 1)] []
              eq_refl eq_refl eq_refl eq_refl eq_refl) as (H1 & H2 & H3).
  split; [exact H1|]. split; [|exact H3].
  apply (H2 _ "items" [] VNone); reflexivity.
Defined.

(** C3, as it is stated, fails on the collection queries: with the unknown
    operator [$foo], [find_first] and [find_all] do not raise; they return
    the item whose field equals the mapping [{"$foo": 1}] itself. *)
Lemma C3_collection_queries_do_not_raise :
  let query := VDict [("a", VDict [("$foo", VInt 1)])] in
  let item := VDict [("a", VDict [("$foo", VInt 1)])] in
  find_first re_never [VDict [("a", VInt 1)]; item] query = Ok (Some item)
  /\ find_all re_never [VDict [("a", VInt 1)]; item] query = Ok [item].
Proof. vm_compute. split; reflexivity. Qed.

(** ** Ordered comparisons and [$len] in the traversal-side matcher *)

Section TraversalOperators.

Ltac orb_cases H :=
  repeat match type of H with
         | _ || _ = true => apply orb_true_iff in H; destruct H as [H | H]
         end.

Lemma op_check_ordered_none (self : value -> value -> result bool)
    (op : string) (v : value) :
  ordered_op op = true -> op_check self VNone op v = Ok false.
Proof.
  intros H. unfold ordered_op in H. cbn [existsb] in H.
  orb_cases H; try discriminate;
    apply String.eqb_eq in H; subst op; reflexivity.
Qed.

(** X3.  Ordering against an absent value.  When [get(document, field)] is
    [None], an operator mapping on that field in which [$gt], [$gte], [$lt]
    or [$lte] is reached (the keys before the field and the operators
    before it pass) makes [_match] return [False]; it does not raise. *)
Theorem match_ordered_on_absent_is_false :
  forall (document : value) (field op : string) (v : value)
         (qpre rest pre post : list (string * value)),
    combinator field = false ->
    ordered_op op = true ->
    get_doc document field = Ok VNone ->
    _match document (VDict qpre) = Ok true ->
    _match document (VDict [(field, VDict pre)]) = Ok true ->
    _match document (VDict (qpre ++ (field, VDict (pre ++ (op, v) :: post)) :: rest))
    = Ok false.
Proof.
  intros document field op v qpre rest pre post Hf Hop Hget Hq Hpre.
  unfold combinator in Hf.
  repeat (apply orb_false_iff in Hf; destruct Hf as [Hf ?]).
  cbn [_match] in Hq |- *. rewrite (all_of_reaches _ qpre rest _ Hq).
  cbn [_match all_of] in Hpre. cbn beta iota.
  repeat match goal with H : String.eqb field _ = false |- _ => rewrite H in * end.
  rewrite Hget in *. cbn [rbind] in *.
  rewrite (all_of_reaches _ pre post (op, v)).
  - now rewrite op_check_ordered_none.
  - destruct (all_of _ pre) as [[|]|]; simpl in Hpre; congruence.
Qed.

Lemma match_ordered_on_absent_is_false_witness :
  _match (VDict [("name", VStr "x")])
         (VDict [("name", VStr "x"); ("age", VDict [("$ne", VInt 0); ("$gte", VInt 7)])])
  = Ok false.
Proof.
  apply (match_ordered_on_absent_is_false (VDict [("name", VStr "x")]) "age" "$gte"
           (VInt 7) [("name", VStr "x")] [] [("$ne", VInt 0)] []); reflexivity.
Defined.

(** X4.  [$len].  With a value under [$len] that is no mapping, the field
    matches when its length equals that value.  With the mapping [{"$gt": n}] under
    [$len] the field never matches, whatever its length: the mapping is
    matched as a query on the document [{"$len": length}], in which ["$gt"]
    is a field that is missing.  The length is compared with [n] when the
    mapping names [$len] again. *)
Theorem match_len :
  forall (document : value) (field : string) (dv : value) (m : Z),
    combinator field = false ->
    get_doc document field = Ok dv ->
    len dv = Ok m ->
    (forall v, is_dict_object v = false ->
       _match document (VDict [(field, VDict [("$len", v)])])
       = Ok (py_eq (VInt m) v))
    /\ (forall n : Z,
          _match document (VDict [(field, VDict [("$len", VDict [("$gt", VInt n)])])])
          = Ok false)
    /\ (forall n : Z,
          _match document
            (VDict [(field, VDict [("$len", VDict [("$len", VDict [("$gt", VInt n)])])])])
          = Ok (n <? m)).
Proof.
  intros document field dv m Hf Hget Hlen.
  unfold combinator in Hf.
  repeat (apply orb_false_iff in Hf; destruct Hf as [Hf ?]).
  repeat split; intros; cbn [_match all_of];
    repeat match goal with H : String.eqb field _ = false |- _ => rewrite H end;
    rewrite Hget; cbn [rbind]; unfold op_check; cbn [String.eqb Ascii.eqb Bool.eqb];
    rewrite Hlen; cbn [rbind].
  - destruct v; try discriminate; cbn [rbind]; now destruct (py_eq _ _).
  - reflexivity.
  - simpl. unfold py_gt. simpl. rewrite Z.compare_antisym.
    unfold Z.ltb. now destruct (n ?= m).
Qed.

Lemma match_len_witness :
  let document := VDict [("tags", VList [VInt 1; VInt 2; VInt 3; VInt 4])] in
  (forall v, is_dict_object v = false ->
     _match document (VDict [("tags", VDict [("$len", v)])]) = Ok (py_eq (VInt 4) v))
  /\ (forall n : Z,
        _match document (VDict [("tags", VDict [("$len", VDict [("$gt", VInt n)])])])
        = Ok false)
  /\ (forall n : Z,
        _match document
          (VDict [("tags", VDict [("$len", VDict [("$len", VDict [("$gt", VInt n)])])])])
        = Ok (n <? 4)).
Proof.
  apply (match_len (VDict [("tags", VList [VInt 1; VInt 2; VInt 3; VInt 4])]) "tags"
           (VList [VInt 1; VInt 2; VInt 3; VInt 4]) 4); reflexivity.
Defined.

End TraversalOperators.

(** X10.  In the collection matcher, an ordered comparison at the head of
    a condition mapping raises [TypeError] whenever [get(item, key)] is
    [None]: [match_condition] compares [None] with the operand. *)
Theorem match_condition_ordered_on_absent_raises :
  forall (re_search : value -> string -> Z -> result bool)
         (item : value) (key op : string) (op_val : value)
         (rest : list (string * value)),
    ordered_op op = true ->
    get_doc item key = Ok VNone ->
    match_condition re_search item key (VDict ((op, op_val) :: rest))
    = Raise TypeError.
Proof.
  intros re_search item key op op_val rest Hop Hget.
  unfold match_condition. rewrite Hget. cbn [rbind all_of].
  unfold ordered_op in Hop. cbn [existsb] in Hop.
  repeat (apply orb_true_iff in Hop; destruct Hop as [Hop | Hop]);
    try discriminate; apply String.eqb_eq in Hop; subst op; reflexivity.
Qed.

Lemma match_condition_ordered_on_absent_raises_witness :
  match_condition re_never (VDict [("name", VStr "x")]) "age"
    (VDict [("$lte", VInt 3); ("$in", VList [])])
  = Raise TypeError.
Proof.
  apply (match_condition_ordered_on_absent_raises re_never
           (VDict [("name", VStr "x")]) "age" "$lte" (VInt 3) [("$in", VList [])]);
    reflexivity.
Defined.

(** C4.  In the collection matcher an ordered comparison against an absent
    field is not false but a [TypeError]: [find_first([{}], {"age": {"$gt":
    3}})] raises; the traversal-side matcher answers [False] on the same
    document and query. *)
Theorem C4_find_first_absent_field_raises :
  let q := VDict [("age", VDict [("$gt", VInt 3)])] in
  find_first re_never [VDict []] q = Raise TypeError
  /\ find_all re_never [VDict []] q = Raise TypeError
  /\ _match (VDict []) q = Ok false.
Proof. vm_compute. repeat split; reflexivity. Qed.

(** C5.  A document whose [tags] has four elements does not match
    [{"tags": {"$len": {"$gt": 3}}}]: the mapping under [$len] is matched as
    a query on the document [{"$len": 4}], where ["$gt"] is read as a field
    name.  The mapping has to name [$len] again to compare the length. *)
Theorem C5_len_gt_does_not_match :
  let doc := VDict [("tags", VList [VInt 1; VInt 2; VInt 3; VInt 4])] in
  _match doc (VDict [("tags", VDict [("$len", VDict [("$gt", VInt 3)])])]) = Ok false
  /\ _match doc (VDict [("tags", VDict [("$len",
                   VDict [("$len", VDict [("$gt", VInt 3)])])])]) = Ok true
  /\ _match doc (VDict [("tags", VDict [("$len", VInt 4)])]) = Ok true.
Proof. vm_compute. repeat split; reflexivity. Qed.
(** ** Index segments under the default [index_prefix] *)

Section Objects.

Lemma bind_ok {A B} (m : M A) (f : A -> M B) (st st' : store) (a : A) :
  m st = (Ok a, st') -> bind m f st = f a st'.
Proof. intros H. unfold bind. now rewrite H. Qed.

Lemma bind_raise {A B} (m : M A) (f : A -> M B) (st st' : store) (e : exc) :
  m st = (Raise e, st') -> bind m f st = (Raise e, st').
Proof. intros H. unfold bind. now rewrite H. Qed.

Lemma holds_here (st : store) : holds here (root st) st.
Proof. exists (root st). split; reflexivity. Qed.

Lemma load_holds (r : ref) (v : value) (st : store) :
  holds r v st -> load r st = (Ok v, st).
Proof.
  destruct r as [|b p]; simpl; [tauto|].
  intros (t & Ht & Hv). destruct b; simpl in Ht.
  - injection Ht as <-. now rewrite Hv.
  - now rewrite Ht, Hv.
Qed.

Lemma test_holds (f : value -> bool) (r : ref) (v : value) (st : store) :
  holds r v st -> test f r st = (Ok (f v), st).
Proof. intros H. unfold test. now rewrite (bind_ok _ _ _ _ _ (load_holds r v st H)). Qed.

Lemma save_holds (r : ref) (v new : value) (st : store) :
  holds r v st -> exists st', save r new st = (Ok tt, st') /\ holds r new st'.
Proof.
  destruct r as [|b p]; simpl; [tauto|].
  intros (t & Ht & Hv). destruct b; simpl in Ht.
  - injection Ht as <-. eexists; split; [reflexivity|].
    eexists; split; [reflexivity|]. apply (lookup_update_path p _ _ _ Hv).
  - rewrite Ht. eexists; split; [reflexivity|].
    exists (update_path t p new). split.
    + simpl. apply (nth_error_set_nth n t _ _ Ht).
    + apply (lookup_update_path p _ _ _ Hv).
Qed.

Lemma alloc_holds (w : value) (st : store) :
  exists r st', alloc w st = (Ok r, st') /\ holds r w st'.
Proof.
  unfold alloc. do 2 eexists; split; [reflexivity|].
  exists w. split; [|reflexivity].
  simpl. rewrite nth_error_app2 by lia. now rewrite Nat.sub_diag.
Qed.

Lemma holds_sub (r : ref) (d : list (string * value)) (k : string) (c : value)
    (st : store) :
  holds r (VDict d) st -> assoc k d = Some c -> holds (sub r (SKey k)) c st.
Proof.
  destruct r as [|b p]; simpl; [tauto|].
  intros (t & Ht & Hv) Hc. exists t. split; [exact Ht|].
  rewrite lookup_path_app, Hv. simpl. now rewrite Hc.
Qed.

Lemma when_clear (b : bool) (r : ref) (v : value) (st : store) :
  holds r v st ->
  (b = true -> isinstance_dict v || isinstance_list v = true) ->
  exists st', when b (clear r) st = (Ok tt, st').
Proof.
  intros H Hb. destruct b; [|now exists st].
  specialize (Hb eq_refl). unfold when, clear.
  rewrite (bind_ok _ _ _ _ _ (load_holds r v st H)).
  destruct v; try discriminate.
  - destruct (save_holds r _ (VList []) st H) as (st' & Hs & _). eauto.
  - destruct (save_holds r _ (VDict []) st H) as (st' & Hs & _). eauto.
Qed.

Lemma grow_holds (r : ref) (xs : list value) (z : Z) (fill : value) (st : store) :
  holds r (VList xs) st ->
  exists st' xs', grow r (KInt z) fill st = (Ok tt, st') /\ holds r (VList xs') st'.
Proof.
  intros H. unfold grow. rewrite (bind_ok _ _ _ _ _ (load_holds r _ st H)).
  destruct (save_holds r _
              (VList (xs ++ repeat fill (Z.to_nat (z + 1 - Z.of_nat (List.length xs)))))
              st H) as (st' & Hs & Hh).
  eauto.
Qed.

(** The root defect: [get_value] and [set_value] have no branch for a list,
    and ask [hasattr] and [setattr] for an attribute whose name is an
    [int]. *)
Lemma get_value_list_index (r default : ref) (xs : list value) (z : Z) (st : store) :
  holds r (VList xs) st -> get_value r (KInt z) default st = (Raise TypeError, st).
Proof.
  intros H. unfold get_value. now rewrite (bind_ok _ _ _ _ _ (load_holds r _ st H)).
Qed.

Lemma set_value_list_index (r : ref) (xs : list value) (z : Z) (w : value) (st : store) :
  holds r (VList xs) st -> set_value r (KInt z) w st = (Raise TypeError, st).
Proof.
  intros H. unfold set_value. now rewrite (bind_ok _ _ _ _ _ (load_holds r _ st H)).
Qed.

Lemma has_key_dict (r : ref) (d : list (string * value)) (k : string) (st : store) :
  holds r (VDict d) st -> has_key r (KStr k) st = (Ok (is_some (assoc k d)), st).
Proof.
  intros H. unfold has_key. rewrite (bind_ok _ _ _ _ _ (load_holds r _ st H)).
  unfold ret. now destruct (assoc k d).
Qed.

Lemma get_value_dict (r default : ref) (d : list (string * value)) (k : string)
    (st : store) :
  holds r (VDict d) st ->
  get_value r (KStr k) default st
  = (Ok match assoc k d with Some _ => sub r (SKey k) | None => default end, st).
Proof.
  intros H. unfold get_value. now rewrite (bind_ok _ _ _ _ _ (load_holds r _ st H)).
Qed.

Lemma set_value_dict (r : ref) (d : list (string * value)) (k : string) (w : value)
    (st : store) :
  holds r (VDict d) st ->
  exists st', set_value r (KStr k) w st = (Ok tt, st')
              /\ holds r (VDict (set_assoc k w d)) st'.
Proof.
  intros H. unfold set_value, setitem.
  rewrite (bind_ok _ _ _ _ _ (load_holds r _ st H)).
  rewrite (bind_ok _ _ _ _ _ (load_holds r _ st H)).
  apply (save_holds r _ _ st H).
Qed.

(** [if not is_list_object(obj): obj.clear() if isinstance(obj, dict) else
    None; obj = []], and the same for a dict: the variable is bound to a
    new, empty container. *)
Lemma rebind (tst : value -> bool) (w : value) (r : ref) (v : value) (st : store) :
  holds r v st ->
  (tst v = true -> isinstance_dict v || isinstance_list v = true) ->
  exists r' st',
    (d <- test tst r ;; when d (clear r) ;; alloc w) st = (Ok r', st')
    /\ holds r' w st'.
Proof.
  intros H Ht.
  rewrite (bind_ok _ _ _ _ _ (test_holds tst r v st H)).
  destruct (when_clear (tst v) r v st H Ht) as (st1 & Hc).
  rewrite (bind_ok _ _ _ _ _ Hc).
  apply alloc_holds.
Qed.

End Objects.

Section IndexSegments.

Lemma parse_key_index (key : string) :
  parses key = true -> isdigit key = true ->
  exists z, _parse_key key None = Ok (true, KInt z).
Proof.
  intros Hp H. destruct (parse_key_default key Hp) as [[Hd _] | (z & _ & _ & Hk)];
    [congruence | eauto].
Qed.

(** A turn of the loop of [set] at an index segment raises, whatever the
    variable is bound to: the list it works on is the one found or a new
    one, and [get_value] is called on it with an [int]. *)
Lemma set_turn_index (cur : ref) (v : value) (k : string) (st : store) :
  holds cur v st -> parses k = true -> isdigit k = true ->
  exists st', set_turn cur k None st = (Raise TypeError, st').
Proof.
  intros H Hp Hk. destruct (parse_key_index k Hp Hk) as (z & Hz).
  unfold set_turn. unfold bind at 1, lift. rewrite Hz.
  rewrite (bind_ok _ _ _ _ _ (test_holds _ cur v st H)).
  assert (Hcur : exists c xs st1,
             (if negb (is_list_object v)
              then d <- test isinstance_dict cur ;; when d (clear cur) ;; alloc (VList [])
              else ret cur) st = (Ok c, st1) /\ holds c (VList xs) st1).
  { destruct (is_list_object v) eqn:Hl; cbn [negb].
    - destruct v; try discriminate. exists cur, xs, st. split; [reflexivity | exact H].
    - destruct (rebind isinstance_dict (VList []) cur v st H) as (c & st1 & Hb & Hc).
      + intros ->. reflexivity.
      + exists c, [], st1. auto. }
  destruct Hcur as (c & xs & st1 & Hb & Hc).
  rewrite (bind_ok _ _ _ _ _ Hb).
  destruct (grow_holds c xs z (VDict []) st1 Hc) as (st2 & xs' & Hg & Hc').
  rewrite (bind_ok _ _ _ _ _ Hg).
  exists st2. apply (get_value_list_index c RNone xs' z st2 Hc').
Qed.

(** A turn at a field does not raise, and moves the variable to a
    container. *)
Lemma set_turn_field_any (cur : ref) (v : value) (k : string) (st : store) :
  holds cur v st -> isdigit k = false ->
  exists cur' v' st',
    set_turn cur k None st = (Ok cur', st') /\ holds cur' v' st'.
Proof.
  intros H Hk.
  unfold set_turn. unfold bind at 1, lift. rewrite (parse_key_not_digits k Hk).
  rewrite (bind_ok _ _ _ _ _ (test_holds _ cur v st H)).
  assert (Hcur : exists c d st1,
             (if negb (is_dict_object v)
              then l <- test isinstance_list cur ;; when l (clear cur) ;; alloc (VDict [])
              else ret cur) st = (Ok c, st1) /\ holds c (VDict d) st1).
  { destruct (is_dict_object v) eqn:Hd; cbn [negb].
    - destruct v; try discriminate. exists cur, kvs, st. split; [reflexivity | exact H].
    - destruct (rebind isinstance_list (VDict []) cur v st H) as (c & st1 & Hb & Hc).
      + intros ->. apply orb_true_r.
      + exists c, [], st1. auto. }
  destruct Hcur as (c & d & st1 & Hb & Hc).
  rewrite (bind_ok _ _ _ _ _ Hb).
  rewrite (bind_ok _ _ _ _ _ (has_key_dict c d k st1 Hc)).
  assert (Hrenew : exists renew,
             (if negb (is_some (assoc k d)) then ret true
              else
                c0 <- get_value c (KStr k) RNone ;;
                cd <- test is_dict_object c0 ;;
                if cd then ret false
                else
                  c1 <- get_value c (KStr k) RNone ;;
                  cl <- test is_list_object c1 ;;
                  ret (negb cl)) st1 = (Ok renew, st1)).
  { destruct (assoc k d) as [x|] eqn:Hx; cbn [is_some negb]; [|now exists true].
    pose proof (holds_sub c d k x st1 Hc Hx) as Hsub.
    rewrite (bind_ok _ _ _ _ _ (get_value_dict c RNone d k st1 Hc)), Hx.
    rewrite (bind_ok _ _ _ _ _ (test_holds _ _ x st1 Hsub)).
    destruct (is_dict_object x); [now exists false|].
    rewrite (bind_ok _ _ _ _ _ (get_value_dict c RNone d k st1 Hc)), Hx.
    rewrite (bind_ok _ _ _ _ _ (test_holds _ _ x st1 Hsub)).
    now eexists. }
  destruct Hrenew as (renew & Hrenew).
  rewrite (bind_ok _ _ _ _ _ Hrenew).
  assert (Hset : exists d2 x st2,
             when renew (set_value c (KStr k) (VDict [])) st1 = (Ok tt, st2)
             /\ holds c (VDict d2) st2 /\ assoc k d2 = Some x).
  { destruct renew; cbn [when].
    - destruct (set_value_dict c d k (VDict []) st1 Hc) as (st2 & Hs & Hc2).
      exists (set_assoc k (VDict []) d), (VDict []), st2.
      repeat split; auto. apply assoc_set_assoc.
    - destruct (assoc k d) as [x|] eqn:Hx.
      + exists d, x, st1. repeat split; auto.
      + cbn [is_some negb] in Hrenew. discriminate. }
  destruct Hset as (d2 & x & st2 & Hs & Hc2 & Hx).
  rewrite (bind_ok _ _ _ _ _ Hs).
  rewrite (get_value_dict c RNone d2 k st2 Hc2), Hx.
  exists (sub c (SKey k)), x, st2. split; [reflexivity|].
  apply (holds_sub c d2 k x st2 Hc2 Hx).
Qed.

Lemma set_loop_any (keys : list string) :
  forall (cur : ref) (v : value) (st : store),
    holds cur v st ->
    forallb parses keys = true ->
    exists st',
      if has_index keys then set_loop cur keys None st = (Raise TypeError, st')
      else exists cur' v',
             set_loop cur keys None st = (Ok cur', st') /\ holds cur' v' st'.
Proof.
  induction keys as [|k keys IH]; intros cur v st H Hparse.
  - exists st. simpl. exists cur, v. split; [reflexivity | exact H].
  - cbn [forallb] in Hparse. apply andb_true_iff in Hparse as [Hp Hparse].
    cbn [set_loop has_index existsb]. destruct (isdigit k) eqn:Hk; cbn [orb].
    + destruct (set_turn_index cur v k st H Hp Hk) as (st' & Ht).
      exists st'. apply (bind_raise _ _ _ _ _ Ht).
    + destruct (set_turn_field_any cur v k st H Hk) as (cur' & v' & st1 & Ht & H').
      destruct (IH cur' v' st1 H' Hparse) as (st' & Hloop).
      exists st'. rewrite (bind_ok _ _ _ _ _ Ht). exact Hloop.
Qed.

Lemma has_index_last (keys : list string) :
  keys <> [] ->
  has_index keys = has_index (but_last keys) || isdigit (last_of keys).
Proof.
  intros H. rewrite (keys_but_last keys H) at 1.
  unfold has_index. rewrite existsb_app. simpl. now rewrite orb_false_r.
Qed.

(** [set] on a path with an index segment, from any store. *)
Lemma set_index_in (st : store) (s : string) (w : value) :
  forallb parses (split "." s) = true ->
  has_index (split "." s) = true ->
  exists st', set here (PStr s) w None st = (Raise TypeError, st').
Proof.
  intros Hparse Hi. cbn [set]. unfold set_one.
  set (keys := split "." s) in *.
  destruct (forallb_but_last parses keys Hparse) as [Hpp Hpl].
  specialize (Hpl (split_not_nil _ _)).
  rewrite (has_index_last keys) in Hi by apply split_not_nil.
  destruct (set_loop_any (but_last keys) here (root st) st (holds_here st) Hpp)
    as (st1 & Hloop).
  destruct (has_index (but_last keys)).
  - exists st1. apply (bind_raise _ _ _ _ _ Hloop).
  - destruct Hloop as (cur & v & Hloop & H). cbn [orb] in Hi.
    rewrite (bind_ok _ _ _ _ _ Hloop).
    destruct (parse_key_index _ Hpl Hi) as (z & Hz).
    unfold bind at 1, lift. rewrite Hz.
    rewrite (bind_ok _ _ _ _ _ (test_holds _ cur v st1 H)).
    assert (Hcur : exists c xs st2,
               (if negb (is_list_object v)
                then d <- test isinstance_dict cur ;; when d (clear cur) ;; alloc (VList [])
                else ret cur) st1 = (Ok c, st2) /\ holds c (VList xs) st2).
    { destruct (is_list_object v) eqn:Hl; cbn [negb].
      - destruct v; try discriminate. exists cur, xs, st1. split; [reflexivity | exact H].
      - destruct (rebind isinstance_dict (VList []) cur v st1 H) as (c & st2 & Hb & Hc).
        + intros ->. reflexivity.
        + exists c, [], st2. auto. }
    destruct Hcur as (c & xs & st2 & Hb & Hc).
    rewrite (bind_ok _ _ _ _ _ Hb).
    destruct (grow_holds c xs z VNone st2 Hc) as (st3 & xs' & Hg & Hc').
    rewrite (bind_ok _ _ _ _ _ Hg).
    exists st3. apply (set_value_list_index c xs' z w st3 Hc').
Qed.

End IndexSegments.

Section CreatingTraversal.

Lemma try_except_type_error {A} (m h : M A) (st st' : store) :
  m st = (Raise TypeError, st') -> try_except m h st = h st'.
Proof. intros H. unfold try_except. now rewrite H. Qed.

(** A turn of the creating traversal at an index segment returns [None]:
    the [TypeError] of [get_value] on the list is caught. *)
Lemma traverse_create_index_any (obj : ref) (v : value) (k : string) (st : store) :
  holds obj v st -> parses k = true -> isdigit k = true ->
  exists st', _traverse_turn obj k true None st = (Ok None, st').
Proof.
  intros H Hp Hk. destruct (parse_key_index k Hp Hk) as (z & Hz).
  unfold _traverse_turn. unfold bind at 1, lift. rewrite Hz.
  rewrite (bind_ok _ _ _ _ _ (test_holds _ obj v st H)).
  assert (Hobj : exists c xs st1,
             (if negb (is_list_object v)
              then d <- test isinstance_dict obj ;; when d (clear obj) ;;
                   fresh <- alloc (VList []) ;; ret (Some fresh)
              else ret (Some obj)) st = (Ok (Some c), st1) /\ holds c (VList xs) st1).
  { destruct (is_list_object v) eqn:Hl; cbn [negb].
    - destruct v; try discriminate. exists obj, xs, st. split; [reflexivity | exact H].
    - rewrite (bind_ok _ _ _ _ _ (test_holds _ obj v st H)).
      destruct (when_clear (isinstance_dict v) obj v st H) as (st1 & Hc).
      { intros ->. reflexivity. }
      rewrite (bind_ok _ _ _ _ _ Hc).
      destruct (alloc_holds (VList []) st1) as (c & st2 & Ha & Hh).
      rewrite (bind_ok _ _ _ _ _ Ha).
      exists c, [], st2. auto. }
  destruct Hobj as (c & xs & st1 & Hb & Hc).
  rewrite (bind_ok _ _ _ _ _ Hb). cbn [when].
  destruct (grow_holds c xs z (VDict []) st1 Hc) as (st2 & xs' & Hg & Hc').
  rewrite (bind_ok _ _ _ _ _ Hg).
  exists st2. apply try_except_type_error.
  apply bind_raise. apply (get_value_list_index c RNone xs' z st2 Hc').
Qed.

(** A turn at a field does not raise and moves the variable to the field,
    which it makes an empty dict when it is missing. *)
Lemma traverse_create_field_any (obj : ref) (v : value) (k : string) (st : store) :
  holds obj v st -> isdigit k = false ->
  exists r x st',
    _traverse_turn obj k true None st = (Ok (Some r), st') /\ holds r x st'.
Proof.
  intros H Hk.
  unfold _traverse_turn. unfold bind at 1, lift. rewrite (parse_key_not_digits k Hk).
  rewrite (bind_ok _ _ _ _ _ (test_holds _ obj v st H)).
  assert (Hobj : exists c d st1,
             (if negb (is_dict_object v)
              then l <- test isinstance_list obj ;; when l (clear obj) ;;
                   fresh <- alloc (VDict []) ;; ret (Some fresh)
              else ret (Some obj)) st = (Ok (Some c), st1) /\ holds c (VDict d) st1).
  { destruct (is_dict_object v) eqn:Hd; cbn [negb].
    - destruct v; try discriminate. exists obj, kvs, st. split; [reflexivity | exact H].
    - rewrite (bind_ok _ _ _ _ _ (test_holds _ obj v st H)).
      destruct (when_clear (isinstance_list v) obj v st H) as (st1 & Hc).
      { intros ->. apply orb_true_r. }
      rewrite (bind_ok _ _ _ _ _ Hc).
      destruct (alloc_holds (VDict []) st1) as (c & st2 & Ha & Hh).
      rewrite (bind_ok _ _ _ _ _ Ha).
      exists c, [], st2. auto. }
  destruct Hobj as (c & d & st1 & Hb & Hc).
  rewrite (bind_ok _ _ _ _ _ Hb).
  rewrite (bind_ok _ _ _ _ _ (has_key_dict c d k st1 Hc)).
  assert (Hset : exists d2 x st2,
             when (true && negb (is_some (assoc k d))) (set_value c (KStr k) (VDict [])) st1
             = (Ok tt, st2)
             /\ holds c (VDict d2) st2 /\ assoc k d2 = Some x).
  { destruct (assoc k d) as [x|] eqn:Hx; cbn [is_some negb andb when].
    - exists d, x, st1. repeat split; auto.
    - destruct (set_value_dict c d k (VDict []) st1 Hc) as (st2 & Hs & Hc2).
      exists (set_assoc k (VDict []) d), (VDict []), st2.
      repeat split; auto. apply assoc_set_assoc. }
  destruct Hset as (d2 & x & st2 & Hs & Hc2 & Hx).
  rewrite (bind_ok _ _ _ _ _ Hs).
  rewrite (bind_ok _ _ _ _ _ (get_value_dict c RNone d2 k st2 Hc2)), Hx.
  exists (sub c (SKey k)), x, st2. split; [reflexivity|].
  apply (holds_sub c d2 k x st2 Hc2 Hx).
Qed.

(** On segments that parse, the creating traversal does not raise; on a
    path with an index segment it returns [None]. *)
Lemma traverse_create_any (keys : list string) :
  forall (obj : ref) (v : value) (st : store),
    holds obj v st ->
    forallb parses keys = true ->
    exists t st',
      _traverse obj keys true None st = (Ok t, st')
      /\ (has_index keys = true -> t = RNone)
      /\ (t = RNone \/ exists x, holds t x st').
Proof.
  induction keys as [|k keys IH]; intros obj v st H Hparse.
  - exists obj, st. repeat split; [discriminate | right; eauto].
  - cbn [forallb] in Hparse. apply andb_true_iff in Hparse as [Hp Hparse].
    cbn [_traverse has_index existsb]. destruct (isdigit k) eqn:Hk; cbn [orb].
    + destruct (traverse_create_index_any obj v k st H Hp Hk) as (st' & Ht).
      exists RNone, st'. rewrite (bind_ok _ _ _ _ _ Ht). repeat split; auto.
    + destruct (traverse_create_field_any obj v k st H Hk) as (r & x & st1 & Ht & Hr).
      rewrite (bind_ok _ _ _ _ _ Ht).
      rewrite (bind_ok _ _ _ _ _ (test_holds _ r x st1 Hr)).
      destruct (is_none x).
      * exists RNone, st1. repeat split; auto.
      * apply (IH r x st1 Hr Hparse).
Qed.

End CreatingTraversal.

(** X11.  Under the default [index_prefix], [set] raises a [TypeError] on
    every path whose segments parse and that has an index segment (a
    segment of digits), whatever the root and the value are.  (On a segment
    of digits that [int] does not read, it is [_parse_key] that raises, a
    [ValueError].) *)
Theorem set_on_index_path_raises :
  forall (r : value) (s : string) (w : value),
    forallb parses (split "." s) = true ->
    has_index (split "." s) = true ->
    exists r', run (set here (PStr s) w None) r = (Raise TypeError, r').
Proof.
  intros r s w Hp Hi.
  destruct (set_index_in (init r) s w Hp Hi) as (st' & Hset).
  exists (root st'). unfold run. now rewrite Hset.
Qed.

Lemma set_on_index_path_raises_witness :
  exists r', run (set here (PStr "users.0.name") (VStr "x") None)
                 (VDict [("users", VList [VDict [("name", VStr "a")]])])
             = (Raise TypeError, r').
Proof.
  apply (set_on_index_path_raises
           (VDict [("users", VList [VDict [("name", VStr "a")]])]) "users.0.name");
    reflexivity.
Defined.

(** X12.  Under the default [index_prefix], [push] raises a [TypeError] on
    every path whose segments parse and that has an index segment: the
    creating traversal returns [None] at the segment, and the [set] that
    [push] falls back to raises. *)
Theorem push_on_index_path_raises :
  forall (r : value) (s : string) (w : value),
    forallb parses (split "." s) = true ->
    has_index (split "." s) = true ->
    exists r', run (push here (PStr s) w None) r = (Raise TypeError, r').
Proof.
  intros r s w Hp Hi. unfold run. cbn [push]. unfold push_one.
  destruct (traverse_create_any (split "." s) here r (init r) (holds_here (init r)) Hp)
    as (t & st1 & Ht & Hnone & _).
  rewrite (bind_ok _ _ _ _ _ Ht), (Hnone Hi).
  unfold bind at 1, test, bind, load, ret. cbn [is_list_object isinstance_list].
  destruct (set_index_in st1 s (VList [w]) Hp Hi) as (st' & Hset).
  rewrite Hset. eauto.
Qed.

Lemma push_on_index_path_raises_witness :
  exists r', run (push here (PStr "rows.1") (VInt 4) None)
                 (VDict [("rows", VList [VList [VInt 1]; VList [VInt 2]])])
             = (Raise TypeError, r').
Proof.
  apply (push_on_index_path_raises
           (VDict [("rows", VList [VList [VInt 1]; VList [VInt 2]])]) "rows.1");
    reflexivity.
Defined.

(** ** The read-only side of index segments *)

Section ReadOnlyIndex.

Lemma trav_index (keys : list string) :
  forall cur, has_index keys = true -> trav cur keys = None.
Proof.
  induction keys as [|k keys IH]; intros cur H; [discriminate|].
  cbn [has_index existsb trav] in *. destruct (isdigit k); [reflexivity|].
  cbn [orb] in H. destruct cur; try reflexivity.
  destruct (assoc k kvs) as [c|]; [|reflexivity].
  destruct (is_none c); [reflexivity|].
  now rewrite (IH c H).
Qed.

Lemma trav_prefix (pk : list string) :
  forall cur rest, trav cur pk = None -> trav cur (pk ++ rest) = None.
Proof.
  induction pk as [|k pk IH]; intros cur rest H; [discriminate|].
  cbn [trav app] in *. destruct (isdigit k); [reflexivity|].
  destruct cur; try reflexivity.
  destruct (assoc k kvs) as [c|]; [|reflexivity].
  destruct (is_none c); [reflexivity|].
  destruct (trav c pk) eqn:E; [discriminate|].
  now rewrite (IH c rest E).
Qed.

End ReadOnlyIndex.

(** X13.  Under the default [index_prefix], [get] returns the default on
    every path whose segments parse and that has an index segment, whatever
    the root holds there and whatever the query is, and changes nothing:
    the read-only traversal gives up at the segment. *)
Theorem get_through_index_is_default :
  forall (r : value) (s : string) (default query : value),
    forallb parses (split "." s) = true ->
    has_index (split "." s) = true ->
    run (get here (PStr s) default None query) r = (Ok default, r).
Proof.
  intros r s default query Hp Hi.
  unfold run. cbn [get]. unfold bind, here.
  rewrite (traverse_read_only _ [] (init r) r eq_refl Hp).
  rewrite (trav_index _ r Hi). reflexivity.
Qed.

Lemma get_through_index_is_default_witness :
  let r := VDict [("a", VList [VInt 1; VInt 2; VInt 3])] in
  run (get here (PStr "a.1") (VStr "none") None VNone) r = (Ok (VStr "none"), r).
Proof.
  apply (get_through_index_is_default
           (VDict [("a", VList [VInt 1; VInt 2; VInt 3])]) "a.1"); reflexivity.
Defined.

(** X14.  Under the default [index_prefix], [delete] and [pull] change
    nothing and do not raise on a path whose segments parse and that has an
    index segment before its last segment: the traversal to the parent
    gives up at the segment. *)
Theorem delete_and_pull_through_index_do_nothing :
  forall (r : value) (s : string) (val index : value),
    forallb parses (split "." s) = true ->
    has_index (but_last (split "." s)) = true ->
    run (delete here (PStr s) None) r = (Ok tt, r)
    /\ run (pull here (PStr s) val index None) r = (Ok tt, r).
Proof.
  intros r s val index Hp Hi. split.
  - rewrite (delete_spec r s Hp). unfold deleted. now rewrite (trav_index _ r Hi).
  - unfold run. cbn [pull]. unfold pull_one, pull_target.
    unfold bind, here.
    rewrite (traverse_read_only _ [] (init r) r eq_refl
               (proj1 (forallb_but_last parses _ Hp))).
    rewrite (trav_index _ r Hi). reflexivity.
Qed.

Lemma delete_and_pull_through_index_do_nothing_witness :
  let r := VDict [("a", VList [VDict [("l", VList [VInt 1])]])] in
  run (delete here (PStr "a.0.l") None) r = (Ok tt, r)
  /\ run (pull here (PStr "a.0.l") (VInt 1) VNone None) r = (Ok tt, r).
Proof.
  apply (delete_and_pull_through_index_do_nothing
           (VDict [("a", VList [VDict [("l", VList [VInt 1])]])]) "a.0.l");
    reflexivity.
Defined.

(** ** What [get] and [has] never do *)

Section ReadOnly.

Lemma ro_ret {A} (a : A) : read_only (ret a).
Proof. intros st. reflexivity. Qed.

Lemma ro_raise {A} (e : exc) : read_only (@raise A e).
Proof. intros st. reflexivity. Qed.

Lemma ro_lift {A} (r : result A) : read_only (lift r).
Proof. intros st. reflexivity. Qed.

Lemma ro_load (r : ref) : read_only (load r).
Proof.
  intros st. unfold load. destruct r as [|b p]; [reflexivity|].
  destruct b; [|destruct (nth_error (locals st) n); [|reflexivity]];
    destruct (lookup_path _ p); reflexivity.
Qed.

Lemma ro_bind {A B} (m : M A) (f : A -> M B) :
  read_only m -> (forall a, read_only (f a)) -> read_only (bind m f).
Proof.
  intros Hm Hf st. unfold bind. specialize (Hm st).
  destruct (m st) as [[a|e] st']; simpl in Hm; subst st'; [apply Hf | reflexivity].
Qed.

Lemma ro_try_except {A} (m h : M A) :
  read_only m -> read_only h -> read_only (try_except m h).
Proof.
  intros Hm Hh st. unfold try_except. specialize (Hm st).
  destruct (m st) as [[a|[]] st']; simpl in Hm; subst st'; try reflexivity; apply Hh.
Qed.

Ltac ro_step :=
  first [ apply ro_ret | apply ro_raise | apply ro_lift | apply ro_load
        | apply ro_try_except
        | apply ro_bind; [|intro]
        | match goal with
          | |- read_only (match ?x with _ => _ end) => destruct x
          end ].

Lemma ro_test (f : value -> bool) (r : ref) : read_only (test f r).
Proof. unfold test. repeat ro_step. Qed.

Lemma ro_get_value (obj : ref) (k : key_t) (default : ref) :
  read_only (get_value obj k default).
Proof. unfold get_value. repeat ro_step. Qed.

Lemma ro_has_key (obj : ref) (k : key_t) : read_only (has_key obj k).
Proof. unfold has_key. repeat ro_step. Qed.

Lemma ro_getitem (obj : ref) (k : key_t) : read_only (getitem obj k).
Proof. unfold getitem. repeat ro_step. Qed.

Ltac ro :=
  repeat first [ apply ro_test | apply ro_get_value | apply ro_has_key
               | apply ro_getitem | ro_step ].

(** Without [create_missing], a turn of the traversal writes nothing,
    under any [index_prefix], from any object. *)
Lemma ro_traverse_turn (obj : ref) (key : string) (index_prefix : option string) :
  read_only (_traverse_turn obj key false index_prefix).
Proof. unfold _traverse_turn, when. cbn [andb]. ro. Qed.

Lemma ro_traverse (keys : list string) (index_prefix : option string) :
  forall obj, read_only (_traverse obj keys false index_prefix).
Proof.
  induction keys as [|key keys IH]; intros obj; cbn [_traverse]; [apply ro_ret|].
  apply ro_bind; [apply ro_traverse_turn|]. intros [r|]; [|apply ro_ret].
  apply ro_bind; [apply ro_test|]. intros []; [apply ro_ret | apply IH].
Qed.

Lemma ro_has_loop (keys : list string) (index_prefix : option string) :
  forall current, read_only (has_loop current keys index_prefix).
Proof.
  induction keys as [|key keys IH]; intros current; cbn [has_loop]; [apply ro_ret|].
  apply ro_bind; [apply ro_lift|]. intros [is_index k].
  destruct is_index.
  - apply ro_bind; [apply ro_test|]. intros []; cbn [negb]; [|apply ro_ret].
    apply ro_bind; [ro|]. intros [c|]; [apply IH | apply ro_ret].
  - apply ro_bind; [apply ro_test|]. intros d.
    apply ro_bind; [destruct d; ro|]. intros h.
    destruct (negb d || negb h); [apply ro_ret|].
    apply ro_bind; [apply ro_get_value | apply IH].
Qed.

Lemma path_nested_ind (P : path -> Prop) :
  (forall s, P (PStr s)) ->
  (forall ps, Forall P ps -> P (PList ps)) ->
  forall p, P p.
Proof.
  intros HS HL. fix IH 1. intros [s|ps]; [apply HS|].
  apply HL. induction ps as [|p ps IHps]; constructor; [apply IH | exact IHps].
Qed.

Lemma ro_get (obj : ref) (default : value) (index_prefix : option string)
    (query : value) :
  forall p, read_only (get obj p default index_prefix query).
Proof.
  apply path_nested_ind.
  - intros s. cbn [get].
    apply ro_bind; [apply ro_traverse|]. intros r.
    apply ro_bind; [apply ro_load|]. intros result.
    apply ro_bind; [|intros; apply ro_ret].
    destruct (negb (is_none result) && negb (is_none query)); [|apply ro_ret].
    destruct result; ro.
  - intros ps Hps. cbn [get].
    apply ro_bind; [|intros; apply ro_ret].
    induction Hps as [|p ps Hp Hps IH]; [apply ro_ret|].
    apply ro_bind; [exact Hp|]. intros v.
    apply ro_bind; [exact IH|]. intros vs. apply ro_ret.
Qed.

Lemma ro_has (obj : ref) (index_prefix : option string) :
  forall p, read_only (has obj p index_prefix).
Proof.
  apply path_nested_ind.
  - intros s. cbn [has].
    apply ro_bind; [apply ro_has_loop|]. intros b. apply ro_ret.
  - intros ps Hps. cbn [has].
    apply ro_bind; [|intros; apply ro_ret].
    induction Hps as [|p ps Hp Hps IH]; [apply ro_ret|].
    apply ro_bind; [exact Hp|]. intros v.
    apply ro_bind; [exact IH|]. intros vs. apply ro_ret.
Qed.

Lemma run_read_only {A} (m : M A) (r : value) :
  read_only m -> snd (run m r) = r.
Proof.
  intros H. unfold run. specialize (H (init r)).
  destruct (m (init r)) as [a st]. simpl in *. now subst st.
Qed.

End ReadOnly.

(** X15.  [get] never changes the root: for every root, every path or list
    of paths (lists within lists too), every default, every [index_prefix]
    and every query, the root after the call is the root before it, whether
    [get] returns or raises. *)
Theorem get_changes_nothing :
  forall (r : value) (p : path) (default : value) (index_prefix : option string)
         (query : value),
    snd (run (get here p default index_prefix query) r) = r.
Proof. intros. apply run_read_only, ro_get. Qed.

(** X16.  [has] never changes the root: for every root, every path or list
    of paths and every [index_prefix], the root after the call is the root
    before it, whether [has] returns or raises. *)
Theorem has_changes_nothing :
  forall (r : value) (p : path) (index_prefix : option string),
    snd (run (has here p index_prefix) r) = r.
Proof. intros. apply run_read_only, ro_has. Qed.

(** X17.  For a list of paths whose segments parse, [delete] is the
    deletions of the paths one after the other, each on what the one before
    left, and it does not raise; [unset] does the same. *)
Theorem delete_batch :
  forall (r : value) (ss : list string),
    forallb (fun s => forallb parses (split "." s)) ss = true ->
    run (delete here (PList (map PStr ss)) None) r
    = (Ok tt, fold_left (fun r' s => deleted r' (split "." s)) ss r)
    /\ run (unset here (PList (map PStr ss)) None) r
       = (Ok tt, fold_left (fun r' s => deleted r' (split "." s)) ss r).
Proof.
  intros r ss Hp.
  assert (H : run (delete here (PList (map PStr ss)) None) r
              = (Ok tt, fold_left (fun r' s => deleted r' (split "." s)) ss r));
    [|split; exact H].
  unfold run. cbn [delete].
  set (each := fix each (ps : list path) : M unit :=
                 match ps with
                 | [] => ret tt
                 | p :: ps' => delete here p None ;; each ps'
                 end).
  assert (H : forall st,
             each (map PStr ss) st
             = (Ok tt, mkStore (fold_left (fun r' s => deleted r' (split "." s)) ss (root st))
                               (locals st))).
  { induction ss as [|s ss IH]; intros st; [now destruct st|].
    cbn [forallb] in Hp. apply andb_true_iff in Hp as [Hs Hp].
    cbn [map fold_left]. change (each (PStr s :: map PStr ss))
      with (delete here (PStr s) None ;; each (map PStr ss)).
    rewrite (bind_ok _ _ _ _ _ (delete_in st s Hs)).
    now rewrite (IH Hp). }
  now rewrite H.
Qed.

Lemma delete_batch_witness :
  let r := VDict [("a", VInt 1); ("l", VList [VInt 1; VInt 2; VInt 3])] in
  run (delete here (PList [PStr "l.0"; PStr "l.0"; PStr "a"]) None) r
  = (Ok tt, VDict [("l", VList [VInt 3])])
  /\ run (unset here (PList [PStr "l.0"; PStr "l.0"; PStr "a"]) None) r
     = (Ok tt, VDict [("l", VList [VInt 3])]).
Proof.
  apply (delete_batch (VDict [("a", VInt 1); ("l", VList [VInt 1; VInt 2; VInt 3])])
           ["l.0"; "l.0"; "a"]).
  reflexivity.
Defined.

(** ** What [get] and [has] say after each other and after [delete] *)

Section ReadAfter.

Lemma value_at_absent (r : value) (keys : list string) :
  lookup_path r (map SKey keys) = None -> value_at r keys = VNone.
Proof.
  intros H. unfold value_at.
  destruct (trav r keys) as [q|] eqn:Hq; [|reflexivity].
  destruct (trav_steps _ _ _ Hq) as (-> & _ & v & Hv & _). congruence.
Qed.

Lemma value_at_deleted (r : value) (keys : list string) :
  keys <> [] -> value_at (deleted r keys) keys = VNone.
Proof.
  intros Hne.
  destruct (has_index keys) eqn:Hi.
  { unfold value_at. now rewrite (trav_index keys _ Hi). }
  assert (Hkeys := keys_but_last keys Hne).
  rewrite (has_index_last keys Hne) in Hi. apply orb_false_iff in Hi as [_ Hl].
  unfold deleted. rewrite (parse_key_not_digits _ Hl).
  set (pk := but_last keys) in *. set (lk := last_of keys) in *.
  destruct (trav r pk) as [q|] eqn:Hq.
  - destruct (trav_steps _ _ _ Hq) as (-> & _ & pv & Hpv & _). rewrite Hpv.
    apply value_at_absent. rewrite Hkeys, map_app, lookup_path_app. cbn [map].
    destruct pv; rewrite ?Hpv; try reflexivity.
    rewrite (lookup_update_path _ r _ (VDict (del_assoc lk kvs)) Hpv).
    simpl. now rewrite assoc_del_assoc.
  - unfold value_at. rewrite Hkeys. now rewrite (trav_prefix pk r [lk] Hq).
Qed.

Lemma trav_some_fields (keys : list string) :
  forall cur q, trav cur keys = Some q -> forallb is_field keys = true.
Proof.
  induction keys as [|k keys IH]; intros cur q H; [reflexivity|].
  cbn [trav forallb] in *. unfold is_field at 1.
  destruct (isdigit k); [discriminate|].
  destruct cur; try discriminate.
  destruct (assoc k kvs) as [c|]; [|discriminate].
  destruct (is_none c); [discriminate|].
  destruct (trav c keys) as [q'|] eqn:Hq; [|discriminate].
  simpl. apply (IH c q' Hq).
Qed.

End ReadAfter.

(** X18.  After [delete], [get] returns the default: for every root and
    every path whose segments parse, under the default [index_prefix],
    [delete] followed by [get] on the same path does not raise and returns
    the default. *)
Theorem delete_then_get_is_default :
  forall (r : value) (s : string) (default : value),
    forallb parses (split "." s) = true ->
    run (delete here (PStr s) None ;; get here (PStr s) default None VNone) r
    = (Ok default, deleted r (split "." s)).
Proof.
  intros r s default Hp. unfold run.
  rewrite (bind_ok _ _ _ _ _ (delete_in (init r) s Hp)).
  rewrite (get_in _ s default Hp). cbn [root init].
  now rewrite (value_at_deleted r (split "." s) (split_not_nil _ _)).
Qed.

Lemma delete_then_get_is_default_witness :
  run (delete here (PStr "a.b") None ;; get here (PStr "a.b") (VInt 0) None VNone)
      (VDict [("a", VDict [("b", VInt 1); ("c", VInt 2)])])
  = (Ok (VInt 0), VDict [("a", VDict [("c", VInt 2)])]).
Proof.
  apply (delete_then_get_is_default
           (VDict [("a", VDict [("b", VInt 1); ("c", VInt 2)])]) "a.b" (VInt 0)).
  reflexivity.
Defined.

(** X19.  Where [get] finds something, [has] answers [True]: when [get]
    with the default [None] returns a value that is not [None], every
    segment of the path resolves.  (The converse fails where [None] is
    stored and on index segments.) *)
Theorem get_found_implies_has :
  forall (r : value) (s : string) (v : value),
    run (get here (PStr s) VNone None VNone) r = (Ok v, r) ->
    is_none v = false ->
    run (has here (PStr s) None) r = (Ok (VBool true), r).
Proof.
  intros r s v Hget Hn.
  destruct (get_found r r s v Hget Hn) as [Hq Hv].
  pose proof (trav_some_fields _ _ _ Hq) as Hf.
  rewrite (has_spec r s (fields_parse _ Hf)), (steps_of_fields _ Hf), Hv.
  reflexivity.
Qed.

Lemma get_found_implies_has_witness :
  let r := VDict [("a", VDict [("b", VInt 3)])] in
  run (has here (PStr "a.b") None) r = (Ok (VBool true), r).
Proof.
  apply (get_found_implies_has (VDict [("a", VDict [("b", VInt 3)])]) "a.b" (VInt 3));
    reflexivity.
Defined.

(** ** What [set] writes on paths of fields *)

Section SetExact.

Lemma bind_assoc {A B C} (m : M A) (f : A -> M B) (g : B -> M C) (st : store) :
  bind (bind m f) g st = bind m (fun a => bind (f a) g) st.
Proof. unfold bind. destruct (m st) as [[a|e] st']; reflexivity. Qed.

Lemma bind_ext {A B} (m : M A) (f g : A -> M B) (st : store) :
  (forall a st', f a st' = g a st') -> bind m f st = bind m g st.
Proof. intros H. unfold bind. destruct (m st) as [[a|e] st']; auto. Qed.

(** On a last segment that is a field, [set] is its loop followed by
    [set_value]: the test of line 173 never fails. *)
Lemma set_one_field_last (obj : ref) (s : string) (w : value) (st : store) :
  is_field (last_of (split "." s)) = true ->
  set_one obj s w None st
  = (current <- set_loop obj (but_last (split "." s)) None ;;
     set_value current (KStr (last_of (split "." s))) w) st.
Proof.
  intros Hl. unfold set_one. apply bind_ext. intros cur st'.
  unfold bind at 1, lift. rewrite (parse_key_field _ Hl).
  reflexivity.
Qed.

Lemma set_loop_put (keys : list string) (lk : string) (w : value) :
  forall (p : list step) (st : store) (d : list (string * value)),
    lookup_path (root st) p = Some (VDict d) ->
    forallb is_field keys = true ->
    dicts_along (VDict d) keys = true ->
    (current <- set_loop (RAt Root p) keys None ;; set_value current (KStr lk) w) st
    = (Ok tt, mkStore (update_path (root st) p (put (VDict d) keys lk w)) (locals st)).
Proof.
  induction keys as [|k keys IH]; intros p st d Hp Hf Hd.
  - cbn [set_loop put]. unfold set_value, setitem, save, bind, ret.
    now rewrite !(load_root _ _ _ Hp).
  - simpl in Hf. apply andb_true_iff in Hf as [Hk Hf].
    cbn [set_loop]. rewrite bind_assoc.
    rewrite (bind_ok _ _ _ _ _ (set_turn_field p k st d Hp Hk)).
    assert (Hmade :
      (current <- set_loop (RAt Root (p ++ [SKey k])) keys None ;;
       set_value current (KStr lk) w)
        (mkStore (update_path (root st) p (VDict (set_assoc k (VDict []) d))) (locals st))
      = (Ok tt, mkStore (update_path (root st) p
                           (VDict (set_assoc k (put (VDict []) keys lk w) d)))
                        (locals st))).
    { set (st1 := mkStore (update_path (root st) p (VDict (set_assoc k (VDict []) d)))
                          (locals st)).
      assert (Hp1 : lookup_path (root st1) p = Some (VDict (set_assoc k (VDict []) d)))
        by (apply (lookup_update_path p _ _ _ Hp)).
      assert (Hc : lookup_path (root st1) (p ++ [SKey k]) = Some (VDict []))
        by (rewrite lookup_path_app, Hp1; simpl; now rewrite assoc_set_assoc).
      rewrite (IH _ st1 [] Hc Hf (dicts_along_empty keys)).
      rewrite <- (update_path_field p _ _ k (VDict []) _ Hp1 (assoc_set_assoc _ _ _)).
      subst st1; cbn [root locals].
      now rewrite (update_path_twice p _ _ _ _ Hp), set_assoc_twice. }
    cbn [put dicts_along] in *.
    destruct (assoc k d) as [c|] eqn:Hkd; [|exact Hmade].
    destruct c as [| | | | |dc]; try discriminate; try exact Hmade.
    assert (Hc : lookup_path (root st) (p ++ [SKey k]) = Some (VDict dc))
      by (rewrite lookup_path_app, Hp; simpl; now rewrite Hkd).
    rewrite (IH _ st dc Hc Hf Hd).
    now rewrite (update_path_field p _ d k (VDict dc) _ Hp Hkd).
Qed.

(** [set] on a path of fields along dicts leaves [put]. *)
Lemma set_put_in (st : store) (s : string) (w : value) :
  forallb is_field (split "." s) = true ->
  dicts_along (root st) (but_last (split "." s)) = true ->
  set here (PStr s) w None st
  = (Ok tt, mkStore (put (root st) (but_last (split "." s)) (last_of (split "." s)) w)
                    (locals st)).
Proof.
  intros Hf Hd. cbn [set].
  set (keys := split "." s) in *.
  assert (Hkeys : keys = but_last keys ++ [last_of keys])
    by (apply keys_but_last, split_not_nil).
  rewrite Hkeys, forallb_app in Hf. apply andb_true_iff in Hf as [Hfp Hfl].
  simpl in Hfl. rewrite andb_true_r in Hfl.
  rewrite (set_one_field_last here s w st Hfl). fold keys.
  destruct (root st) as [| | | | |d] eqn:Hr; try (destruct (but_last keys); discriminate).
  assert (Hr' : lookup_path (root st) [] = Some (VDict d)) by (simpl; now rewrite Hr).
  unfold here. rewrite (set_loop_put _ _ w [] st d Hr' Hfp Hd). reflexivity.
Qed.

End SetExact.

Section PutFacts.

Lemma assoc_set_assoc_other (k k' : string) (v : value) (d : list (string * value)) :
  String.eqb k' k = false -> assoc k' (set_assoc k v d) = assoc k' d.
Proof.
  intros Hne. induction d as [|[k0 x] d IH]; simpl.
  - now rewrite Hne.
  - destruct (String.eqb k k0) eqn:E; simpl.
    + apply String.eqb_eq in E. subst k0. now rewrite Hne.
    + now rewrite IH.
Qed.

Lemma del_set_assoc (k : string) (v : value) (d : list (string * value)) :
  del_assoc k (set_assoc k v d) = del_assoc k d.
Proof.
  induction d as [|[k0 x] d IH]; simpl.
  - now rewrite String.eqb_refl.
  - destruct (String.eqb k k0) eqn:E; simpl; rewrite E; [reflexivity | now rewrite IH].
Qed.

Lemma put_is_dict (d : list (string * value)) (keys : list string) (lk : string)
    (w : value) :
  exists d', put (VDict d) keys lk w = VDict d'.
Proof. destruct keys; simpl; eauto. Qed.

Lemma dicts_along_put (keys : list string) (lk : string) (w : value) :
  forall d, dicts_along (put (VDict d) keys lk w) keys = true.
Proof.
  induction keys as [|k keys IH]; intros d; [reflexivity|].
  cbn [put dicts_along]. rewrite assoc_set_assoc.
  set (c := match assoc k d with Some (VDict d') => VDict d' | _ => VDict [] end).
  assert (Hc : exists dc, c = VDict dc).
  { subst c. destruct (assoc k d) as [[]|]; eauto. }
  destruct Hc as (dc & ->).
  specialize (IH dc). destruct (put_is_dict dc keys lk w) as (dx & Hx).
  rewrite Hx in *. exact IH.
Qed.

(** The last write wins, and the one before leaves no trace. *)
Lemma put_twice (keys : list string) (lk : string) (v1 v2 : value) :
  forall r, put (put r keys lk v1) keys lk v2 = put r keys lk v2.
Proof.
  induction keys as [|k keys IH]; intros r; destruct r as [| | | | |d]; try reflexivity.
  - cbn [put]. now rewrite set_assoc_twice.
  - cbn [put]. rewrite assoc_set_assoc, set_assoc_twice.
    set (c := match assoc k d with Some (VDict d') => VDict d' | _ => VDict [] end).
    assert (Hc : exists dc, c = VDict dc).
    { subst c. destruct (assoc k d) as [[]|]; eauto. }
    destruct Hc as (dc & ->).
    destruct (put_is_dict dc keys lk v1) as (dx & Hx).
    rewrite Hx, <- Hx. now rewrite IH.
Qed.

Lemma dicts_along_present (keys : list string) :
  forall r d, lookup_path r (map SKey keys) = Some (VDict d) -> dicts_along r keys = true.
Proof.
  induction keys as [|k keys IH]; intros r d H; simpl in H.
  - now injection H as ->.
  - destruct r as [| | | | |dr]; try discriminate. simpl in H. cbn [dicts_along].
    destruct (assoc k dr) as [c|]; [|discriminate].
    specialize (IH c d H). destruct c; try reflexivity; [|exact IH].
    destruct keys; simpl in H; discriminate.
Qed.

(** Where the parent is present, [put] changes the parent only. *)
Lemma put_present (keys : list string) (lk : string) (w : value) :
  forall r d,
    lookup_path r (map SKey keys) = Some (VDict d) ->
    put r keys lk w = update_path r (map SKey keys) (VDict (set_assoc lk w d)).
Proof.
  induction keys as [|k keys IH]; intros r d H; simpl in H.
  - now injection H as ->.
  - destruct r as [| | | | |dr]; try discriminate. simpl in H.
    cbn [put map update_path].
    destruct (assoc k dr) as [c|] eqn:Hc; [|discriminate].
    assert (Hcd : exists dc, c = VDict dc).
    { destruct keys; simpl in H; [injection H as ->; eauto|].
      destruct c; try discriminate. eauto. }
    destruct Hcd as (dc & ->).
    now rewrite (IH (VDict dc) d H).
Qed.

Lemma value_at_cons (d : list (string * value)) (k : string) (ks : list string) :
  value_at (VDict d) (k :: ks)
  = if isdigit k then VNone
    else match assoc k d with
         | Some c => if is_none c then VNone else value_at c ks
         | None => VNone
         end.
Proof.
  unfold value_at. cbn [trav]. destruct (isdigit k); [reflexivity|].
  destruct (assoc k d) as [c|] eqn:Hc; [|reflexivity].
  destruct (is_none c); [reflexivity|].
  destruct (trav c ks) as [q|]; [|reflexivity].
  simpl. now rewrite Hc.
Qed.

Lemma value_at_no_dict (x : value) (ks : list string) :
  isinstance_dict x = false -> ks <> [] -> value_at x ks = VNone.
Proof.
  intros Hx Hne. destruct ks as [|k ks]; [congruence|].
  unfold value_at. cbn [trav]. destruct (isdigit k); [reflexivity|].
  destruct x; try reflexivity. discriminate.
Qed.

Lemma value_at_empty_dict (ks : list string) :
  ks <> [] -> value_at (VDict []) ks = VNone.
Proof.
  intros Hne. destruct ks as [|k ks]; [congruence|].
  rewrite value_at_cons. now destruct (isdigit k).
Qed.

Lemma diverge_not_nil (p q : list string) : diverge p q = true -> q <> [].
Proof. destruct p, q; simpl; congruence. Qed.

(** [put] leaves what [get] finds on a path that parts ways with the
    path written. *)
Lemma put_frame (pk : list string) (lk : string) (w : value) :
  forall (r : value) (q : list string),
    diverge (pk ++ [lk]) q = true ->
    forallb is_field (pk ++ [lk]) = true ->
    dicts_along r pk = true ->
    value_at (put r pk lk w) q = value_at r q.
Proof.
  induction pk as [|k pk IH]; intros r q Hdiv Hf Hd;
    destruct r as [| | | | |d]; try discriminate;
    destruct q as [|b q]; try discriminate;
    cbn [app diverge] in Hdiv; cbn [put]; rewrite !value_at_cons.
  - destruct (String.eqb lk b) eqn:E; [destruct q; discriminate|].
    rewrite assoc_set_assoc_other; [reflexivity|].
    now rewrite String.eqb_sym.
  - simpl in Hf. apply andb_true_iff in Hf as [Hk Hf].
    destruct (String.eqb k b) eqn:E.
    + apply String.eqb_eq in E. subst b.
      unfold is_field in Hk. apply negb_true_iff in Hk. rewrite Hk.
      rewrite assoc_set_assoc.
      pose proof (diverge_not_nil _ _ Hdiv) as Hq.
      cbn [dicts_along] in Hd.
      set (c := match assoc k d with Some (VDict d') => VDict d' | _ => VDict [] end).
      assert (Hc : exists dc, c = VDict dc).
      { subst c. destruct (assoc k d) as [[]|]; eauto. }
      destruct Hc as (dc & Hc).
      destruct (put_is_dict dc pk lk w) as (dx & Hx).
      rewrite Hc, Hx. cbn [is_none]. rewrite <- Hx, <- Hc.
      destruct (assoc k d) as [x|] eqn:Hkd.
      * destruct x as [| | | | |dd]; try discriminate; subst c;
          try (rewrite (IH (VDict []) q Hdiv Hf (dicts_along_empty pk)),
                 (value_at_empty_dict q Hq);
               cbn [is_none];
               now rewrite ?value_at_no_dict by first [reflexivity | exact Hq]).
        cbn [is_none]. apply (IH (VDict dd) q Hdiv Hf Hd).
      * subst c. rewrite (IH (VDict []) q Hdiv Hf (dicts_along_empty pk)).
        apply (value_at_empty_dict q Hq).
    + rewrite assoc_set_assoc_other; [reflexivity|].
      now rewrite String.eqb_sym.
Qed.

(** Writing what is there changes nothing. *)
Lemma put_same (keys : list string) (lk : string) (v : value) :
  forall r,
    lookup_path r (map SKey (keys ++ [lk])) = Some v -> put r keys lk v = r.
Proof.
  induction keys as [|k keys IH]; intros r H; simpl in H;
    destruct r as [| | | | |d]; try discriminate; simpl in H; cbn [put].
  - destruct (assoc lk d) as [c|] eqn:Hc; [|discriminate].
    injection H as ->. now rewrite (set_assoc_same lk v d Hc).
  - destruct (assoc k d) as [c|] eqn:Hc; [|discriminate].
    assert (Hcd : exists dc, c = VDict dc).
    { destruct keys; simpl in H; destruct c; try discriminate; eauto. }
    destruct Hcd as (dc & ->).
    now rewrite (IH (VDict dc) H), (set_assoc_same k _ d Hc).
Qed.

End PutFacts.

Section SetTheorems.

Lemma fields_but_last (keys : list string) :
  keys <> [] -> forallb is_field keys = true ->
  forallb is_field (but_last keys) = true /\ is_field (last_of keys) = true.
Proof.
  intros Hne Hf. rewrite (keys_but_last keys Hne), forallb_app in Hf.
  apply andb_true_iff in Hf as [Hp Hl]. simpl in Hl. rewrite andb_true_r in Hl. auto.
Qed.

Lemma parent_of_present (pk : list string) (lk : string) (r v : value) :
  lookup_path r (map SKey (pk ++ [lk])) = Some v ->
  exists d, lookup_path r (map SKey pk) = Some (VDict d) /\ assoc lk d = Some v.
Proof.
  rewrite map_app, lookup_path_app. cbn [map].
  destruct (lookup_path r (map SKey pk)) as [pv|]; [|discriminate].
  simpl. destruct pv; try discriminate.
  destruct (assoc lk kvs) eqn:E; [|discriminate].
  intros [= ->]. eauto.
Qed.

End SetTheorems.

(** X20.  The last write wins.  On a path of fields that runs along dicts
    of the root, two [set]s in a row leave what the second alone leaves:
    the first leaves no trace. *)
Theorem set_last_write_wins :
  forall (r : value) (s : string) (v1 v2 : value),
    forallb is_field (split "." s) = true ->
    dicts_along r (but_last (split "." s)) = true ->
    exists r',
      run (set here (PStr s) v2 None) r = (Ok tt, r')
      /\ run (set here (PStr s) v1 None ;; set here (PStr s) v2 None) r = (Ok tt, r').
Proof.
  intros r s v1 v2 Hf Hd.
  exists (put r (but_last (split "." s)) (last_of (split "." s)) v2).
  unfold run.
  rewrite (bind_ok _ _ _ _ _ (set_put_in (init r) s v1 Hf Hd)).
  rewrite (set_put_in (init r) s v2 Hf Hd). split; [reflexivity|].
  rewrite set_put_in; [|exact Hf|].
  - cbn [root locals init]. now rewrite put_twice.
  - cbn [root init] in *. destruct r; try (destruct (but_last (split "." s)); discriminate).
    apply dicts_along_put.
Qed.

Lemma set_last_write_wins_witness :
  exists r',
    run (set here (PStr "a.b") (VInt 2) None) (VDict [("a", VInt 0)]) = (Ok tt, r')
    /\ run (set here (PStr "a.b") (VInt 1) None ;; set here (PStr "a.b") (VInt 2) None)
           (VDict [("a", VInt 0)]) = (Ok tt, r').
Proof.
  apply (set_last_write_wins (VDict [("a", VInt 0)]) "a.b" (VInt 1) (VInt 2));
    reflexivity.
Defined.

(** X21.  [set] leaves the other paths alone, in a root that is a tree (no
    container is stored under two paths, as in every root of the
    embedding).  After [set] on a path of fields that runs along dicts of
    the root, [get] on a path whose segments parse and that parts ways with
    it (the two differ at a segment that both have) returns what it
    returned before. *)
Theorem set_keeps_other_paths :
  forall (r : value) (s q : string) (w default : value),
    forallb is_field (split "." s) = true ->
    dicts_along r (but_last (split "." s)) = true ->
    forallb parses (split "." q) = true ->
    diverge (split "." s) (split "." q) = true ->
    exists r' x,
      run (set here (PStr s) w None) r = (Ok tt, r')
      /\ run (get here (PStr q) default None VNone) r = (Ok x, r)
      /\ run (get here (PStr q) default None VNone) r' = (Ok x, r').
Proof.
  intros r s q w default Hf Hd Hq Hdiv.
  do 2 eexists. unfold run at 1.
  rewrite (set_put_in (init r) s w Hf Hd). cbn [root init].
  split; [reflexivity|]. rewrite !(get_spec _ q default Hq).
  rewrite (keys_but_last (split "." s) (split_not_nil _ _)) in Hdiv, Hf.
  rewrite (put_frame _ _ w r (split "." q) Hdiv Hf Hd). split; reflexivity.
Qed.

Lemma set_keeps_other_paths_witness :
  exists r' x,
    run (set here (PStr "a.b.c") (VInt 1) None) (VDict [("a", VDict [("z", VInt 9)])])
    = (Ok tt, r')
    /\ run (get here (PStr "a.z") VNone None VNone) (VDict [("a", VDict [("z", VInt 9)])])
       = (Ok x, VDict [("a", VDict [("z", VInt 9)])])
    /\ run (get here (PStr "a.z") VNone None VNone) r' = (Ok x, r').
Proof.
  apply (set_keeps_other_paths (VDict [("a", VDict [("z", VInt 9)])]) "a.b.c" "a.z");
    reflexivity.
Defined.

(** X22.  Writing back what [get] found changes nothing: when [get] with
    the default [None] returns a value that is not [None], [set] of that
    value on the same path does not raise and leaves the root as it
    was. *)
Theorem set_what_get_found :
  forall (r : value) (s : string) (v : value),
    run (get here (PStr s) VNone None VNone) r = (Ok v, r) ->
    is_none v = false ->
    run (set here (PStr s) v None) r = (Ok tt, r).
Proof.
  intros r s v Hget Hn.
  destruct (get_found r r s v Hget Hn) as [Hq Hx].
  set (keys := split "." s) in *.
  assert (Hne : keys <> []) by apply split_not_nil.
  pose proof (trav_some_fields _ _ _ Hq) as Hf.
  rewrite (keys_but_last keys Hne) in Hx.
  destruct (parent_of_present _ _ _ _ Hx) as (d & Hp & _).
  unfold run. rewrite (set_put_in (init r) s v Hf (dicts_along_present _ _ _ Hp)).
  cbn [root init]. fold keys. now rewrite (put_same _ _ _ _ Hx).
Qed.

Lemma set_what_get_found_witness :
  let r := VDict [("a", VDict [("b", VList [VInt 1])])] in
  run (set here (PStr "a.b") (VList [VInt 1]) None) r = (Ok tt, r).
Proof.
  apply (set_what_get_found (VDict [("a", VDict [("b", VList [VInt 1])])]) "a.b");
    reflexivity.
Defined.

(** X23.  [delete] undoes [set].  On a path of fields whose parent is
    present and a dict, [set] followed by [delete] leaves what [delete]
    alone leaves; where the last field was missing, that is the root as it
    was. *)
Theorem set_then_delete :
  forall (r : value) (s : string) (w : value) (d : list (string * value)),
    forallb is_field (split "." s) = true ->
    lookup_path r (map SKey (but_last (split "." s))) = Some (VDict d) ->
    run (set here (PStr s) w None ;; delete here (PStr s) None) r
    = run (delete here (PStr s) None) r
    /\ (assoc (last_of (split "." s)) d = None ->
        run (set here (PStr s) w None ;; delete here (PStr s) None) r = (Ok tt, r)).
Proof.
  intros r s w d Hf Hp.
  set (keys := split "." s) in *.
  destruct (fields_but_last keys (split_not_nil _ _) Hf) as [Hfp Hfl].
  assert (Hboth :
            run (set here (PStr s) w None ;; delete here (PStr s) None) r
            = (Ok tt, update_path r (map SKey (but_last keys))
                        (VDict (del_assoc (last_of keys) d)))
            /\ run (delete here (PStr s) None) r
               = (Ok tt, update_path r (map SKey (but_last keys))
                           (VDict (del_assoc (last_of keys) d)))).
  { split.
    - unfold run.
      rewrite (bind_ok _ _ _ _ _
                 (set_put_in (init r) s w Hf (dicts_along_present _ _ _ Hp))).
      rewrite (delete_in _ s (fields_parse _ Hf)). cbn [root locals init]. fold keys.
      rewrite (put_present _ _ w r d Hp). unfold deleted.
      pose proof (lookup_update_path _ r _ (VDict (set_assoc (last_of keys) w d)) Hp) as Hp'.
      rewrite (trav_fields _ _ _ Hfp Hp' eq_refl), Hp', (parse_key_field _ Hfl).
      now rewrite (update_path_twice _ _ _ _ _ Hp), del_set_assoc.
    - rewrite (delete_spec r s (fields_parse _ Hf)). fold keys. unfold deleted.
      now rewrite (trav_fields _ _ _ Hfp Hp eq_refl), Hp, (parse_key_field _ Hfl). }
  destruct Hboth as [H1 H2]. split; [congruence|].
  intros Habs. rewrite H1, (del_assoc_absent _ _ Habs).
  now rewrite (update_path_same _ _ _ Hp).
Qed.

Lemma set_then_delete_witness :
  let r := VDict [("a", VDict [("b", VInt 1)])] in
  run (set here (PStr "a.c") (VInt 2) None ;; delete here (PStr "a.c") None) r
  = run (delete here (PStr "a.c") None) r
  /\ run (set here (PStr "a.c") (VInt 2) None ;; delete here (PStr "a.c") None) r
     = (Ok tt, r).
Proof.
  destruct (set_then_delete (VDict [("a", VDict [("b", VInt 1)])]) "a.c" (VInt 2)
              [("b", VInt 1)] eq_refl eq_refl) as [H1 H2].
  split; [exact H1 | apply H2; reflexivity].
Defined.

(** ** [push] and [pull] after each other *)

Section PushPull.

Lemma push_present_in (r : value) (s : string) (items : list value) (w : value) :
  forallb is_field (split "." s) = true ->
  lookup_path r (map SKey (split "." s)) = Some (VList items) ->
  push here (PStr s) w None (init r)
  = (Ok tt, init (update_path r (map SKey (split "." s)) (VList (items ++ [w])))).
Proof.
  intros Hf Hl. cbn [push]. unfold push_one.
  assert (Hl' : lookup_path (root (init r)) ([] ++ map SKey (split "." s))
                = Some (VList items)) by exact Hl.
  unfold here.
  rewrite (bind_ok _ _ _ _ _
             (traverse_create_present _ [] (init r) (VList items) Hf Hl' eq_refl)).
  cbn [app]. unfold test, append, save, bind, ret.
  rewrite !(load_root _ (init r) _ Hl). cbn [is_list_object isinstance_list].
  now rewrite (load_root _ (init r) _ Hl).
Qed.

Lemma pull_index_in (r : value) (s : string) (items : list value) (v : value) (i : Z) :
  forallb is_field (split "." s) = true ->
  lookup_path r (map SKey (split "." s)) = Some (VList items) ->
  0 <= i < Z.of_nat (List.length items) ->
  pull here (PStr s) v (VInt i) None (init r)
  = (Ok tt, init (update_path r (map SKey (split "." s))
                    (VList (del_nth (Z.to_nat i) items)))).
Proof.
  intros Hf Hl Hi.
  destruct (pull_target_fields r s items Hf Hl) as (d & Hpv & Hc & Htarget).
  cbn [pull]. unfold pull_one, bind at 1. rewrite Htarget.
  unfold pull_from, bind. rewrite (load_root _ (init r) _ Hl). cbn [as_int].
  replace ((0 <=? i) && (i <? Z.of_nat (List.length items))) with true
    by (symmetry; apply andb_true_iff; split; [apply Z.leb_le | apply Z.ltb_lt]; lia).
  now rewrite (list_pop_at _ (init r) items i Hl Hi).
Qed.

Lemma pull_value_in (r : value) (s : string) (items : list value) (v : value) :
  forallb is_field (split "." s) = true ->
  lookup_path r (map SKey (split "." s)) = Some (VList items) ->
  is_none v = false ->
  is_dict_object v = false ->
  pull here (PStr s) v VNone None (init r)
  = (Ok tt, init (update_path r (map SKey (split "." s))
                    (VList (filter (fun x => py_ne x v) items)))).
Proof.
  intros Hf Hl Hn Hd.
  destruct (pull_target_fields r s items Hf Hl) as (d & Hpv & Hc & Htarget).
  cbn [pull]. unfold pull_one, bind at 1. rewrite Htarget.
  unfold pull_from, setitem, save, bind, ret. cbn [root init].
  unfold load. cbn [root init]. rewrite Hl. cbn [as_int]. rewrite Hn, Hd.
  cbn [negb root locals init]. rewrite Hpv.
  rewrite (update_path_field _ r d _ (VList items) _ Hpv Hc).
  now rewrite <- (map_last_key (split "." s)) by apply split_not_nil.
Qed.

Lemma del_nth_last {A} (xs : list A) (x : A) :
  del_nth (List.length xs) (xs ++ [x]) = xs.
Proof. rewrite del_nth_app. apply app_nil_r. Qed.

Lemma filter_twice {A} (f : A -> bool) (xs : list A) :
  filter f (filter f xs) = filter f xs.
Proof.
  induction xs as [|x xs IH]; simpl; [reflexivity|].
  destruct (f x) eqn:E; simpl; rewrite ?E, IH; reflexivity.
Qed.

End PushPull.

(** X24.  [push] on a path of fields that holds a list appends the value
    to the list and changes nothing else, and [pull] with the index of the
    new element (the length the list had) takes it away again: the root is
    then as it was. *)
Theorem push_then_pull_last :
  forall (r : value) (s : string) (items : list value) (w v : value),
    forallb is_field (split "." s) = true ->
    lookup_path r (map SKey (split "." s)) = Some (VList items) ->
    run (push here (PStr s) w None) r
    = (Ok tt, update_path r (map SKey (split "." s)) (VList (items ++ [w])))
    /\ run (push here (PStr s) w None ;;
            pull here (PStr s) v (VInt (Z.of_nat (List.length items))) None) r
       = (Ok tt, r).
Proof.
  intros r s items w v Hf Hl. unfold run.
  rewrite (bind_ok _ _ _ _ _ (push_present_in r s items w Hf Hl)).
  rewrite (push_present_in r s items w Hf Hl). split; [reflexivity|].
  rewrite (pull_index_in _ s (items ++ [w]) v _ Hf).
  - cbn [root init]. rewrite Nat2Z.id, del_nth_last.
    rewrite (update_path_twice _ _ _ _ _ Hl).
    now rewrite (update_path_same _ _ _ Hl).
  - apply (lookup_update_path _ _ _ _ Hl).
  - rewrite length_app. simpl. lia.
Qed.

Lemma push_then_pull_last_witness :
  let r := VDict [("a", VDict [("l", VList [VInt 1; VInt 2])])] in
  run (push here (PStr "a.l") (VInt 3) None) r
  = (Ok tt, VDict [("a", VDict [("l", VList [VInt 1; VInt 2; VInt 3])])])
  /\ run (push here (PStr "a.l") (VInt 3) None ;;
          pull here (PStr "a.l") VNone (VInt 2) None) r
     = (Ok tt, r).
Proof.
  apply (push_then_pull_last (VDict [("a", VDict [("l", VList [VInt 1; VInt 2])])])
           "a.l" [VInt 1; VInt 2] (VInt 3) VNone); reflexivity.
Defined.

(** X25.  [pull] by value is idempotent: on a path of fields that holds a
    list, with a value that is neither [None] nor a mapping, a second
    [pull] of the same value changes nothing more. *)
Theorem pull_value_twice :
  forall (r : value) (s : string) (items : list value) (v : value),
    forallb is_field (split "." s) = true ->
    lookup_path r (map SKey (split "." s)) = Some (VList items) ->
    is_none v = false ->
    is_dict_object v = false ->
    run (pull here (PStr s) v VNone None ;; pull here (PStr s) v VNone None) r
    = run (pull here (PStr s) v VNone None) r.
Proof.
  intros r s items v Hf Hl Hn Hd. unfold run.
  rewrite (bind_ok _ _ _ _ _ (pull_value_in r s items v Hf Hl Hn Hd)).
  rewrite (pull_value_in r s items v Hf Hl Hn Hd).
  rewrite (pull_value_in _ s (filter (fun x => py_ne x v) items) v Hf).
  - cbn [root init]. now rewrite filter_twice, (update_path_twice _ _ _ _ _ Hl).
  - apply (lookup_update_path _ _ _ _ Hl).
  - exact Hn.
  - exact Hd.
Qed.

Lemma pull_value_twice_witness :
  let r := VDict [("l", VList [VInt 1; VInt 2; VInt 1])] in
  run (pull here (PStr "l") (VInt 1) VNone None ;; pull here (PStr "l") (VInt 1) VNone None) r
  = run (pull here (PStr "l") (VInt 1) VNone None) r.
Proof.
  apply (pull_value_twice (VDict [("l", VList [VInt 1; VInt 2; VInt 1])]) "l"
           [VInt 1; VInt 2; VInt 1] (VInt 1)); reflexivity.
Defined.

(** ** The algebra of the traversal-side matcher *)

Section MatchAlgebra.

Lemma rbind_bool (r : result bool) :
  rbind r (fun b => if b then Ok true else Ok false) = r.
Proof. now destruct r as [[|]|]. Qed.

Lemma all_of_app {A} (f : A -> result bool) (a b : list A) :
  all_of f (a ++ b) = rbind (all_of f a) (fun x => if x then all_of f b else Ok false).
Proof.
  induction a as [|x a IH]; simpl; [reflexivity|].
  destruct (f x) as [[|]|]; simpl; auto.
Qed.

Lemma all_of_ext {A} (f g : A -> result bool) (xs : list A) :
  (forall x, In x xs -> f x = g x) -> all_of f xs = all_of g xs.
Proof.
  induction xs as [|x xs IH]; intros H; simpl; [reflexivity|].
  rewrite (H x) by now left.
  destruct (g x) as [[|]|]; simpl; auto.
  apply IH. intros y Hy. apply H. now right.
Qed.

(** The keys of a query are a conjunction, read from left to right. *)
Lemma match_app (document : value) (a b : list (string * value)) :
  _match document (VDict (a ++ b))
  = rbind (_match document (VDict a))
          (fun x => if x then _match document (VDict b) else Ok false).
Proof. cbn [_match]. apply all_of_app. Qed.

Lemma match_not (document q : value) :
  _match document (VDict [("$not", q)])
  = rbind (_match document q) (fun b => Ok (negb b)).
Proof.
  cbn [_match all_of]. simpl String.eqb. cbv iota.
  destruct (_match document q) as [[|]|]; reflexivity.
Qed.

Lemma match_or (document : value) (qs : list value) :
  _match document (VDict [("$or", VList qs)])
  = any_of (fun q => _match document q) qs.
Proof.
  cbn [_match all_of]. simpl String.eqb. cbv iota. apply rbind_bool.
Qed.

Lemma match_and (document : value) (qs : list value) :
  _match document (VDict [("$and", VList qs)])
  = all_of (fun q => _match document q) qs.
Proof.
  cbn [_match all_of]. simpl String.eqb. cbv iota. apply rbind_bool.
Qed.

Lemma all_of_not (document : value) (qs : list value) :
  all_of (fun q => _match document q) (map (fun q => VDict [("$not", q)]) qs)
  = rbind (any_of (fun q => _match document q) qs) (fun b => Ok (negb b)).
Proof.
  induction qs as [|q qs IH]; [reflexivity|].
  cbn [map all_of any_of]. rewrite match_not, IH.
  destruct (_match document q) as [[|]|]; reflexivity.
Qed.

Lemma all_of_dicts (document : value) (ds : list (list (string * value))) :
  all_of (fun q => _match document q) (map VDict ds)
  = _match document (VDict (List.concat ds)).
Proof.
  induction ds as [|d ds IH]; [reflexivity|].
  cbn [map all_of List.concat]. now rewrite IH, match_app.
Qed.

End MatchAlgebra.

(** X26.  Negation in [_match].  A double [$not] is the query itself, and
    the [$not] of an [$or] is the [$and] of the [$not]s (De Morgan), as
    results: both sides return the same answer or raise the same
    exception. *)
Theorem match_negation_laws :
  forall (document : value),
    (forall q,
        _match document (VDict [("$not", VDict [("$not", q)])]) = _match document q)
    /\ (forall qs,
          _match document (VDict [("$not", VDict [("$or", VList qs)])])
          = _match document
              (VDict [("$and", VList (map (fun q => VDict [("$not", q)]) qs))])).
Proof.
  intros document. split.
  - intros q. rewrite !match_not.
    destruct (_match document q) as [[|]|]; reflexivity.
  - intros qs. now rewrite match_not, match_or, match_and, all_of_not.
Qed.

(** X27.  Conjunction in [_match].  The keys of a query are checked from
    left to right and all have to pass, the empty query matches every
    document, and an [$and] of mappings is the query that holds their items
    one after the other. *)
Theorem match_conjunction :
  forall (document : value),
    _match document (VDict []) = Ok true
    /\ (forall a b,
          _match document (VDict (a ++ b))
          = rbind (_match document (VDict a))
                  (fun x => if x then _match document (VDict b) else Ok false))
    /\ (forall ds,
          _match document (VDict [("$and", VList (map VDict ds))])
          = _match document (VDict (List.concat ds))).
Proof.
  intros document. split; [reflexivity|]. split.
  - apply match_app.
  - intros ds. now rewrite match_and, all_of_dicts.
Qed.

(** ** The two matchers side by side *)

Section TwoMatchers.

Variable re_search : value -> string -> Z -> result bool.

Lemma at_key_assoc {R} (name : string) (f : value -> R) (items : list (string * value)) :
  (fix at_key (its : list (string * value)) : option R :=
     match its with
     | [] => None
     | (k, v) :: its' => if String.eqb name k then Some (f v) else at_key its'
     end) items
  = option_map f (assoc name items).
Proof.
  induction items as [|[k v] items IH]; [reflexivity|].
  cbn [assoc]. destruct (String.eqb name k); [reflexivity | exact IH].
Qed.

(** [match_item] on a dict: [$and] decides alone when it is a key, then
    [$or], and the conditions are read only when neither is. *)
Lemma match_item_dict (item : value) (items : list (string * value)) :
  match_item re_search item (VDict items)
  = match assoc "$and" items with
    | Some (VList qs) => all_of (fun q => match_item re_search item q) qs
    | Some subs => rbind (iter subs) (all_of match_item_no_dict)
    | None =>
        match assoc "$or" items with
        | Some (VList qs) => any_of (fun q => match_item re_search item q) qs
        | Some subs => rbind (iter subs) (any_of match_item_no_dict)
        | None => all_of (fun '(k, v) => match_condition re_search item k v) items
        end
    end.
Proof.
  cbn [match_item]. rewrite !at_key_assoc.
  destruct (assoc "$and" items) as [[]|]; try reflexivity.
  destruct (assoc "$or" items) as [[]|]; reflexivity.
Qed.

Lemma assoc_no_combinator (name : string) (items : list (string * value)) :
  combinator name = true ->
  forallb (fun kv => negb (combinator (fst kv))) items = true ->
  assoc name items = None.
Proof.
  intros Hn. induction items as [|[k v] items IH]; [reflexivity|].
  cbn [forallb fst assoc]. intros H. apply andb_true_iff in H as [Hk H].
  destruct (String.eqb name k) eqn:E; [|auto].
  apply String.eqb_eq in E. subst k. now rewrite Hn in Hk.
Qed.

Lemma shared_op_checks (self : value -> value -> result bool)
    (doc_value condition : value) (cond : list (string * value)) (op : string) (v : value) :
  shared_op doc_value op = true ->
  cond_check re_search doc_value condition cond op v = op_check self doc_value op v.
Proof.
  unfold shared_op, ordered_op. cbn [existsb]. intros H.
  repeat match goal with
         | H : _ || _ = true |- _ => apply orb_true_iff in H; destruct H as [H | H]
         | H : _ && _ = true |- _ => apply andb_true_iff in H; destruct H as [H ?]
         | H : String.eqb _ _ = true |- _ => apply String.eqb_eq in H; subst op
         | H : negb _ = true |- _ => apply negb_true_iff in H
         end;
    try discriminate; unfold cond_check, op_check, not_none_and;
    cbn [String.eqb Ascii.eqb Bool.eqb]; rewrite ?H0; reflexivity.
Qed.

Lemma any_of_ext {A} (f g : A -> result bool) (xs : list A) :
  (forall x, In x xs -> f x = g x) -> any_of f xs = any_of g xs.
Proof.
  induction xs as [|x xs IH]; intros H; simpl; [reflexivity|].
  rewrite (H x) by now left.
  destruct (g x) as [[|]|]; simpl; auto.
  apply IH. intros y Hy. apply H. now right.
Qed.

(** On a query both matchers read alike, they give the same result. *)
Lemma matchers_agree_flat (document : value) (items : list (string * value)) :
  shared_query document items = true ->
  match_item re_search document (VDict items) = _match document (VDict items).
Proof.
  intros H. unfold shared_query in H.
  rewrite match_item_dict.
  assert (Hkeys : forallb (fun kv => negb (combinator (fst kv))) items = true).
  { apply forallb_forall. intros [k v] Hin.
    apply (proj1 (forallb_forall _ _) H) in Hin.
    now apply andb_true_iff in Hin as [Hk _]. }
  rewrite (assoc_no_combinator "$and" items eq_refl Hkeys).
  rewrite (assoc_no_combinator "$or" items eq_refl Hkeys).
  cbn [_match]. apply all_of_ext. intros [key val] Hin.
  apply (proj1 (forallb_forall _ _) H) in Hin.
  apply andb_true_iff in Hin as [Hk Hval].
  apply negb_true_iff in Hk. unfold combinator in Hk.
  apply orb_false_iff in Hk as [Hk Hnot]. apply orb_false_iff in Hk as [Hand Hor].
  rewrite Hand, Hor, Hnot.
  unfold match_condition.
  destruct (get_doc document key) as [dv|e] eqn:Hdoc; cbn [rbind];
    [|now destruct val].
  apply get_doc_ok in Hdoc.
  destruct val as [| | | | |ops]; unfold py_ne; rewrite ?negb_involutive; try reflexivity.
  apply all_of_ext. intros [op v] Hop.
  apply (proj1 (forallb_forall _ _) Hval) in Hop.
  apply shared_op_checks. now rewrite Hdoc.
Qed.

Lemma value_nested_ind (P : value -> Prop) :
  P VNone -> (forall b, P (VBool b)) -> (forall z, P (VInt z)) ->
  (forall s, P (VStr s)) ->
  (forall xs, Forall P xs -> P (VList xs)) ->
  (forall kvs, Forall (fun kv => P (snd kv)) kvs -> P (VDict kvs)) ->
  forall v, P v.
Proof.
  intros HN HB HI HS HL HD. fix IH 1.
  intros [|b|z|s|xs|kvs]; [exact HN | apply HB | apply HI | apply HS | |].
  - apply HL. induction xs as [|x xs IHxs]; constructor; [apply IH | exact IHxs].
  - apply HD. induction kvs as [|[k x] kvs IHk]; constructor; [apply IH | exact IHk].
Qed.

(** And so they do under [$and] and [$or], to any depth. *)
Lemma matchers_agree_nested (document : value) :
  forall q,
    shared document q = true ->
    match_item re_search document q = _match document q.
Proof.
  set (Q := fun q => shared document q = true ->
                     match_item re_search document q = _match document q).
  assert (H : forall v, Q v /\ (forall qs, v = VList qs -> Forall Q qs)).
  { apply value_nested_ind; try (split; [intros H | intros qs H]; discriminate).
    - intros xs IH. split; [intros H; discriminate|].
      intros qs [= <-]. apply (Forall_impl Q (fun v Hv => proj1 Hv) IH).
    - intros kvs IH. split; [|intros qs H; discriminate].
      intros Hs.
      destruct kvs as [|[k v] rest]; [apply matchers_agree_flat; exact Hs|].
      destruct v as [| | | |qs|]; destruct rest as [|kv2 rest];
        try (apply matchers_agree_flat; exact Hs).
      cbn [shared] in Hs.
      destruct (String.eqb k "$and" || String.eqb k "$or") eqn:E;
        [|apply matchers_agree_flat; exact Hs].
      inversion IH as [|kv kvs' Hhead _]; subst. cbn [snd] in Hhead.
      pose proof (proj2 Hhead qs eq_refl) as Hqs.
      assert (Hsub : forall x, In x qs ->
                               match_item re_search document x = _match document x).
      { intros x Hin. apply (proj1 (Forall_forall Q qs) Hqs x Hin).
        apply (proj1 (forallb_forall _ _) Hs x Hin). }
      rewrite match_item_dict.
      apply orb_true_iff in E as [E | E]; apply String.eqb_eq in E; subst k.
      + cbn [assoc]. simpl String.eqb. cbv iota.
        rewrite match_and. now apply all_of_ext.
      + cbn [assoc]. simpl String.eqb. cbv iota.
        rewrite match_or. now apply any_of_ext. }
  intros q. apply (proj1 (H q)).
Qed.

End TwoMatchers.

(** X28.  The two matchers agree on the queries they read alike.  For a
    query without combinators whose conditions are literals or mappings of
    [$in], [$nin] and, on fields where the document holds a value that is
    not [None], [$gt], [$gte], [$lt] and [$lte], [match_item] (behind
    [find_first] and [find_all]) and [_match] (behind [get] and [pull])
    return the same answer or raise the same exception. *)
Theorem matchers_agree :
  forall (re_search : value -> string -> Z -> result bool)
         (document : value) (items : list (string * value)),
    shared_query document items = true ->
    match_item re_search document (VDict items) = _match document (VDict items).
Proof. exact matchers_agree_flat. Qed.

Lemma matchers_agree_witness :
  let document := VDict [("age", VInt 30); ("tags", VList [VStr "a"])] in
  let items := [("age", VDict [("$gte", VInt 18); ("$in", VList [VInt 30; VInt 31])]);
                ("tags", VList [VStr "a"])] in
  match_item re_never document (VDict items) = _match document (VDict items).
Proof.
  apply (matchers_agree re_never
           (VDict [("age", VInt 30); ("tags", VList [VStr "a"])])).
  reflexivity.
Defined.

(** X29.  The two matchers agree under [$and] and [$or] as well.  For a
    query built from the queries both read alike by putting a list of
    queries under the one key [$and] or the one key [$or], to any depth,
    [match_item] and [_match] return the same answer or raise the same
    exception, and so [find_all] returns the dicts that [get] with the
    query keeps. *)
Theorem matchers_agree_under_and_or :
  forall (re_search : value -> string -> Z -> result bool)
         (document : value) (q : value),
    shared document q = true ->
    match_item re_search document q = _match document q.
Proof. exact matchers_agree_nested. Qed.

Lemma matchers_agree_under_and_or_witness :
  let document := VDict [("age", VInt 30); ("name", VStr "x")] in
  let q := VDict [("$or", VList [VDict [("name", VStr "y")];
                                 VDict [("$and", VList [VDict [("age", VDict [("$gt", VInt 18)])];
                                                        VDict [("name", VStr "x")]])]])] in
  match_item re_never document q = _match document q.
Proof.
  apply (matchers_agree_under_and_or re_never
           (VDict [("age", VInt 30); ("name", VStr "x")])).
  reflexivity.
Defined.

(** ** [has] under an [index_prefix] *)

Section IndexPrefix.

Lemma prefix_app (p s : string) : String.prefix p (p ++ s)%string = true.
Proof.
  induction p as [|c p IH]; simpl; [now destruct s|].
  destruct (ascii_dec c c); [exact IH | congruence].
Qed.

Lemma drop_app (p s : string) : drop (String.length p) (p ++ s)%string = s.
Proof. induction p as [|c p IH]; simpl; [reflexivity | exact IH]. Qed.

Lemma has_loop_prefix_fields (prefix : string) (keys : list string) :
  forall (p : list step) (st : store) (cur : value),
    lookup_path (root st) p = Some cur ->
    forallb (fun k => negb (String.prefix prefix k)) keys = true ->
    has_loop (RAt Root p) keys (Some prefix) st
    = (Ok (is_some (lookup_path cur (map SKey keys))), st).
Proof.
  induction keys as [|key keys IH]; intros p st cur Hcur Hk; [reflexivity|].
  cbn [forallb] in Hk. apply andb_true_iff in Hk as [Hkey Hk].
  apply negb_true_iff in Hkey.
  cbn [has_loop map lookup_path]. unfold bind at 1, lift.
  unfold _parse_key. rewrite Hkey.
  unfold test, has_key, get_value; unfold bind, ret.
  rewrite (load_root p st cur Hcur).
  destruct cur; simpl; try reflexivity.
  repeat (rewrite Hcur; simpl).
  destruct (assoc key kvs) as [c|] eqn:Hc; simpl; [|reflexivity].
  repeat (rewrite Hcur; simpl). rewrite ?Hc.
  apply IH; [|exact Hk].
  apply (load_child p (SKey key) st (VDict kvs) c Hcur). exact Hc.
Qed.

End IndexPrefix.

(** X30.  [has] under an [index_prefix].  Where no segment of the path
    starts with the prefix, every segment is a field, a segment of digits
    too: the answer is whether the path resolves along keys of dicts.  And
    on a list, a path of one segment made of the prefix and an integer
    literal answers whether the list has the position, a negative integer
    counting from the end. *)
Theorem has_under_index_prefix :
  forall (prefix : string),
    (forall (r : value) (s : string),
        forallb (fun k => negb (String.prefix prefix k)) (split "." s) = true ->
        run (has here (PStr s) (Some prefix)) r
        = (Ok (VBool (is_some (lookup_path r (map SKey (split "." s))))), r))
    /\ (forall (xs : list value) (digits : string) (z : Z),
          split "." (prefix ++ digits)%string = [(prefix ++ digits)%string] ->
          int digits = Ok z ->
          run (has here (PStr (prefix ++ digits)%string) (Some prefix)) (VList xs)
          = (Ok (VBool ((- Z.of_nat (List.length xs) <=? z)
                        && (z <? Z.of_nat (List.length xs)))), VList xs)).
Proof.
  intros prefix. split.
  - intros r s Hk. unfold run. cbn [has]. unfold bind, here.
    now rewrite (has_loop_prefix_fields prefix _ [] (init r) r eq_refl Hk).
  - intros xs digits z Hs Hz. unfold run. cbn [has]. rewrite Hs.
    cbn [has_loop]. unfold _parse_key. rewrite prefix_app, drop_app, Hz.
    unfold test, getitem, try_except, bind, lift, ret, load, here, position.
    cbn [rbind root init lookup_path is_list_object isinstance_list negb].
    destruct ((0 <=? z) && (z <? Z.of_nat (List.length xs))) eqn:E1.
    + apply andb_true_iff in E1 as [H1 H2].
      apply Z.leb_le in H1. rewrite H2, andb_true_r.
      replace (- Z.of_nat (List.length xs) <=? z) with true
        by (symmetry; apply Z.leb_le; lia).
      reflexivity.
    + destruct ((- Z.of_nat (List.length xs) <=? z) && (z <? 0)) eqn:E2.
      * apply andb_true_iff in E2 as [H1 H2]. rewrite H1.
        apply Z.ltb_lt in H2.
        replace (z <? Z.of_nat (List.length xs)) with true
          by (symmetry; apply Z.ltb_lt; lia).
        reflexivity.
      * replace ((- Z.of_nat (List.length xs) <=? z) && (z <? Z.of_nat (List.length xs)))
          with false; [reflexivity|].
        symmetry. apply andb_false_iff.
        apply andb_false_iff in E1. apply andb_false_iff in E2.
        destruct E1 as [E1 | E1], E2 as [E2 | E2]; auto.
        -- apply Z.leb_gt in E1. apply Z.ltb_ge in E2. lia.
Qed.

Lemma has_under_index_prefix_witness :
  (run (has here (PStr "a.0") (Some "#")) (VDict [("a", VDict [("0", VInt 1)])])
   = (Ok (VBool true), VDict [("a", VDict [("0", VInt 1)])]))
  /\ (run (has here (PStr "#-1") (Some "#")) (VList [VInt 7])
      = (Ok (VBool true), VList [VInt 7])).
Proof.
  split.
  - apply (proj1 (has_under_index_prefix "#") (VDict [("a", VDict [("0", VInt 1)])]) "a.0").
    reflexivity.
  - apply (proj2 (has_under_index_prefix "#") [VInt 7] "-1" (-1)); reflexivity.
Defined.

